(** * Python-Markdown: raw-HTML extractor, registry, block and inline
    processors, table and abbreviation extensions, command-line options.

    A shallow embedding of the Python sources in Rocq.  Python strings are
    lists of characters, [None] is [option]'s [None], mutable objects are
    threaded explicitly through the functions that update them. *)

From Stdlib Require Import String Ascii DecimalString Bool Arith Lia ZArith QArith List.
From Stdlib Require Import Permutation Sorted.
Import ListNotations.
Local Open Scope nat_scope.
Local Open Scope list_scope.
Set Warnings "-register-all".

(** ** Python strings *)

Module PyStr.

Definition str := list ascii.

(** String literals. *)
Definition py (s : string) : str := list_ascii_of_string s.

Definition nl : ascii := "010"%char.
Definition space : ascii := " "%char.
Definition backslash : ascii := "\"%char.
Definition backtick : ascii := "`"%char.
Definition pipe : ascii := "|"%char.

Fixpoint str_eqb (a b : str) : bool :=
  match a, b with
  | [], [] => true
  | x :: a', y :: b' => Ascii.eqb x y && str_eqb a' b'
  | _, _ => false
  end.

Definition mem_char (c : ascii) (s : str) : bool := existsb (Ascii.eqb c) s.

Definition mem_str (x : str) (l : list str) : bool := existsb (str_eqb x) l.

(** [s.startswith(p)] *)
Fixpoint startswith (p s : str) : bool :=
  match p, s with
  | [], _ => true
  | x :: p', y :: s' => Ascii.eqb x y && startswith p' s'
  | _ :: _, [] => false
  end.

(** [s.endswith(p)] *)
Definition endswith (p s : str) : bool := startswith (rev p) (rev s).

(** [s[i:j]] and [s[i:]] for non-negative indices. *)
Definition slice {A} (i j : nat) (s : list A) : list A := firstn (j - i) (skipn i s).
Definition slice_from {A} (i : nat) (s : list A) : list A := skipn i s.

(** [s.lstrip(chars)], [s.rstrip(chars)], [s.strip(chars)], the character
    set given as a predicate. *)
Fixpoint lstrip_by (p : ascii -> bool) (s : str) : str :=
  match s with
  | c :: s' => if p c then lstrip_by p s' else s
  | [] => []
  end.

Definition rstrip_by (p : ascii -> bool) (s : str) : str :=
  rev (lstrip_by p (rev s)).

Definition strip_by (p : ascii -> bool) (s : str) : str :=
  rstrip_by p (lstrip_by p s).

(** Python's [str.isspace] on the code points below 256: space, tab,
    newline, vertical tab, form feed, carriage return, the four separators
    28 to 31, NEL (133) and the no-break space (160). *)
Definition is_space (c : ascii) : bool :=
  let n := nat_of_ascii c in
  (n =? 32) || ((9 <=? n) && (n <=? 13)) || ((28 <=? n) && (n <=? 31))
  || (n =? 133) || (n =? 160).

Definition is_blank (c : ascii) : bool := Ascii.eqb c space.
Definition is_nl (c : ascii) : bool := Ascii.eqb c nl.

(** [s.strip()] and [s.strip(' ')]. *)
Definition strip (s : str) : str := strip_by is_space s.
Definition strip_sp (s : str) : str := strip_by is_blank s.

(** [s.split(c)] for a one-character separator: never empty. *)
Fixpoint split_on (c : ascii) (s : str) : list str :=
  match s with
  | [] => [[]]
  | x :: s' =>
      if Ascii.eqb x c then [] :: split_on c s'
      else match split_on c s' with
           | [] => [[x]]
           | w :: ws => (x :: w) :: ws
           end
  end.

(** The characters up to the next newline: the rest of the line, what a
    greedy [.*] takes. *)
Fixpoint line_prefix (s : str) : str :=
  match s with
  | c :: s' => if is_nl c then [] else c :: line_prefix s'
  | [] => []
  end.

(** [''.join(l)] *)
Definition join (l : list str) : str := concat l.

(** Truth value of a string. *)
Definition truthy (s : str) : bool := match s with [] => false | _ => true end.

(** Python exceptions the modelled code can raise. *)
Inductive exn := IndexError | ValueError | KeyError | TypeError.

Inductive result (A : Type) :=
| Ok (a : A)
| Raise (e : exn).
Arguments Ok {A} a.
Arguments Raise {A} e.

Lemma str_eqb_eq (a b : str) : str_eqb a b = true <-> a = b.
Proof.
  revert b. induction a as [|x a IH]; intros [|y b]; cbn; split; intros H;
    try discriminate; try reflexivity.
  - apply andb_true_iff in H. destruct H as [H1 H2].
    apply Ascii.eqb_eq in H1. apply IH in H2. now subst.
  - injection H as -> ->. rewrite Ascii.eqb_refl. now apply IH.
Qed.

Lemma str_eqb_refl (a : str) : str_eqb a a = true.
Proof. now apply str_eqb_eq. Qed.

End PyStr.
Import PyStr.

(** ** xml.etree.ElementTree elements

    [tag], [attrib] (insertion ordered), [text], children and [tail]; a
    text or tail carries the [AtomicString] flag of [markdown.util]. *)

Module Etree.

Record text_t := mkText { atomic : bool; body : str }.

Inductive Element :=
| El (tag : str) (attrib : list (str * str)) (text : option text_t)
     (children : list Element) (tail : option text_t).

Definition tag_of (e : Element) := let 'El t _ _ _ _ := e in t.
Definition attrib_of (e : Element) := let 'El _ a _ _ _ := e in a.
Definition text_of (e : Element) := let 'El _ _ x _ _ := e in x.
Definition children_of (e : Element) := let 'El _ _ _ c _ := e in c.
Definition tail_of (e : Element) := let 'El _ _ _ _ x := e in x.

Definition plain (s : str) : text_t := mkText false s.
Definition AtomicString (s : str) : text_t := mkText true s.

(** [etree.Element(tag)] *)
Definition new (tag : str) : Element := El tag [] None [] None.

(** [parent.append(child)], the effect of [etree.SubElement(parent, ..)]
    on the parent once the child is complete. *)
Definition append (parent child : Element) : Element :=
  let 'El t a x c tl := parent in El t a x (c ++ [child]) tl.

(** [el.set(key, value)] *)
Fixpoint set_attr (k v : str) (a : list (str * str)) : list (str * str) :=
  match a with
  | [] => [(k, v)]
  | (k', v') :: a' => if str_eqb k k' then (k, v) :: a' else (k', v') :: set_attr k v a'
  end.

Definition set (e : Element) (k v : str) : Element :=
  let 'El t a x c tl := e in El t (set_attr k v a) x c tl.

Definition set_text (e : Element) (x : option text_t) : Element :=
  let 'El t a _ c tl := e in El t a x c tl.

End Etree.

(** ** markdown/extensions/tables.py *)

Module Tables.
Import Etree.

Definition PIPE_NONE : N := 0%N.
Definition PIPE_LEFT : N := 1%N.
Definition PIPE_RIGHT : N := 2%N.

(** The attributes of a [TableProcessor]: [self.border], [self.separator]
    and the one configuration key the processor reads. *)
Record TableProcessor := mkTP {
  border : N;
  separator : list str;
  use_align_attribute : bool
}.

(** [__init__]: [border = False], [separator = '']. *)
Definition init (cfg : bool) : TableProcessor := mkTP 0%N [] cfg.

(** [RE_END_BORDER = (?<!\\)(?:\\\\)*\|$] tried at the position whose
    remaining text is [s]: pairs of backslashes, greedily, then one pipe,
    then the end of the string ([$] also matches before a final newline). *)
Fixpoint end_border_here (s : str) : bool :=
  match s with
  | a :: b :: s' =>
      if Ascii.eqb a backslash && Ascii.eqb b backslash then end_border_here s'
      else Ascii.eqb a pipe && (str_eqb (b :: s') [nl])
  | [a] => Ascii.eqb a pipe
  | [] => false
  end.

(** [RE_END_BORDER.search(s)]: the start of the leftmost match; [prev_bs]
    tells whether the character before the position is a backslash (the
    negative look-behind). *)
Fixpoint end_border_search (prev_bs : bool) (pos : nat) (s : str) : option nat :=
  if negb prev_bs && end_border_here s then Some pos
  else match s with
       | [] => None
       | c :: s' => end_border_search (Ascii.eqb c backslash) (S pos) s'
       end.

Definition RE_END_BORDER_search (s : str) : option nat := end_border_search false 0 s.

(** [RE_END_BORDER.sub('', row)]: the match runs to the end of the string,
    or to the final newline, which stays. *)
Definition RE_END_BORDER_sub (row : str) : str :=
  match RE_END_BORDER_search row with
  | Some p => firstn p row ++ (if endswith [nl] row then [nl] else [])
  | None => row
  end.

(** What one match of [RE_CODE_PIPES = (?:(\\\\)|(\\`+)|(`+)|(\\\|)|(\|))]
    records. *)
Inductive pipe_match :=
| MEscBackslash                 (* group 1: two backslashes *)
| MEscTics (n : nat)            (* group 2: a backslash and n backticks *)
| MTics (n : nat)               (* group 3: n backticks *)
| MEscPipe                      (* group 4: backslash, pipe *)
| MPipe.                        (* group 5: a pipe *)

Fixpoint count_tics (s : str) : nat :=
  match s with
  | c :: s' => if Ascii.eqb c backtick then S (count_tics s') else 0
  | [] => 0
  end.

(** The match of [RE_CODE_PIPES] at the start of [s], with its length. *)
Definition code_pipes_here (s : str) : option (pipe_match * nat) :=
  match s with
  | [] => None
  | c :: s' =>
      if Ascii.eqb c backslash then
        match s' with
        | d :: _ =>
            if Ascii.eqb d backslash then Some (MEscBackslash, 2)
            else if Ascii.eqb d backtick then
              Some (MEscTics (count_tics s'), S (count_tics s'))
            else if Ascii.eqb d pipe then Some (MEscPipe, 2)
            else None
        | [] => None
        end
      else if Ascii.eqb c backtick then Some (MTics (count_tics s), count_tics s)
      else if Ascii.eqb c pipe then Some (MPipe, 1)
      else None
  end.

(** [RE_CODE_PIPES.finditer(row)]: the matches from left to right with
    their start positions; [skip] characters of the previous match are
    still to be passed. *)
Fixpoint finditer (skip pos : nat) (s : str) : list (nat * pipe_match) :=
  match s with
  | [] => []
  | _ :: s' =>
      match skip with
      | S k => finditer k (S pos) s'
      | 0 =>
          match code_pipes_here s with
          | Some (m, len) => (pos, m) :: finditer (len - 1) (S pos) s'
          | None => finditer 0 (S pos) s'
          end
      end
  end.

(** A backtick group: [tics[i]] with [tic_points[i]] = (start, end, escape). *)
Record tic := mkTic { tic_len : nat; tic_start : nat; tic_end : nat; tic_esc : nat }.

(** First loop of [_split]: the backtick groups and the pipe positions. *)
Fixpoint collect (ms : list (nat * pipe_match)) : list tic * list nat :=
  match ms with
  | [] => ([], [])
  | (p, m) :: ms' =>
      let '(tics, pipes) := collect ms' in
      match m with
      | MEscTics n => (mkTic n p (p + S n - 1) 1 :: tics, pipes)
      | MTics n => (mkTic n p (p + n - 1) 0 :: tics, pipes)
      | MPipe => (tics, p :: pipes)
      | MEscBackslash | MEscPipe => (tics, pipes)
      end
  end.

(** [tics[pos + 1:].index(tic_size)] over the groups after [pos]; [None] is
    the [ValueError]. *)
Fixpoint tic_index (size : nat) (l : list tic) : option nat :=
  match l with
  | [] => None
  | t :: l' => if tic_len t =? size then Some 0
               else option_map S (tic_index size l')
  end.

(** Second loop of [_split]: pair the groups up by size; [skip] groups were
    consumed by the pair found last. *)
Fixpoint pair_tics (skip : nat) (l : list tic) : list (nat * nat) :=
  match l with
  | [] => []
  | t :: l' =>
      match skip with
      | S k => pair_tics k l'
      | 0 =>
          let tic_size := tic_len t - tic_esc t in
          if tic_size =? 0 then pair_tics 0 l'
          else match tic_index tic_size l' with
               | Some i => (tic_start t, tic_end (nth i l' t)) :: pair_tics (S i) l'
               | None => pair_tics 0 l'
               end
      end
  end.

(** Inner loop of the third loop: is the pipe inside a code region? *)
Fixpoint throw_out (p : nat) (regions : list (nat * nat)) : bool :=
  match regions with
  | [] => false
  | (a, b) :: rs =>
      if p <? a then false
      else if (a <=? p) && (p <=? b) then true
      else throw_out p rs
  end.

Definition good_pipes (pipes : list nat) (regions : list (nat * nat)) : list nat :=
  filter (fun p => negb (throw_out p regions)) pipes.

(** Last loop of [_split]: cut the row at the table pipes. *)
Fixpoint cut (row : str) (pos : nat) (pipes : list nat) : list str :=
  match pipes with
  | [] => [slice_from pos row]
  | p :: ps => slice pos p row :: cut row (S p) ps
  end.

(** [_split(row)] *)
Definition _split (row : str) : list str :=
  let '(tics, pipes) := collect (finditer 0 0 row) in
  cut row 0 (good_pipes pipes (pair_tics 0 tics)).

(** [_split_row(row)] *)
Definition _split_row (self : TableProcessor) (row : str) : list str :=
  let row :=
    if negb (N.eqb (border self) 0) then
      RE_END_BORDER_sub (if startswith [pipe] row then slice_from 1 row else row)
    else row in
  _split row.

(** [test(parent, block)]: the header and separator rows must be table
    rows; [border] and [separator] are kept for [run]. *)
Fixpoint single_column_rows (rows : list str) (is_table : bool) : bool :=
  match rows with
  | [] => is_table
  | r :: rs =>
      let is_table := startswith [pipe] r in
      let is_table :=
        if negb is_table then
          match RE_END_BORDER_search r with Some _ => true | None => false end
        else is_table in
      if negb is_table then is_table else single_column_rows rs is_table
  end.

(** [set(''.join(row)) <= set('|:- ')] *)
Definition separator_chars (row : list str) : bool :=
  forallb (fun c => mem_char c (py "|:- ")) (join row).

Definition test (self : TableProcessor) (parent : Element) (block : str)
  : TableProcessor * bool :=
  let rows := map strip_sp (split_on nl block) in
  if 1 <? length rows then
    let header0 := nth 0 rows [] in
    let b := PIPE_NONE in
    let b := if startswith [pipe] header0 then N.lor b PIPE_LEFT else b in
    let b := match RE_END_BORDER_search header0 with
             | Some _ => N.lor b PIPE_RIGHT
             | None => b
             end in
    let self := mkTP b (separator self) (use_align_attribute self) in
    let row := _split_row self header0 in
    let row0_len := length row in
    let is_table := 1 <? row0_len in
    let is_table :=
      if negb is_table && (row0_len =? 1) && negb (N.eqb b 0)
      then single_column_rows (skipn 1 rows) is_table
      else is_table in
    if is_table then
      let row := _split_row self (nth 1 rows []) in
      let is_table := (length row =? row0_len) && separator_chars row in
      if is_table then (mkTP b row (use_align_attribute self), true)
      else (self, false)
    else (self, false)
  else (self, false).

(** The alignment of a column, from its separator cell. *)
Definition column_align (c : str) : option str :=
  let c := strip_sp c in
  if startswith (py ":") c && endswith (py ":") c then Some (py "center")
  else if startswith (py ":") c then Some (py "left")
  else if endswith (py ":") c then Some (py "right")
  else None.

(** One turn of the loop of [_build_row]: cell [i] of the row. *)
Definition build_cell (self : TableProcessor) (tag : str) (cells : list str)
  (i : nat) (a : option str) : Element :=
  let c := new tag in
  let c := set_text c (Some (plain (match nth_error cells i with
                                    | Some x => strip_sp x
                                    | None => []      (* IndexError *)
                                    end))) in
  match a with
  | Some a' =>
      if truthy a' then
        if use_align_attribute self then set c (py "align") a'
        else set c (py "style") (py "text-align: " ++ a' ++ py ";")
      else c
  | None => c
  end.

(** [for i, a in enumerate(align)] from index [i] on. *)
Fixpoint build_cells (self : TableProcessor) (tag : str) (cells : list str)
  (i : nat) (align : list (option str)) (tr : Element) : Element :=
  match align with
  | [] => tr
  | a :: al => build_cells self tag cells (S i) al (append tr (build_cell self tag cells i a))
  end.

(** [_build_row(row, parent, align)]: the parent with the new row. *)
Definition _build_row (self : TableProcessor) (row : str) (parent : Element)
  (align : list (option str)) : Element :=
  let tr := new (py "tr") in
  let tag := if str_eqb (tag_of parent) (py "thead") then py "th" else py "td" in
  let cells := _split_row self row in
  append parent (build_cells self tag cells 0 align tr).

(** [while count: etree.SubElement(tr, 'td'); count -= 1] *)
Fixpoint empty_cells (count : nat) (tr : Element) : Element :=
  match count with
  | 0 => tr
  | S k => empty_cells k (append tr (new (py "td")))
  end.

(** [_build_empty_row(parent, align)] *)
Definition _build_empty_row (parent : Element) (align : list (option str)) : Element :=
  append parent (empty_cells (length align) (new (py "tr"))).

(** [run(parent, blocks)]: the parent with the table appended, the blocks
    left, and the value returned; the method has no [return] statement, so
    that value is Python's [None]. *)
Definition run (self : TableProcessor) (parent : Element) (blocks : list str)
  : result (Element * list str * option bool) :=
  match blocks with
  | [] => Raise IndexError            (* blocks.pop(0) *)
  | b :: blocks' =>
      let block := split_on nl b in
      let header := strip_sp (nth 0 block []) in
      let rows := if length block <? 3 then [] else slice_from 2 block in
      let align := map column_align (separator self) in
      let thead := _build_row self header (new (py "thead")) align in
      let tbody := new (py "tbody") in
      let tbody :=
        if length rows =? 0 then _build_empty_row tbody align
        else fold_left (fun tb row => _build_row self (strip_sp row) tb align) rows tbody in
      let table := append (append (new (py "table")) thead) tbody in
      Ok (append parent table, blocks', None)
  end.

End Tables.

(** *** Every row has the width of the separator row *)

Module TablesFacts.
Import Etree Tables.

(** The text a row shows in column [i]: the stripped cell, or the empty
    string when the row has no such cell. *)
Definition cell_text (cells : list str) (i : nat) : str :=
  match nth_error cells i with
  | Some x => strip_sp x
  | None => []
  end.

Definition body_of (e : Element) : option str := option_map body (text_of e).

(** [tr] is a row of [n] cells tagged [tag] showing the cells of [row]. *)
Definition is_row (self : TableProcessor) (tag : str) (n : nat) (row : str)
  (tr : Element) : Prop :=
  tag_of tr = py "tr" /\
  length (children_of tr) = n /\
  Forall (fun c => tag_of c = tag /\ children_of c = []) (children_of tr) /\
  map body_of (children_of tr)
  = map Some (firstn n (map strip_sp (_split_row self row) ++ repeat [] n)).

Lemma children_append p c : children_of (append p c) = children_of p ++ [c].
Proof. destruct p; reflexivity. Qed.

Lemma tag_append p c : tag_of (append p c) = tag_of p.
Proof. destruct p; reflexivity. Qed.

Lemma build_cell_tag self tag cells i a : tag_of (build_cell self tag cells i a) = tag.
Proof.
  unfold build_cell. destruct a as [a|]; [|reflexivity].
  destruct (truthy a); [|reflexivity].
  destruct (use_align_attribute self); reflexivity.
Qed.

Lemma build_cell_children self tag cells i a :
  children_of (build_cell self tag cells i a) = [].
Proof.
  unfold build_cell. destruct a as [a|]; [|reflexivity].
  destruct (truthy a); [|reflexivity].
  destruct (use_align_attribute self); reflexivity.
Qed.

Lemma build_cell_body self tag cells i a :
  body_of (build_cell self tag cells i a) = Some (cell_text cells i).
Proof.
  unfold build_cell, cell_text. destruct a as [a|]; [|reflexivity].
  destruct (truthy a); [|reflexivity].
  destruct (use_align_attribute self); reflexivity.
Qed.

Lemma build_cells_tag self tag cells align : forall i tr,
  tag_of (build_cells self tag cells i align tr) = tag_of tr.
Proof.
  induction align as [|a al IH]; intros i tr; simpl; [reflexivity|].
  rewrite IH. apply tag_append.
Qed.

Lemma build_cells_children self tag cells align : forall i tr,
  children_of (build_cells self tag cells i align tr)
  = children_of tr
    ++ map (fun k => build_cell self tag cells (fst k) (snd k))
           (combine (seq i (length align)) align).
Proof.
  induction align as [|a al IH]; intros i tr; simpl.
  - now rewrite app_nil_r.
  - rewrite IH, children_append, <- app_assoc. reflexivity.
Qed.

Lemma firstn_pad {A} (x : A) (l : list A) n :
  firstn n (l ++ repeat x (S n)) = firstn n (l ++ repeat x n).
Proof.
  replace (repeat x (S n)) with (repeat x n ++ [x])
    by (rewrite <- repeat_cons; reflexivity).
  rewrite app_assoc, firstn_app.
  replace (n - length (l ++ repeat x n)) with 0
    by (rewrite length_app, repeat_length; lia).
  cbn [firstn]. now rewrite app_nil_r.
Qed.

(** Reading columns [0] to [n-1] of a row truncates it to [n] cells, or
    pads it with empty strings up to [n]. *)
Lemma cell_text_seq : forall n (cells : list str),
  map (cell_text cells) (seq 0 n)
  = firstn n (map strip_sp cells ++ repeat [] n).
Proof.
  induction n as [|n IH]; intros cells; [reflexivity|].
  cbn [seq map]. rewrite <- seq_shift, map_map.
  rewrite (map_ext _ (cell_text (tl cells))).
  - rewrite IH. destruct cells as [|c cells]; cbn [tl map app repeat firstn].
    + reflexivity.
    + unfold cell_text at 1. cbn [nth_error]. f_equal.
      symmetry. apply firstn_pad.
  - intros k. unfold cell_text. destruct cells as [|c cells]; cbn [tl nth_error].
    + now destruct k.
    + reflexivity.
Qed.

Lemma map_combine_seq {A B} (f : nat -> B) (align : list A) : forall i,
  map (fun k => f (fst k)) (combine (seq i (length align)) align)
  = map f (seq i (length align)).
Proof.
  induction align as [|a al IH]; intros i; cbn; [reflexivity|].
  f_equal. apply IH.
Qed.

Lemma build_cells_row self tag cells align :
  let tr := build_cells self tag cells 0 align (new (py "tr")) in
  tag_of tr = py "tr" /\
  length (children_of tr) = length align /\
  Forall (fun c => tag_of c = tag /\ children_of c = []) (children_of tr) /\
  map body_of (children_of tr)
  = map Some (firstn (length align) (map strip_sp cells ++ repeat [] (length align))).
Proof.
  cbv zeta. rewrite build_cells_tag, build_cells_children. cbn [new children_of tag_of app].
  repeat split.
  - rewrite length_map, length_combine, length_seq. lia.
  - apply Forall_forall. intros c Hc. apply in_map_iff in Hc.
    destruct Hc as [k [<- _]]. split; [apply build_cell_tag | apply build_cell_children].
  - rewrite map_map.
    rewrite (map_ext _ (fun k => Some (cell_text cells (fst k))))
      by (intros k; apply build_cell_body).
    rewrite (map_combine_seq (fun i => Some (cell_text cells i))).
    now rewrite <- cell_text_seq, map_map.
Qed.

Lemma empty_cells_eq : forall n tr,
  empty_cells n tr
  = El (tag_of tr) (attrib_of tr) (text_of tr)
       (children_of tr ++ repeat (new (py "td")) n) (tail_of tr).
Proof.
  induction n as [|n IH]; intros [t a x c tl]; cbn [empty_cells repeat].
  - cbn. now rewrite app_nil_r.
  - rewrite IH. cbn. rewrite <- app_assoc. reflexivity.
Qed.

Lemma fold_build_rows self align rows : forall tb,
  exists trs,
    fold_left (fun tb row => _build_row self (strip_sp row) tb align) rows tb
    = El (tag_of tb) (attrib_of tb) (text_of tb) (children_of tb ++ trs) (tail_of tb)
    /\ (tag_of tb <> py "thead" ->
        Forall2 (fun row tr =>
                   is_row self (py "td") (length align) (strip_sp row) tr) rows trs).
Proof.
  induction rows as [|r rows IH]; intros tb; cbn [fold_left].
  - exists []. destruct tb; cbn. rewrite app_nil_r. split; [reflexivity | constructor].
  - destruct (IH (_build_row self (strip_sp r) tb align)) as [trs [E H]].
    exists (build_cells self
              (if str_eqb (tag_of tb) (py "thead") then py "th" else py "td")
              (_split_row self (strip_sp r)) 0 align (new (py "tr")) :: trs).
    split.
    + rewrite E. unfold _build_row. destruct tb as [t a x c tl].
      cbn [append tag_of attrib_of text_of children_of tail_of].
      rewrite <- app_assoc. reflexivity.
    + intros Hne. constructor.
      * destruct (str_eqb (tag_of tb) (py "thead")) eqn:Et.
        -- exfalso. apply Hne. now apply str_eqb_eq.
        -- apply build_cells_row.
      * apply H. unfold _build_row. now rewrite tag_append.
Qed.

Lemma nth_strip_sp k (l : list str) :
  nth k (map strip_sp l) [] = strip_sp (nth k l []).
Proof. exact (map_nth strip_sp l [] k). Qed.

(** What an accepting [test] leaves in the processor: the cells of the
    separator row, as many as the header row has. *)
Lemma test_accepts self0 parent block self :
  test self0 parent block = (self, true) ->
  let lines := split_on nl block in
  1 < length lines /\
  separator self = _split_row self (strip_sp (nth 1 lines [])) /\
  length (separator self) = length (_split_row self (strip_sp (nth 0 lines []))) /\
  use_align_attribute self = use_align_attribute self0.
Proof.
  unfold test. cbv zeta.
  rewrite length_map.
  destruct (1 <? length (split_on nl block)) eqn:Hlen; [|discriminate].
  apply Nat.ltb_lt in Hlen.
  rewrite !nth_strip_sp.
  set (b := match RE_END_BORDER_search _ with Some _ => _ | None => _ end).
  set (self1 := mkTP b (separator self0) (use_align_attribute self0)).
  set (hdr := _split_row self1 _).
  set (ok := if _ && _ && _ then _ else _).
  destruct ok; [|discriminate].
  set (sep := _split_row self1 _).
  destruct (length sep =? length hdr) eqn:Hw; cbn [andb]; [|discriminate].
  destruct (separator_chars sep); [|discriminate].
  intros H. injection H as <-. cbn [separator use_align_attribute].
  apply Nat.eqb_eq in Hw. repeat split; try assumption; reflexivity.
Qed.

(** C10. Every row of the table that [TableProcessor.run] builds for an
    accepted block has exactly as many cells as the separator row has
    columns: the header row holds [th] cells and each body row [td] cells,
    a row with fewer cells is filled up with empty ones, the cells past that
    width are dropped, and a block without body lines gets one body row of
    empty [td] cells, one per column. *)
Theorem table_rows_have_separator_width self0 parent0 block self :
  test self0 parent0 block = (self, true) ->
  forall parent blocks,
  let lines := split_on nl block in
  let n := length (_split_row self (strip_sp (nth 1 lines []))) in
  exists hrow brows,
    run self parent (block :: blocks)
    = Ok (append parent
            (El (py "table") [] None
               [El (py "thead") [] None [hrow] None;
                El (py "tbody") [] None brows None] None),
          blocks, None)
    /\ is_row self (py "th") n (strip_sp (nth 0 lines [])) hrow
    /\ (length lines < 3 -> brows = [El (py "tr") [] None (repeat (new (py "td")) n) None])
    /\ (3 <= length lines ->
        Forall2 (fun line tr => is_row self (py "td") n (strip_sp line) tr)
                (skipn 2 lines) brows).
Proof.
  intros Ht parent blocks lines n.
  destruct (test_accepts _ _ _ _ Ht) as [Hlen [Hsep _]].
  fold lines in Hlen, Hsep.
  assert (Hn : length (map column_align (separator self)) = n)
    by (rewrite length_map, Hsep; reflexivity).
  unfold run. fold lines.
  set (align := map column_align (separator self)) in *.
  destruct (length lines <? 3) eqn:H3.
  - apply Nat.ltb_lt in H3. cbn [length Nat.eqb].
    eexists _, _. split; [reflexivity|]. split; [|split].
    + rewrite <- Hn. apply build_cells_row.
    + intros _. unfold _build_empty_row. rewrite empty_cells_eq, Hn. reflexivity.
    + lia.
  - apply Nat.ltb_ge in H3. unfold slice_from.
    destruct (skipn 2 lines) as [|r rows] eqn:Hs.
    + apply (f_equal (@length _)) in Hs. rewrite length_skipn in Hs. cbn in Hs. lia.
    + cbn [length Nat.eqb].
      destruct (fold_build_rows self align (r :: rows) (new (py "tbody"))) as [trs [E F]].
      rewrite E. cbn [new tag_of attrib_of text_of children_of tail_of app append].
      eexists _, trs. split; [reflexivity|]. split; [|split].
      * rewrite <- Hn. apply build_cells_row.
      * lia.
      * intros _. rewrite <- Hn. apply F. cbn. discriminate.
Qed.

(** The table of [|a|b|], [|-|:-|], [|1|2|3], [|4]. *)
Lemma table_rows_have_separator_width_witness :
  exists hrow brows,
    run (fst (test (init false) (new (py "div")) (py "|a|b|
|-|:-|
|1|2|3
|4"))) (new (py "div")) [py "|a|b|
|-|:-|
|1|2|3
|4"]
    = Ok (append (new (py "div"))
            (El (py "table") [] None
               [El (py "thead") [] None [hrow] None;
                El (py "tbody") [] None brows None] None),
          [], None)
    /\ length (children_of hrow) = 2
    /\ map (fun tr => map body_of (children_of tr)) brows
       = [[Some (py "1"); Some (py "2")]; [Some (py "4"); Some []]].
Proof.
  destruct (table_rows_have_separator_width (init false) (new (py "div"))
              (py "|a|b|
|-|:-|
|1|2|3
|4") _ eq_refl (new (py "div")) []) as [hrow [brows [E [Hh [_ Hb]]]]].
  exists hrow, brows. split; [exact E|]. split.
  - apply Hh.
  - specialize (Hb ltac:(vm_compute; lia)).
    change (skipn 2 _) with [py "|1|2|3"; py "|4"] in Hb.
    inversion Hb as [|? ? ? ? [_ [_ [_ H1]]] Hb']; subst.
    inversion Hb' as [|? ? ? ? [_ [_ [_ H2]]] Hb'']; subst.
    inversion Hb''; subst.
    cbn [map]. rewrite H1, H2. reflexivity.
Defined.

End TablesFacts.

(** ** Python dictionaries with string keys, in insertion order *)

Module Dict.

Definition dict (V : Type) := list (str * V).

Fixpoint get {V} (k : str) (d : dict V) : option V :=
  match d with
  | [] => None
  | (k', v) :: d' => if str_eqb k k' then Some v else get k d'
  end.

(** [k in d] *)
Definition mem {V} (k : str) (d : dict V) : bool :=
  match get k d with Some _ => true | None => false end.

(** [d[k] = v] *)
Fixpoint set {V} (k : str) (v : V) (d : dict V) : dict V :=
  match d with
  | [] => [(k, v)]
  | (k', v') :: d' => if str_eqb k k' then (k, v) :: d' else (k', v') :: set k v d'
  end.

(** [del d[k]] *)
Definition remove {V} (k : str) (d : dict V) : dict V :=
  filter (fun e => negb (str_eqb (fst e) k)) d.

End Dict.

(** ** markdown/extensions/abbr.py: [AbbrBlockprocessor] *)

Module Abbr.
Import Etree.

(** A match of [AbbrBlockprocessor.RE]. *)
Record re_match := mkMatch {
  m_start : nat;
  m_end : nat;
  m_abbr : str;
  m_title : str
}.

Fixpoint count_blanks (s : str) : nat :=
  match s with
  | c :: s' => if is_blank c then S (count_blanks s') else 0
  | [] => 0
  end.

(** The end of the pattern, after the colon, at the start of [s]: blanks,
    an optional newline, blanks, then the [title] group, which runs to the
    end of the line.  The result is the title and the number of characters
    matched.  Every quantifier is greedy and what follows it always
    matches, so nothing is given back. *)
Definition after_colon (s : str) : str * nat :=
  let n1 := count_blanks s in
  let s1 := skipn n1 s in
  let n2 := match s1 with c :: _ => if is_nl c then 1 else 0 | [] => 0 end in
  let s2 := skipn n2 s1 in
  let n3 := count_blanks s2 in
  let title := line_prefix (skipn n3 s2) in
  (title, n1 + n2 + n3 + length title).

(** [[ ]?:] followed by [after_colon], at the start of [s]. *)
Definition after_bracket (s : str) : option (str * nat) :=
  match s with
  | c :: s' =>
      if Ascii.eqb c ":" then
        let '(t, n) := after_colon s' in Some (t, 1 + n)
      else if is_blank c then
        match s' with
        | d :: s'' =>
            if Ascii.eqb d ":" then let '(t, n) := after_colon s'' in Some (t, 2 + n)
            else None
        | [] => None
        end
      else None
  | [] => None
  end.

(** The [abbr] group, any characters but backslashes taken lazily, the
    closing bracket and the rest of the pattern: the lazy group takes as
    few characters as leave a match; [acc] holds, reversed, the characters
    taken so far. *)
Fixpoint lazy_abbr (acc : str) (s : str) : option (str * str * nat) :=
  match s with
  | [] => None
  | c :: s' =>
      let here :=
        if Ascii.eqb c "]" then
          match after_bracket s' with
          | Some (t, n) => Some (rev acc, t, length acc + 1 + n)
          | None => None
          end
        else None in
      match here with
      | Some r => Some r
      | None => if Ascii.eqb c backslash then None else lazy_abbr (c :: acc) s'
      end
  end.

(** The whole pattern at a line start at position [pos]. *)
Definition match_here (pos : nat) (s : str) : option re_match :=
  match s with
  | a :: b :: s' =>
      if Ascii.eqb a "*" && Ascii.eqb b "[" then
        match lazy_abbr [] s' with
        | Some (ab, t, n) => Some (mkMatch pos (pos + 2 + n) ab t)
        | None => None
        end
      else None
  | _ => None
  end.

(** [RE.search(block)], [RE] compiled with [re.MULTILINE]: the leftmost
    match; [bol] tells whether [^] matches at this position. *)
Fixpoint search_from (bol : bool) (pos : nat) (s : str) : option re_match :=
  match (if bol then match_here pos s else None) with
  | Some m => Some m
  | None =>
      match s with
      | [] => None
      | c :: s' => search_from (is_nl c) (S pos) s'
      end
  end.

Definition RE_search (block : str) : option re_match := search_from true 0 block.

(** The attributes of an [AbbrBlockprocessor]; [abbrs] is the dictionary
    shared with the extension and the tree processor. *)
Record AbbrBlockprocessor := mkABP {
  abbrs : Dict.dict str;
  use_last_abbr : bool
}.

(** [test(parent, block)] *)
Definition test (self : AbbrBlockprocessor) (parent : Element) (block : str) : bool := true.

(** [blocks.insert(0, x)] *)
Definition insert0 {A} (x : A) (l : list A) : list A := x :: l.

(** [run(parent, blocks)]: the processor, the blocks and the value returned. *)
Definition run (self : AbbrBlockprocessor) (parent : Element) (blocks : list str)
  : result (AbbrBlockprocessor * list str * option bool) :=
  match blocks with
  | [] => Raise IndexError            (* blocks.pop(0) *)
  | block :: blocks =>
      match RE_search block with
      | Some m =>
          let abbr := strip (m_abbr m) in
          let title := strip (m_title m) in
          let self :=
            if use_last_abbr self || negb (Dict.mem abbr (abbrs self))
            then mkABP (Dict.set abbr title (abbrs self)) (use_last_abbr self)
            else self in
          let blocks :=
            if truthy (strip (slice_from (m_end m) block))
            then insert0 (lstrip_by is_nl (slice_from (m_end m) block)) blocks
            else blocks in
          let blocks :=
            if truthy (strip (slice 0 (m_start m) block))
            then insert0 (rstrip_by is_nl (slice 0 (m_start m) block)) blocks
            else blocks in
          Ok (self, blocks, Some true)
      | None =>
          (* No match. Restore block. *)
          Ok (self, insert0 block blocks, Some false)
      end
  end.

End Abbr.

(** *** What [run] returns and what it leaves in the queue *)

Module BlockRun.
Import Etree Abbr.

(** The contract in its strict form: [run] returns a boolean, [True] with
    the head popped and residual blocks pushed in front of the rest,
    [False] with the queue as it was. *)
Definition returns_boolean {S : Type} (blocks : list str)
  (r : result (S * list str * option bool)) : Prop :=
  exists st blocks' b,
    r = Ok (st, blocks', Some b) /\
    ((b = true /\ exists residuals, blocks' = residuals ++ tl blocks) \/
     (b = false /\ blocks' = blocks)).

Definition table_block : str := py "|a|b|
|-|-|
|1|2|".

(** [TableProcessor.run] on an accepted block: the head is consumed and
    the value returned is [None], not a boolean. *)
Lemma table_run_returns_none :
  snd (Tables.test (Tables.init false) (new (py "div")) table_block) = true /\
  (exists parent',
     Tables.run (fst (Tables.test (Tables.init false) (new (py "div")) table_block))
       (new (py "div")) [table_block]
     = Ok (parent', [], None)) /\
  ~ returns_boolean [table_block]
      (Tables.run (fst (Tables.test (Tables.init false) (new (py "div")) table_block))
         (new (py "div")) [table_block]).
Proof.
  split; [reflexivity|]. split.
  - eexists. reflexivity.
  - intros [st [blocks' [b [E _]]]]. vm_compute in E. discriminate E.
Qed.

Lemma truthy_cases {A} (c : bool) (x : A) (l : list A) :
  exists pre, length pre <= 1 /\ (if c then Abbr.insert0 x l else l) = pre ++ l.
Proof.
  destruct c; [exists [x] | exists []]; split; cbn; auto.
Qed.

(** C4, as the code has it.  [AbbrBlockprocessor.run] on a non-empty queue
    returns a boolean: [True] when the head matched, the head then being
    replaced by at most two residual blocks, and [False] when it did not,
    the queue and the abbreviations then being as before the call.
    [TableProcessor.run] always consumes the head, pushes nothing back and
    returns [None]. *)
Theorem run_consumes_or_restores :
  (forall self parent block blocks,
     exists self' blocks' b,
       Abbr.run self parent (block :: blocks) = Ok (self', blocks', Some b) /\
       ((b = true /\ exists residuals,
           length residuals <= 2 /\ blocks' = residuals ++ blocks) \/
        (b = false /\ blocks' = block :: blocks /\ self' = self))) /\
  (forall self parent block blocks,
     exists parent',
       Tables.run self parent (block :: blocks) = Ok (parent', blocks, None)).
Proof.
  split.
  - intros self parent block blocks. unfold Abbr.run.
    destruct (RE_search block) as [m|].
    + eexists _, _, true. split; [reflexivity|]. left. split; [reflexivity|].
      destruct (truthy_cases (truthy (strip (slice_from (m_end m) block)))
                  (lstrip_by is_nl (slice_from (m_end m) block)) blocks)
        as [pre1 [L1 E1]].
      rewrite E1.
      destruct (truthy_cases (truthy (strip (slice 0 (m_start m) block)))
                  (rstrip_by is_nl (slice 0 (m_start m) block)) (pre1 ++ blocks))
        as [pre2 [L2 E2]].
      rewrite E2. exists (pre2 ++ pre1). split.
      * rewrite length_app. lia.
      * now rewrite app_assoc.
    + eexists _, _, false. split; [reflexivity|]. right. auto.
  - intros self parent block blocks. eexists. reflexivity.
Qed.

End BlockRun.

(** ** markdown/htmlparser.py: [HTMLExtractor] *)

Module HtmlStash.

(** Modelled from the spec: [markdown.util.HtmlStash] is not among the
    sources.  The stash is an ordered collection of raw fragments with a
    counter; [store] appends the fragment and returns the placeholder of
    its index: a sentinel character outside the printable range, the text
    [wzxhzdk:], the decimal index, and the same sentinel. *)
Record t := mk { rawHtmlBlocks : list str; html_counter : nat }.

Definition empty : t := mk [] 0.

Definition sentinel : ascii := "002"%char.

Definition decimal (n : nat) : str :=
  py (DecimalString.NilZero.string_of_uint (Nat.to_uint n)).

Definition get_placeholder (i : nat) : str :=
  sentinel :: py "wzxhzdk:" ++ decimal i ++ [sentinel].

Definition store (st : t) (html : str) : t * str :=
  (mk (rawHtmlBlocks st ++ [html]) (S (html_counter st)),
   get_placeholder (html_counter st)).

End HtmlStash.

Module HtmlParser.

(** [blank_line_re = ^([ ]*\n){2}], matched at the start of [s]. *)
Definition blank_line_once (s : str) : option str :=
  match lstrip_by is_blank s with
  | c :: s' => if is_nl c then Some s' else None
  | [] => None
  end.

Definition blank_line_re_match (s : str) : bool :=
  match blank_line_once s with
  | Some s' => match blank_line_once s' with Some _ => true | None => false end
  | None => false
  end.

(** [s.find(c)] and [s.rfind(c)]; [None] is Python's [-1]. *)
Fixpoint find_char (c : ascii) (s : str) : option nat :=
  match s with
  | [] => None
  | x :: s' => if Ascii.eqb x c then Some 0 else option_map S (find_char c s')
  end.

Fixpoint rfind_char (c : ascii) (s : str) : option nat :=
  match s with
  | [] => None
  | x :: s' =>
      match rfind_char c s' with
      | Some k => Some (S k)
      | None => if Ascii.eqb x c then Some 0 else None
      end
  end.

(** [s.count("\n")] *)
Definition count_nl (s : str) : nat := length (filter is_nl s).

(** The end of a match of [([^\n]*\n){k}] at the start of [s]: the index
    just after the [k]-th newline. *)
Fixpoint lines_end (k : nat) (s : str) : option nat :=
  match k with
  | 0 => Some 0
  | S k' =>
      match find_char nl s with
      | Some p => option_map (fun e => S p + e) (lines_end k' (skipn (S p) s))
      | None => None
      end
  end.

(** [HTMLParser.CDATA_CONTENT_ELEMENTS] *)
Definition CDATA_CONTENT_ELEMENTS : list str := [py "script"; py "style"].

(** The parser object: the attributes of [_markupbase.ParserBase] and
    [HTMLParser] that the extractor reads or writes, [pos] for the index
    [i] that [goahead] keeps, and the attributes of [HTMLExtractor]. *)
Record HTMLExtractor := mkHE {
  rawdata : str;
  lineno : nat;
  offset : nat;
  pos : nat;
  cdata_elem : option str;
  starttag_text : str;
  empty_tags : list str;
  inraw : bool;
  intail : bool;
  stack : list str;
  _cache : list str;
  cleandoc : list str;
  htmlStash : HtmlStash.t
}.

Definition set_pos (s : HTMLExtractor) (l o p : nat) : HTMLExtractor :=
  mkHE (rawdata s) l o p (cdata_elem s) (starttag_text s) (empty_tags s)
       (inraw s) (intail s) (stack s) (_cache s) (cleandoc s) (htmlStash s).

Definition set_cdata (s : HTMLExtractor) (c : option str) : HTMLExtractor :=
  mkHE (rawdata s) (lineno s) (offset s) (pos s) c (starttag_text s) (empty_tags s)
       (inraw s) (intail s) (stack s) (_cache s) (cleandoc s) (htmlStash s).

Definition set_starttag_text (s : HTMLExtractor) (t : str) : HTMLExtractor :=
  mkHE (rawdata s) (lineno s) (offset s) (pos s) (cdata_elem s) t (empty_tags s)
       (inraw s) (intail s) (stack s) (_cache s) (cleandoc s) (htmlStash s).

Definition set_inraw (s : HTMLExtractor) (b : bool) : HTMLExtractor :=
  mkHE (rawdata s) (lineno s) (offset s) (pos s) (cdata_elem s) (starttag_text s)
       (empty_tags s) b (intail s) (stack s) (_cache s) (cleandoc s) (htmlStash s).

Definition set_intail (s : HTMLExtractor) (b : bool) : HTMLExtractor :=
  mkHE (rawdata s) (lineno s) (offset s) (pos s) (cdata_elem s) (starttag_text s)
       (empty_tags s) (inraw s) b (stack s) (_cache s) (cleandoc s) (htmlStash s).

Definition set_stack (s : HTMLExtractor) (l : list str) : HTMLExtractor :=
  mkHE (rawdata s) (lineno s) (offset s) (pos s) (cdata_elem s) (starttag_text s)
       (empty_tags s) (inraw s) (intail s) l (_cache s) (cleandoc s) (htmlStash s).

Definition set_cache (s : HTMLExtractor) (l : list str) : HTMLExtractor :=
  mkHE (rawdata s) (lineno s) (offset s) (pos s) (cdata_elem s) (starttag_text s)
       (empty_tags s) (inraw s) (intail s) (stack s) l (cleandoc s) (htmlStash s).

Definition set_cleandoc (s : HTMLExtractor) (l : list str) : HTMLExtractor :=
  mkHE (rawdata s) (lineno s) (offset s) (pos s) (cdata_elem s) (starttag_text s)
       (empty_tags s) (inraw s) (intail s) (stack s) (_cache s) l (htmlStash s).

Definition set_stash (s : HTMLExtractor) (h : HtmlStash.t) : HTMLExtractor :=
  mkHE (rawdata s) (lineno s) (offset s) (pos s) (cdata_elem s) (starttag_text s)
       (empty_tags s) (inraw s) (intail s) (stack s) (_cache s) (cleandoc s) h.

(** [self._cache.append(x)], [self.cleandoc.append(x)] *)
Definition cache_append (s : HTMLExtractor) (x : str) := set_cache s (_cache s ++ [x]).
Definition cleandoc_append (s : HTMLExtractor) (x : str) := set_cleandoc s (cleandoc s ++ [x]).

(** [self.cleandoc.append(self.md.htmlStash.store(html))] *)
Definition cleandoc_append_stored (s : HTMLExtractor) (html : str) : HTMLExtractor :=
  let '(h, placeholder) := HtmlStash.store (htmlStash s) html in
  cleandoc_append (set_stash s h) placeholder.

(** [__init__] with [reset], for the stash of the [Markdown] instance, and
    [feed(data)] up to the call of [goahead]. *)
Definition init (md_htmlStash : HtmlStash.t) (data : str) : HTMLExtractor :=
  mkHE data 1 0 0 None [] [py "hr"] false false [] [] [] md_htmlStash.

(** [ParserBase.updatepos(i, j)] with [i = pos]. *)
Definition updatepos (s : HTMLExtractor) (j : nat) : HTMLExtractor :=
  let i := pos s in
  if j <=? i then set_pos s (lineno s) (offset s) j
  else
    let chunk := slice i j (rawdata s) in
    let nlines := count_nl chunk in
    if negb (nlines =? 0) then
      match rfind_char nl chunk with
      | Some k => set_pos s (lineno s + nlines) (j - (i + k + 1)) j
      | None => set_pos s (lineno s + nlines) (offset s) j    (* does not happen *)
      end
    else set_pos s (lineno s) (offset s + j - i) j.

(** The property [line_offset]. *)
Definition line_offset (s : HTMLExtractor) : nat :=
  if (1 <? lineno s) && mem_char nl (rawdata s) then
    match lines_end (lineno s - 1) (rawdata s) with
    | Some e => e
    | None => match rfind_char nl (rawdata s) with Some k => k | None => 0 end
    end
  else 0.

(** [at_line_start()] *)
Definition at_line_start (s : HTMLExtractor) : bool :=
  if offset s =? 0 then true
  else if 3 <? offset s then false
  else match strip (slice (line_offset s) (line_offset s + offset s) (rawdata s)) with
       | [] => true
       | _ => false
       end.

(** [get_endtag_text(tag)]; [endendtag] is the one character [>]. *)
Definition get_endtag_text (s : HTMLExtractor) (tag : str) : str :=
  let start := line_offset s + offset s in
  match find_char ">" (skipn start (rawdata s)) with
  | Some k => slice start (start + k + 1) (rawdata s)
  | None => py "</" ++ tag ++ py ">"
  end.

Definition get_starttag_text (s : HTMLExtractor) : str := starttag_text s.

Definition clear_cdata_mode (s : HTMLExtractor) : HTMLExtractor := set_cdata s None.
Definition set_cdata_mode (s : HTMLExtractor) (elem : str) : HTMLExtractor :=
  set_cdata s (Some elem).

Section Handlers.

(** [self.md.is_block_level], the static classification of the core. *)
Variable is_block_level : str -> bool.

(** [handle_empty_tag(data, is_block)] *)
Definition handle_empty_tag (s : HTMLExtractor) (data : str) (is_block : bool)
  : HTMLExtractor :=
  if inraw s || intail s then
    cache_append s data
  else if at_line_start s && is_block then
    let rest := skipn (line_offset s + offset s + length data) (rawdata s) in
    let '(data, s) :=
      if blank_line_re_match rest then (data ++ [nl], s)
      else (data, set_intail s true) in
    let item := last (cleandoc s) [] in
    let s := if negb (endswith (py "

") item) && endswith [nl] item
             then cleandoc_append s [nl] else s in
    let s := cleandoc_append_stored s data in
    cleandoc_append s (py "

")
  else cleandoc_append s data.

(** [handle_startendtag(tag, attrs)] *)
Definition handle_startendtag (s : HTMLExtractor) (tag : str) : HTMLExtractor :=
  handle_empty_tag s (get_starttag_text s) (is_block_level tag).

(** [handle_starttag(tag, attrs)] *)
Definition handle_starttag (s : HTMLExtractor) (tag : str) : HTMLExtractor :=
  if mem_str tag (empty_tags s) then handle_startendtag s tag
  else
    let s :=
      if is_block_level tag && (intail s || (at_line_start s && negb (inraw s)))
      then cleandoc_append (set_inraw s true) [nl]
      else s in
    let text := get_starttag_text s in
    if inraw s then cache_append (set_stack s (stack s ++ [tag])) text
    else
      let s := cleandoc_append s text in
      if mem_str tag CDATA_CONTENT_ELEMENTS then clear_cdata_mode s else s.

(** [while self.stack: if self.stack.pop() == tag: break] *)
Fixpoint pop_until (tag : str) (rstack : list str) : list str :=
  match rstack with
  | [] => []
  | t :: r => if str_eqb t tag then r else pop_until tag r
  end.

Definition pop_tag (tag : str) (stack : list str) : list str :=
  if mem_str tag stack then rev (pop_until tag (rev stack)) else stack.

(** [handle_endtag(tag)] *)
Definition handle_endtag (s : HTMLExtractor) (tag : str) : HTMLExtractor :=
  let text := get_endtag_text s tag in
  if inraw s then
    let s := cache_append s text in
    let s := set_stack s (pop_tag tag (stack s)) in
    if length (stack s) =? 0 then
      let rest := skipn (line_offset s + offset s + length text) (rawdata s) in
      let s := if blank_line_re_match rest then cache_append s [nl]
               else set_intail s true in
      let s := set_inraw s false in
      let s := cleandoc_append_stored s (join (_cache s)) in
      let s := cleandoc_append s (py "

") in
      set_cache s []
    else s
  else cleandoc_append s text.

(** [handle_data(data)] *)
Definition handle_data (s : HTMLExtractor) (data : str) : HTMLExtractor :=
  let s := if intail s && mem_char nl data then set_intail s false else s in
  if inraw s then cache_append s data else cleandoc_append s data.

Definition handle_charref (s : HTMLExtractor) (name : str) :=
  handle_empty_tag s (py "&#" ++ name ++ py ";") false.

Definition handle_entityref (s : HTMLExtractor) (name : str) :=
  handle_empty_tag s (py "&" ++ name ++ py ";") false.

Definition handle_comment (s : HTMLExtractor) (data : str) :=
  handle_empty_tag s (py "<!--" ++ data ++ py "-->") true.

Definition handle_decl (s : HTMLExtractor) (data : str) :=
  handle_empty_tag s (py "<!" ++ data ++ py ">") true.

Definition handle_pi (s : HTMLExtractor) (data : str) :=
  handle_empty_tag s (py "<?" ++ data ++ py "?>") true.

Definition unknown_decl (s : HTMLExtractor) (data : str) :=
  let e := if startswith (py "CDATA[") data then py "]]>" else py "]>" in
  handle_empty_tag s (py "<![" ++ data ++ e) true.

(** The tokens that [HTMLParser.goahead] cuts the document into, each
    with the source text it spans.  [goahead] belongs to Python's standard
    library; the tokens carry what it passes to the handlers. *)
Inductive tag_end :=
| EndGt          (* the start tag ends in [>] *)
| EndSlashGt     (* it ends in [/>] *)
| EndOther.      (* junk before the closing bracket *)

Inductive token :=
| TStartTag (tag : str) (e : tag_end) (text : str)
| TEndTag (tag : str) (text : str)
| TData (text : str)
| TCharRef (name : str) (text : str)
| TEntityRef (name : str) (text : str)
| TComment (data : str) (text : str)
| TDecl (data : str) (text : str)
| TPi (data : str) (text : str)
| TUnknownDecl (data : str) (text : str).

Definition token_text (t : token) : str :=
  match t with
  | TStartTag _ _ x | TEndTag _ x | TData x | TCharRef _ x | TEntityRef _ x
  | TComment _ x | TDecl _ x | TPi _ x | TUnknownDecl _ x => x
  end.

(** [parse_starttag(i)] once the standard library's regular expressions
    have found the end of the tag, its lower-cased name and what is left
    before the closing bracket. *)
Definition parse_starttag (s : HTMLExtractor) (tag : str) (e : tag_end) (text : str)
  : HTMLExtractor :=
  let s := set_starttag_text s text in
  match e with
  | EndOther => handle_data s text
  | EndSlashGt => handle_startendtag s tag
  | EndGt =>
      let s := if mem_str tag CDATA_CONTENT_ELEMENTS then set_cdata_mode s tag else s in
      handle_starttag s tag
  end.

(** One turn of the loop of [goahead]: the handler of the token, then
    [updatepos] to the end of the token. *)
Definition dispatch (s : HTMLExtractor) (t : token) : HTMLExtractor :=
  match t with
  | TStartTag tag e text => parse_starttag s tag e text
  | TEndTag tag _ => clear_cdata_mode (handle_endtag s tag)
  | TData text => handle_data s text
  | TCharRef name _ => handle_charref s name
  | TEntityRef name _ => handle_entityref s name
  | TComment data _ => handle_comment s data
  | TDecl data _ => handle_decl s data
  | TPi data _ => handle_pi s data
  | TUnknownDecl data _ => unknown_decl s data
  end.

Definition step (s : HTMLExtractor) (t : token) : HTMLExtractor :=
  updatepos (dispatch s t) (pos s + length (token_text t)).

Definition source (tokens : list token) : str := join (map token_text tokens).

(** [feed(source)] *)
Definition feed (stash : HtmlStash.t) (tokens : list token) : HTMLExtractor :=
  fold_left step tokens (init stash (source tokens)).

(** [close()]: the data [goahead] left unread, then the unclosed tags. *)
Definition close (s : HTMLExtractor) : HTMLExtractor :=
  let rest := skipn (pos s) (rawdata s) in
  let s := if negb (length rest =? 0) then handle_data s rest else s in
  if negb (length (_cache s) =? 0) then
    set_cache (cleandoc_append_stored s (join (_cache s))) []
  else s.

(** *** Well-formed raw blocks

    A document as a tree: text, elements with matched start and end tags,
    start tags of void elements, self-closed tags, comments and character
    references.  [name] is the tag as written; the parser hands its
    lower-cased form to the handlers. *)
Inductive html :=
| Text (s : str)
| Elem (name attrs : str) (kids : list html)
| Void (name attrs : str)
| SelfClosed (name attrs : str)
| Comment (data : str)
| EntityRef (name : str)
| CharRef (name : str).

(** [str.lower] on the code points below 256: the letters [A] to [Z] and
    the accented capitals 192 to 222, the multiplication sign 215 apart. *)
Definition lower_char (c : ascii) : ascii :=
  let n := nat_of_ascii c in
  if ((65 <=? n) && (n <=? 90)) || ((192 <=? n) && (n <=? 222) && negb (n =? 215))
  then ascii_of_nat (n + 32) else c.

Definition lower (s : str) : str := map lower_char s.

Definition open_tag (name attrs : str) : str := py "<" ++ name ++ attrs ++ py ">".
Definition close_tag (name : str) : str := py "</" ++ name ++ py ">".
Definition selfclosed_tag (name attrs : str) : str := py "<" ++ name ++ attrs ++ py "/>".


(** The tokens the parser cuts the source of a tree into. *)
Fixpoint tokens (h : html) : list token :=
  match h with
  | Text s => [TData s]
  | Elem name attrs kids =>
      TStartTag (lower name) EndGt (open_tag name attrs)
      :: flat_map tokens kids ++ [TEndTag (lower name) (close_tag name)]
  | Void name attrs => [TStartTag (lower name) EndGt (open_tag name attrs)]
  | SelfClosed name attrs =>
      [TStartTag (lower name) EndSlashGt (selfclosed_tag name attrs)]
  | Comment data => [TComment data (py "<!--" ++ data ++ py "-->")]
  | EntityRef name => [TEntityRef name (py "&" ++ name ++ py ";")]
  | CharRef name => [TCharRef name (py "&#" ++ name ++ py ";")]
  end.

(** The elements that have no end tag, [br], [img] and the like. *)
Variable is_void : str -> bool.



(** [s.replace(old, new)] for a non-empty [old]; [skip] characters of the
    occurrence found last are still to be passed. *)
Fixpoint replace_from (old new : str) (skip : nat) (s : str) : str :=
  match s with
  | [] => []
  | c :: s' =>
      match skip with
      | S k => replace_from old new k s'
      | 0 =>
          if startswith old s then new ++ replace_from old new (length old - 1) s'
          else c :: replace_from old new 0 s'
      end
  end.

Definition replace (old new s : str) : str := replace_from old new 0 s.




End Handlers.

End HtmlParser.

(** *** Positions: [line_offset + offset] is the index of the current token *)

Module HtmlParserFacts.
Import HtmlParser.

(** The index at which the last line of [pre] starts. *)
Definition line_start (pre : str) : nat :=
  match rfind_char nl pre with
  | Some k => S k
  | None => 0
  end.

(** The position attributes agree with the part of the document read. *)
Definition pos_ok (s : HTMLExtractor) : Prop :=
  pos s <= length (rawdata s) /\
  lineno s = S (count_nl (firstn (pos s) (rawdata s))) /\
  line_start (firstn (pos s) (rawdata s)) + offset s = pos s.

Lemma count_nl_app a b : count_nl (a ++ b) = count_nl a + count_nl b.
Proof. unfold count_nl. now rewrite filter_app, length_app. Qed.

Lemma rfind_none_count (s : str) : rfind_char nl s = None <-> count_nl s = 0.
Proof.
  induction s as [|x s IH]; cbn; [tauto|].
  unfold count_nl in *. cbn. unfold is_nl at 1.
  destruct (rfind_char nl s) as [k|].
  - split; [discriminate|]. intros H.
    destruct (Ascii.eqb x nl); cbn in H; [discriminate|].
    apply IH in H. discriminate.
  - destruct (Ascii.eqb x nl); cbn; split; try discriminate; try tauto.
Qed.


Lemma rfind_app_none a b :
  rfind_char nl b = None -> rfind_char nl (a ++ b) = rfind_char nl a.
Proof.
  intros H. induction a as [|x a IH]; cbn; [exact H|]. now rewrite IH.
Qed.

Lemma rfind_app_some a b k :
  rfind_char nl b = Some k -> rfind_char nl (a ++ b) = Some (length a + k).
Proof.
  intros H. induction a as [|x a IH]; cbn; [exact H|]. now rewrite IH.
Qed.





Lemma pos_ok_init stash data : pos_ok (init stash data).
Proof. unfold pos_ok, init; cbn. repeat split; lia. Qed.

Lemma firstn_add {A} (l : list A) i n :
  firstn (i + n) l = firstn i l ++ firstn n (skipn i l).
Proof.
  revert l; induction i as [|i IH]; intros l; [reflexivity|].
  destruct l as [|x l]; cbn; [now rewrite firstn_nil | now rewrite IH].
Qed.

(** [updatepos] keeps the position attributes consistent. *)
Lemma pos_ok_updatepos s n :
  pos_ok s -> pos s + n <= length (rawdata s) -> pos_ok (updatepos s (pos s + n)).
Proof.
  intros [Hle [Hl Ho]] Hn. unfold updatepos.
  destruct (pos s + n <=? pos s) eqn:E.
  - apply Nat.leb_le in E. assert (n = 0) by lia. subst n.
    unfold pos_ok, set_pos; cbn [pos rawdata lineno offset]. rewrite Nat.add_0_r. auto.
  - unfold slice. replace (pos s + n - pos s) with n by lia.
    set (pre := firstn (pos s) (rawdata s)) in *.
    set (chunk := firstn n (skipn (pos s) (rawdata s))).
    assert (Hpre : firstn (pos s + n) (rawdata s) = pre ++ chunk) by apply firstn_add.
    assert (Hlen : length pre = pos s) by (unfold pre; rewrite length_firstn; lia).
    destruct (count_nl chunk =? 0) eqn:Hc; cbn [negb].
    + apply Nat.eqb_eq in Hc.
      unfold pos_ok, set_pos; cbn [pos rawdata lineno offset]. rewrite Hpre, count_nl_app. repeat split; try lia.
      unfold line_start in *. rewrite rfind_app_none by now apply rfind_none_count.
      lia.
    + apply Nat.eqb_neq in Hc.
      destruct (rfind_char nl chunk) as [k|] eqn:Hr.
      * unfold pos_ok, set_pos; cbn [pos rawdata lineno offset]. rewrite Hpre, count_nl_app. repeat split; try lia.
        unfold line_start. rewrite (rfind_app_some _ _ _ Hr), Hlen.
        assert (k < length chunk).
        { clear -Hr. revert k Hr. induction chunk as [|x c IH]; cbn; [discriminate|].
          intros k. destruct (rfind_char nl c) as [j|].
          - intros H; injection H as <-. specialize (IH j eq_refl). lia.
          - destruct (Ascii.eqb x nl); [|discriminate]. intros H; injection H as <-. lia. }
        assert (length chunk <= n) by (unfold chunk; rewrite length_firstn; lia).
        lia.
      * exfalso. apply rfind_none_count in Hr. lia.
Qed.






(** Modelled from the spec: the core's static classification of tags, for
    the tags the spec names as block-level. *)
Definition block_level_sample (tag : str) : bool :=
  mem_str tag [py "p"; py "div"; py "blockquote"; py "table"].

(** *** When a start tag begins a raw region *)





(** *** Tail mode *)




Lemma join_app (a b : list str) : join (a ++ b) = join a ++ join b.
Proof. apply concat_app. Qed.






(** *** Round trip of a raw block *)

Section RoundTrip.

Variable blk : str -> bool.
Variable is_void : str -> bool.


Lemma source_app a b : source (a ++ b) = source a ++ source b.
Proof. unfold source. now rewrite map_app, join_app. Qed.




Lemma updatepos_fields s j :
  let s' := updatepos s j in
  rawdata s' = rawdata s /\ pos s' = j /\ empty_tags s' = empty_tags s /\
  inraw s' = inraw s /\ intail s' = intail s /\ stack s' = stack s /\
  _cache s' = _cache s /\ cleandoc s' = cleandoc s /\ htmlStash s' = htmlStash s.
Proof.
  unfold updatepos.
  destruct (j <=? pos s); [cbn; tauto|].
  destruct (negb _); [|cbn; tauto].
  destruct (rfind_char _ _); cbn; tauto.
Qed.










Lemma mem_str_app x a b : mem_str x (a ++ b) = mem_str x a || mem_str x b.
Proof. apply existsb_app. Qed.




(** Text and empty tags inside a raw region go to the cache. *)
Lemma handle_data_inside s x :
  inraw s = true -> intail s = false -> handle_data s x = cache_append s x.
Proof. intros Hr Ht. unfold handle_data. rewrite Ht. cbn. now rewrite Hr. Qed.












End RoundTrip.




End HtmlParserFacts.

(** ** The patched regular expressions of the tokenizer

    [htmlparser.py] replaces three regular expressions of [html.parser]:
    [piclose], [entityref] and [incomplete].  [parse_pi] and the branch of
    [goahead] for an ampersand, which use them, are the standard
    library's. *)

Module Tokenizer.

(** [s.find(pat)]: the index of the first occurrence. *)
Fixpoint find_sub (pat s : str) : option nat :=
  if startswith pat s then Some 0
  else match s with
       | [] => None
       | _ :: s' => option_map S (find_sub pat s')
       end.

(** [piclose = re.compile(r'\?>')]; [piclose.search(rawdata, start)] gives
    the start of the match, its end is two characters on. *)
Definition piclose_search (rawdata : str) (start : nat) : option nat :=
  option_map (Nat.add start) (find_sub (py "?>") (skipn start rawdata)).

Definition is_alpha (c : ascii) : bool :=
  let n := nat_of_ascii c in
  ((65 <=? n) && (n <=? 90)) || ((97 <=? n) && (n <=? 122)).

Definition is_digit (c : ascii) : bool :=
  let n := nat_of_ascii c in (48 <=? n) && (n <=? 57).

(** The class [[-.a-zA-Z0-9]]. *)
Definition is_name_char (c : ascii) : bool :=
  is_alpha c || is_digit c || Ascii.eqb c "-" || Ascii.eqb c ".".

Fixpoint take_while (p : ascii -> bool) (s : str) : str :=
  match s with
  | c :: s' => if p c then c :: take_while p s' else []
  | [] => []
  end.

(** [entityref], as patched, matched at the start of [s]: an ampersand, a
    group of a letter and any number of characters of [[-.a-zA-Z0-9]], and
    a semicolon.  The result is the group and the length of the match.
    The starred class is greedy and does not hold the semicolon, so giving
    characters back never helps. *)
Definition entityref_match (s : str) : option (str * nat) :=
  match s with
  | a :: c :: r =>
      if Ascii.eqb a "&" && is_alpha c then
        let name := c :: take_while is_name_char r in
        match skipn (length name) (c :: r) with
        | e :: _ => if Ascii.eqb e ";" then Some (name, length name + 2) else None
        | [] => None
        end
      else None
  | _ => None
  end.

(** [htmlparser.incomplete = htmlparser.entityref] *)
Definition incomplete_match : str -> option (str * nat) := entityref_match.

(** [HTMLParser.parse_pi(i)]: the data handed to [handle_pi] and the index
    after the instruction; [None] is the [-1] of an unterminated one. *)
Definition parse_pi (rawdata : str) (i : nat) : option (str * nat) :=
  match piclose_search rawdata (i + 2) with
  | None => None
  | Some j => Some (slice (i + 2) j rawdata, j + 2)
  end.

(** What the branch of [goahead] for an ampersand that does not start a
    numeric reference does at index [i]. *)
Inductive amp_outcome :=
| AmpEntity (name : str) (next : nat)   (* handle_entityref(name) *)
| AmpIncomplete                         (* break: wait for more input *)
| AmpData (data : str) (next : nat)     (* handle_data(data) *)
| AmpLast.                              (* a last ampersand: break, the end of
                                           [goahead(end)] hands it to
                                           handle_data *)

Definition goahead_amp (rawdata : str) (i : nat) : amp_outcome :=
  match entityref_match (skipn i rawdata) with
  | Some (name, len) =>
      let k := i + len in
      let k := if startswith (py ";") (skipn (k - 1) rawdata) then k else k - 1 in
      AmpEntity name k
  | None =>
      match incomplete_match (skipn i rawdata) with
      | Some _ => AmpIncomplete
      | None =>
          if i + 1 <? length rawdata then AmpData (py "&") (i + 1)
          else AmpLast
      end
  end.

End Tokenizer.

Module TokenizerFacts.
Import Tokenizer.

Lemma startswith_app (p s : str) : startswith p s = true -> exists r, s = p ++ r.
Proof.
  revert s. induction p as [|x p IH]; intros s H; [now exists s|].
  destruct s as [|y s]; [discriminate|]. cbn in H.
  apply andb_true_iff in H. destruct H as [H1 H2].
  apply Ascii.eqb_eq in H1. subst y.
  destruct (IH s H2) as [r ->]. now exists r.
Qed.

Lemma startswith_firstn (p s : str) n :
  startswith p (firstn n s) = true -> startswith p s = true.
Proof.
  revert s n. induction p as [|x p IH]; intros s n H; [reflexivity|].
  destruct s as [|y s], n as [|n]; try discriminate H. cbn in *.
  apply andb_true_iff in H. destruct H as [H1 H2].
  rewrite H1. cbn. now apply (IH s n).
Qed.

(** The first occurrence: the pattern stands at the index found, and
    nowhere in the text before it. *)
Lemma find_sub_first (pat s : str) n :
  pat <> [] ->
  find_sub pat s = Some n ->
  startswith pat (skipn n s) = true /\ find_sub pat (firstn n s) = None.
Proof.
  intros Hp. revert n. induction s as [|c s IH]; intros n H.
  - cbn in H. destruct (startswith pat []) eqn:E; [|discriminate].
    injection H as <-. destruct pat; [contradiction | discriminate].
  - cbn [find_sub] in H. destruct (startswith pat (c :: s)) eqn:E.
    + injection H as <-. cbn. split; [exact E|].
      destruct pat; [contradiction | reflexivity].
    + destruct (find_sub pat s) as [m|] eqn:F; [|discriminate].
      cbn in H. injection H as <-. destruct (IH m eq_refl) as [H1 H2].
      split; [exact H1|]. cbn [firstn find_sub].
      destruct (startswith pat (c :: firstn m s)) eqn:E'.
      * apply (startswith_firstn pat (c :: s) (S m)) in E'. congruence.
      * now rewrite H2.
Qed.

Lemma take_while_skipn p (s : str) :
  firstn (length (take_while p s)) s = take_while p s.
Proof.
  induction s as [|c s IH]; [reflexivity|]. cbn.
  destruct (p c); cbn; [now rewrite IH | reflexivity].
Qed.

(** A match of [entityref] is an ampersand, the name and a semicolon. *)
Lemma entityref_match_text s name len :
  entityref_match s = Some (name, len) ->
  firstn len s = py "&" ++ name ++ py ";" /\ len = length name + 2.
Proof.
  unfold entityref_match. destruct s as [|a [|c r]]; try discriminate.
  destruct (Ascii.eqb a "&") eqn:Ea; [|discriminate].
  destruct (is_alpha c); [|discriminate]. cbn [andb].
  apply Ascii.eqb_eq in Ea. subst a.
  cbn [length skipn].
  destruct (skipn (length (take_while is_name_char r)) r) as [|e rest] eqn:Es;
    [discriminate|].
  destruct (Ascii.eqb e ";") eqn:Ee; [|discriminate].
  apply Ascii.eqb_eq in Ee. subst e.
  intros H. injection H as <- <-. split; [|reflexivity].
  replace (S (length (take_while is_name_char r)) + 2)
    with (S (S (length (take_while is_name_char r) + 1))) by lia.
  cbn [firstn py list_ascii_of_string app]. f_equal.
  replace (length (take_while is_name_char r) + 2)
    with (S (length (take_while is_name_char r) + 1)) by lia.
  cbn [firstn]. f_equal.
  rewrite HtmlParserFacts.firstn_add, Es, take_while_skipn. reflexivity.
Qed.

(** C7. [parse_pi] ends a processing instruction at the first [?>] after
    its opening, never at a bare [>]: the two characters before the index
    it returns are [?>], and the data it hands to [handle_pi] is the text
    between the opening and that terminator and holds no [?>].  A match of
    [entityref] ends in a semicolon.  The ampersand branch of [goahead]
    never leaves an entity for later as incomplete: where [entityref] does
    not match, the ampersand is handed to [handle_data], at once when a
    character follows it, at the end of input when it is the last one. *)
Theorem pi_and_entity_terminators :
  (forall rawdata i data k,
     parse_pi rawdata i = Some (data, k) ->
     i + 4 <= k /\
     slice (k - 2) k rawdata = py "?>" /\
     data = slice (i + 2) (k - 2) rawdata /\
     find_sub (py "?>") data = None) /\
  (forall s name len,
     entityref_match s = Some (name, len) ->
     firstn len s = py "&" ++ name ++ py ";") /\
  (forall rawdata i, goahead_amp rawdata i <> AmpIncomplete) /\
  (forall rawdata i,
     entityref_match (skipn i rawdata) = None ->
     goahead_amp rawdata i
     = if i + 1 <? length rawdata then AmpData (py "&") (i + 1) else AmpLast).
Proof.
  split; [|split; [|split]].
  - intros rawdata i data k H. unfold parse_pi, piclose_search in H.
    destruct (find_sub (py "?>") (skipn (i + 2) rawdata)) as [n|] eqn:F; [|discriminate].
    cbn [option_map] in H. injection H as <- <-.
    assert (Hp : py "?>" <> []) by (cbv; discriminate).
    destruct (find_sub_first _ _ _ Hp F) as [H1 H2].
    apply startswith_app in H1. destruct H1 as [r Hr].
    rewrite skipn_skipn in Hr.
    replace (i + 2 + n + 2 - 2) with (i + 2 + n) by lia.
    unfold slice.
    replace (i + 2 + n + 2 - (i + 2 + n)) with 2 by lia.
    replace (i + 2 + n - (i + 2)) with n by lia.
    repeat split; try lia.
    + replace (i + 2 + n) with (n + (i + 2)) by lia. now rewrite Hr.
    + exact H2.
  - intros s name len H. now apply entityref_match_text in H.
  - intros rawdata i. unfold goahead_amp, incomplete_match.
    destruct (entityref_match (skipn i rawdata)) as [[name len]|]; [discriminate|].
    destruct (i + 1 <? length rawdata); discriminate.
  - intros rawdata i H. unfold goahead_amp, incomplete_match. now rewrite H.
Qed.

(** [<?php 1 > 0 ?>] closes at its [?>], and [&amp] without a semicolon
    is data. *)
Lemma pi_and_entity_terminators_witness :
  parse_pi (py "<?php 1 > 0 ?>x") 0 = Some (py "php 1 > 0 ", 14) /\
  slice 12 14 (py "<?php 1 > 0 ?>x") = py "?>" /\
  goahead_amp (py "AT&T &amp x") 5 = AmpData (py "&") 6.
Proof.
  destruct pi_and_entity_terminators as [H1 [_ [_ H4]]].
  split; [reflexivity|]. split.
  - exact (proj1 (proj2 (H1 (py "<?php 1 > 0 ?>x") 0 (py "php 1 > 0 ") 14 eq_refl))).
  - exact (H4 (py "AT&T &amp x") 5 eq_refl).
Defined.

End TokenizerFacts.

(** ** markdown/__main__.py: [parse_options] *)

Module Cli.

(** [logging.DEBUG], [WARNING], [CRITICAL] *)
Definition DEBUG : Z := 10.
Definition WARNING : Z := 30.
Definition CRITICAL : Z := 50.

(** The [optparse] values of the options that [parse_options] declares. *)
Record Values := mkValues {
  filename : option str;
  encoding : option str;
  output_format : str;
  lazy_ol : bool;
  extensions : option (list str);
  configfile : option str;
  verbose : Z
}.

(** The defaults: the [default=] of each [add_option], [None] without one. *)
Definition defaults : Values :=
  mkValues None None (py "xhtml") true None None CRITICAL.

(** What an option does with its value. *)
Inductive action :=
| StoreFile | StoreEncoding | StoreOutputFormat | StoreConfigfile   (* store *)
| AppendExtension                                                   (* append *)
| NoLazyOl                                                          (* store_false *)
| Quiet | Verbose | Noisy                                           (* store_const *)
| Help | Version.             (* added by [OptionParser]: print and exit *)

Definition takes_value (a : action) : bool :=
  match a with
  | StoreFile | StoreEncoding | StoreOutputFormat | StoreConfigfile
  | AppendExtension => true
  | _ => false
  end.

Definition short_opt (c : ascii) : option action :=
  if Ascii.eqb c "f" then Some StoreFile
  else if Ascii.eqb c "e" then Some StoreEncoding
  else if Ascii.eqb c "o" then Some StoreOutputFormat
  else if Ascii.eqb c "n" then Some NoLazyOl
  else if Ascii.eqb c "x" then Some AppendExtension
  else if Ascii.eqb c "c" then Some StoreConfigfile
  else if Ascii.eqb c "q" then Some Quiet
  else if Ascii.eqb c "v" then Some Verbose
  else if Ascii.eqb c "h" then Some Help
  else None.

Definition long_opts : list (str * action) :=
  [(py "--help", Help); (py "--version", Version);
   (py "--file", StoreFile); (py "--encoding", StoreEncoding);
   (py "--output_format", StoreOutputFormat); (py "--no_lazy_ol", NoLazyOl);
   (py "--extension", AppendExtension); (py "--extension_configs", StoreConfigfile);
   (py "--quiet", Quiet); (py "--verbose", Verbose); (py "--noisy", Noisy)].

(** [_match_abbrev]: the option of that name, or the only one it begins. *)
Definition match_abbrev (opt : str) : option action :=
  match Dict.get opt long_opts with
  | Some a => Some a
  | None =>
      match filter (fun o => startswith opt (fst o)) long_opts with
      | [(_, a)] => Some a
      | _ => None
      end
  end.

(** What [parse_options] ends in. *)
Inductive outcome (A : Type) :=
| Done (a : A)
| SystemExit (code : Z)      (* [parser.error] exits with 2, help with 0 *)
| ConfigError.               (* the configuration file cannot be read *)
Arguments Done {A} a.
Arguments SystemExit {A} code.
Arguments ConfigError {A}.

(** [option.process(opt, value, values, parser)] *)
Definition process (a : action) (value : str) (v : Values) : outcome Values :=
  match a with
  | StoreFile =>
      Done (mkValues (Some value) (encoding v) (output_format v) (lazy_ol v)
              (extensions v) (configfile v) (verbose v))
  | StoreEncoding =>
      Done (mkValues (filename v) (Some value) (output_format v) (lazy_ol v)
              (extensions v) (configfile v) (verbose v))
  | StoreOutputFormat =>
      Done (mkValues (filename v) (encoding v) value (lazy_ol v)
              (extensions v) (configfile v) (verbose v))
  | StoreConfigfile =>
      Done (mkValues (filename v) (encoding v) (output_format v) (lazy_ol v)
              (extensions v) (Some value) (verbose v))
  | AppendExtension =>
      Done (mkValues (filename v) (encoding v) (output_format v) (lazy_ol v)
              (Some (match extensions v with Some l => l | None => [] end ++ [value]))
              (configfile v) (verbose v))
  | NoLazyOl =>
      Done (mkValues (filename v) (encoding v) (output_format v) false
              (extensions v) (configfile v) (verbose v))
  | Quiet =>
      Done (mkValues (filename v) (encoding v) (output_format v) (lazy_ol v)
              (extensions v) (configfile v) (CRITICAL + 10))
  | Verbose =>
      Done (mkValues (filename v) (encoding v) (output_format v) (lazy_ol v)
              (extensions v) (configfile v) WARNING)
  | Noisy =>
      Done (mkValues (filename v) (encoding v) (output_format v) (lazy_ol v)
              (extensions v) (configfile v) DEBUG)
  | Help | Version => SystemExit 0
  end.

(** [_process_short_opts]: the characters [cluster] of one argument after
    its dash; the result is the values and the arguments left. *)
Fixpoint process_short_opts (cluster : str) (rargs : list str) (v : Values)
  : outcome (Values * list str) :=
  match cluster with
  | [] => Done (v, rargs)
  | ch :: rest =>
      match short_opt ch with
      | None => SystemExit 2                     (* BadOptionError *)
      | Some a =>
          if takes_value a then
            match rest, rargs with
            | _ :: _, _ =>
                match process a rest v with
                | Done v' => Done (v', rargs)
                | SystemExit c => SystemExit c
                | ConfigError => ConfigError
                end
            | [], value :: rargs' =>
                match process a value v with
                | Done v' => Done (v', rargs')
                | SystemExit c => SystemExit c
                | ConfigError => ConfigError
                end
            | [], [] => SystemExit 2             (* option requires an argument *)
            end
          else
            match process a [] v with
            | Done v' => process_short_opts rest rargs v'
            | SystemExit c => SystemExit c
            | ConfigError => ConfigError
            end
      end
  end.

(** [arg.split("=", 1)] *)
Fixpoint split_eq (arg : str) : str * option str :=
  match arg with
  | [] => ([], None)
  | c :: r =>
      if Ascii.eqb c "=" then ([], Some r)
      else let '(a, b) := split_eq r in (c :: a, b)
  end.

(** [_process_long_opt] for the argument [arg]. *)
Definition process_long_opt (arg : str) (rargs : list str) (v : Values)
  : outcome (Values * list str) :=
  let '(opt, explicit) := split_eq arg in
  match match_abbrev opt with
  | None => SystemExit 2
  | Some a =>
      if takes_value a then
        match explicit, rargs with
        | Some value, _ =>
            match process a value v with
            | Done v' => Done (v', rargs)
            | SystemExit c => SystemExit c
            | ConfigError => ConfigError
            end
        | None, value :: rargs' =>
            match process a value v with
            | Done v' => Done (v', rargs')
            | SystemExit c => SystemExit c
            | ConfigError => ConfigError
            end
        | None, [] => SystemExit 2
        end
      else
        match explicit with
        | Some _ => SystemExit 2                 (* option does not take a value *)
        | None =>
            match process a [] v with
            | Done v' => Done (v', rargs)
            | SystemExit c => SystemExit c
            | ConfigError => ConfigError
            end
        end
  end.

(** [_process_args]: options and positional arguments may be mixed; [fuel]
    bounds the number of arguments, each turn consuming at least one. *)
Fixpoint process_args (fuel : nat) (rargs : list str) (largs : list str) (v : Values)
  : outcome (Values * list str) :=
  match fuel with
  | 0 => Done (v, largs ++ rargs)
  | S fuel' =>
      match rargs with
      | [] => Done (v, largs)
      | arg :: rest =>
          if str_eqb arg (py "--") then Done (v, largs ++ rest)
          else if startswith (py "--") arg then
            match process_long_opt arg rest v with
            | Done (v', rest') => process_args fuel' rest' largs v'
            | SystemExit c => SystemExit c
            | ConfigError => ConfigError
            end
          else if startswith (py "-") arg && (1 <? length arg) then
            match process_short_opts (slice_from 1 arg) rest v with
            | Done (v', rest') => process_args fuel' rest' largs v'
            | SystemExit c => SystemExit c
            | ConfigError => ConfigError
            end
          else process_args fuel' rest (largs ++ [arg]) v
      end
  end.

(** [parser.parse_args(args, values)] *)
Definition parse_args (args : list str) : outcome (Values * list str) :=
  process_args (length args) args [] defaults.

Section ParseOptions.

(** The parsed content of a configuration file; reading it is input from
    the file system, a parameter here: [None] when it raises. *)
Variable config : Type.
Variable empty_config : config.
Variable load_config : str -> option str -> option config.

(** The dictionary [opts] that [parse_options] returns. *)
Record Opts := mkOpts {
  opt_input : option str;
  opt_output : option str;
  opt_extensions : list str;
  opt_extension_configs : config;
  opt_encoding : option str;
  opt_output_format : str;
  opt_lazy_ol : bool
}.

(** [parse_options(args)]: [opts] and [options.verbose]. *)
Definition parse_options (args : list str) : outcome (Opts * Z) :=
  match parse_args args with
  | SystemExit c => SystemExit c
  | ConfigError => ConfigError
  | Done (options, args) =>
      let input_file := match args with [] => None | a :: _ => Some a end in
      let exts := match extensions options with
                  | Some (x :: l) => x :: l
                  | _ => []
                  end in
      let extension_configs :=
        match configfile options with
        | Some (c :: f) => load_config (c :: f) (encoding options)
        | _ => Some empty_config
        end in
      match extension_configs with
      | None => ConfigError
      | Some cfg =>
          Done (mkOpts input_file (filename options) exts cfg (encoding options)
                  (output_format options) (lazy_ol options),
                verbose options)
      end
  end.

(** The options of [parse_options([])]. *)
Definition default_options : Opts :=
  mkOpts None None [] empty_config None (py "xhtml") true.

(** C9. Without arguments [parse_options] returns [output_format] xhtml,
    [lazy_ol] true, no extensions, and neither input nor output; [-o]
    followed by a format sets [output_format] to it, [html] included, and
    [-n] sets [lazy_ol] to false; every other option keeps its default,
    and so does the logging level. *)
Theorem parse_options_defaults :
  parse_options [] = Done (default_options, CRITICAL) /\
  opt_output_format default_options = py "xhtml" /\
  opt_lazy_ol default_options = true /\
  opt_extensions default_options = [] /\
  opt_input default_options = None /\
  opt_output default_options = None /\
  (forall fmt,
     parse_options [py "-o"; fmt]
     = Done (mkOpts None None [] empty_config None fmt true, CRITICAL)) /\
  parse_options [py "-o"; py "html"]
  = Done (mkOpts None None [] empty_config None (py "html") true, CRITICAL) /\
  parse_options [py "-n"]
  = Done (mkOpts None None [] empty_config None (py "xhtml") false, CRITICAL).
Proof. repeat split. Qed.

End ParseOptions.

End Cli.

(** ** The registry of processors *)

Module Registry.

Section WithItems.

(** The processors, or whatever else is registered. *)
Variable A : Type.

(** Modelled from the spec: [markdown.util.Registry] is not among the
    sources.  The registry holds an item per name and an entry, name and
    priority, per item; names are unique.  [register] adds an entry, or
    replaces the one of that name, and marks the registry dirty;
    [deregister] removes by name, and its strict form fails when the name
    is absent; every read sorts first if the registry is dirty.  The sort
    is stable, by priority descending; a new entry is put in front of the
    older ones, so that among equal priorities the one registered later
    comes first. *)
Record t := mk {
  _data : Dict.dict A;
  _priority : list (str * Q);
  _is_sorted : bool
}.

Definition empty : t := mk [] [] false.

(** [name in registry] *)
Definition contains (r : t) (name : str) : bool := Dict.mem name (_data r).

(** [len(registry)] *)
Definition len (r : t) : nat := length (_priority r).

(** One step of the stable sort: [e] goes in front of the first entry
    whose priority is not greater than its own. *)
Fixpoint insert_sorted (e : str * Q) (l : list (str * Q)) : list (str * Q) :=
  match l with
  | [] => [e]
  | y :: l' =>
      if Qle_bool (snd y) (snd e) then e :: y :: l'
      else y :: insert_sorted e l'
  end.

Definition sort_desc (l : list (str * Q)) : list (str * Q) :=
  fold_right insert_sorted [] l.

(** [_sort()]: sorts when the registry is dirty. *)
Definition _sort (r : t) : t :=
  if _is_sorted r then r else mk (_data r) (sort_desc (_priority r)) true.

Definition remove_entry (r : t) (name : str) : t :=
  mk (Dict.remove name (_data r))
     (filter (fun e => negb (str_eqb (fst e) name)) (_priority r))
     false.

(** [deregister(name, strict)] *)
Definition deregister (r : t) (name : str) (strict : bool) : result t :=
  if contains r name then Ok (remove_entry r name)
  else if strict then Raise ValueError
  else Ok r.

(** [register(item, name, priority)] *)
Definition register (r : t) (item : A) (name : str) (priority : Q) : t :=
  let r := if contains r name then remove_entry r name else r in
  mk (Dict.set name item (_data r)) ((name, priority) :: _priority r) false.

(** [list(registry)]: the items in the order of the sorted entries. *)
Fixpoint items_of (d : Dict.dict A) (l : list (str * Q)) : result (list A) :=
  match l with
  | [] => Ok []
  | (name, _) :: l' =>
      match Dict.get name d, items_of d l' with
      | Some x, Ok xs => Ok (x :: xs)
      | None, _ => Raise KeyError
      | _, Raise e => Raise e
      end
  end.

Definition iter (r : t) : result (list A) * t :=
  let r := _sort r in (items_of (_data r) (_priority r), r).

(** [l.index(x)] over the names of the entries. *)
Fixpoint index_of (name : str) (l : list (str * Q)) : option nat :=
  match l with
  | [] => None
  | (n, _) :: l' => if str_eqb n name then Some 0 else option_map S (index_of name l')
  end.

(** [get_index_for_name(name)] *)
Definition get_index_for_name (r : t) (name : str) : result nat * t :=
  if contains r name then
    let r := _sort r in
    (match index_of name (_priority r) with
     | Some i => Ok i
     | None => Raise ValueError
     end, r)
  else (Raise ValueError, r).

(** The operations of a caller: registrations, removals, and reads, which
    sort. *)
Inductive op :=
| Register (item : A) (name : str) (priority : Q)
| Deregister (name : str) (strict : bool)
| Read.

(** A failing strict [deregister] raises and leaves the registry as it is. *)
Definition apply (r : t) (o : op) : t :=
  match o with
  | Register item name priority => register r item name priority
  | Deregister name strict =>
      match deregister r name strict with
      | Ok r' => r'
      | Raise _ => r
      end
  | Read => _sort r
  end.

Definition run (ops : list op) : t := fold_left apply ops empty.

(** What a sequence of operations has registered: for each name that is
    registered at the end, the item and the priority of its last
    registration, and the time, counted in operations, of that
    registration. *)
Definition ledger_step (st : Dict.dict (A * Q * nat) * nat) (o : op)
  : Dict.dict (A * Q * nat) * nat :=
  let '(m, time) := st in
  match o with
  | Register item name priority => (Dict.set name (item, priority, time) m, S time)
  | Deregister name _ => (Dict.remove name m, S time)
  | Read => (m, S time)
  end.

Definition ledger (ops : list op) : Dict.dict (A * Q * nat) :=
  fst (fold_left ledger_step ops ([], 0)).

(** An entry of the iteration with its item and the time of its
    registration. *)
Definition entry_name (e : str * A * Q * nat) : str := fst (fst (fst e)).
Definition entry_item (e : str * A * Q * nat) : A := snd (fst (fst e)).
Definition entry_priority (e : str * A * Q * nat) : Q := snd (fst e).
Definition entry_time (e : str * A * Q * nat) : nat := snd e.

(** [a] comes before [b]: a greater priority, or the same priority and a
    later registration. *)
Definition before (a b : str * A * Q * nat) : Prop :=
  (entry_priority b < entry_priority a)%Q \/
  ((entry_priority a == entry_priority b)%Q /\ entry_time b < entry_time a).

End WithItems.

Arguments mk {A}.
Arguments _data {A}.
Arguments _priority {A}.
Arguments _is_sorted {A}.
Arguments contains {A}.
Arguments len {A}.
Arguments _sort {A}.
Arguments remove_entry {A}.
Arguments deregister {A}.
Arguments register {A}.
Arguments items_of {A}.
Arguments iter {A}.
Arguments get_index_for_name {A}.
Arguments Register {A}.
Arguments Deregister {A}.
Arguments Read {A}.
Arguments apply {A}.
Arguments run {A}.
Arguments ledger_step {A}.
Arguments ledger {A}.
Arguments entry_name {A}.
Arguments entry_item {A}.
Arguments entry_priority {A}.
Arguments entry_time {A}.
Arguments before {A}.

End Registry.

(** *** The order of iteration *)

Module RegistryFacts.
Import Registry.

Lemma str_eqb_neq (a b : str) : str_eqb a b = false <-> a <> b.
Proof.
  split.
  - intros H E. apply str_eqb_eq in E. congruence.
  - intros H. destruct (str_eqb a b) eqn:E; [|reflexivity].
    apply str_eqb_eq in E. contradiction.
Qed.

Lemma str_eqb_sym (a b : str) : str_eqb a b = str_eqb b a.
Proof.
  destruct (str_eqb a b) eqn:E.
  - apply str_eqb_eq in E. subst. symmetry. apply str_eqb_refl.
  - apply str_eqb_neq in E. symmetry. apply str_eqb_neq. congruence.
Qed.

Section DictFacts.
Context {V : Type}.

Lemma get_set_same k (v : V) d : Dict.get k (Dict.set k v d) = Some v.
Proof.
  induction d as [|[k' v'] d IH]; cbn.
  - now rewrite str_eqb_refl.
  - destruct (str_eqb k k') eqn:E; cbn; [now rewrite str_eqb_refl | now rewrite E].
Qed.

Lemma get_set_other k k' (v : V) d :
  k <> k' -> Dict.get k' (Dict.set k v d) = Dict.get k' d.
Proof.
  intros Hne. induction d as [|[k0 v0] d IH]; cbn.
  - apply str_eqb_neq in Hne. now rewrite str_eqb_sym, Hne.
  - destruct (str_eqb k k0) eqn:E; cbn.
    + apply str_eqb_eq in E. subst k0.
      apply str_eqb_neq in Hne. now rewrite str_eqb_sym, Hne.
    + now rewrite IH.
Qed.

Lemma get_remove_same k (d : Dict.dict V) : Dict.get k (Dict.remove k d) = None.
Proof.
  induction d as [|[k0 v0] d IH]; cbn; [reflexivity|].
  destruct (str_eqb k0 k) eqn:E; cbn; [exact IH|].
  rewrite str_eqb_sym, E. exact IH.
Qed.

Lemma get_remove_other k k' (d : Dict.dict V) :
  k <> k' -> Dict.get k' (Dict.remove k d) = Dict.get k' d.
Proof.
  intros Hne. induction d as [|[k0 v0] d IH]; cbn; [reflexivity|].
  destruct (str_eqb k0 k) eqn:E; cbn.
  - apply str_eqb_eq in E. subst k0.
    apply str_eqb_neq in Hne. rewrite str_eqb_sym, Hne. exact IH.
  - destruct (str_eqb k' k0); [reflexivity | exact IH].
Qed.

Lemma remove_absent k (d : Dict.dict V) : Dict.get k d = None -> Dict.remove k d = d.
Proof.
  induction d as [|[k0 v0] d IH]; cbn; [reflexivity|].
  rewrite (str_eqb_sym k0 k).
  destruct (str_eqb k k0) eqn:E; cbn; [discriminate|].
  intros H. f_equal. now apply IH.
Qed.

End DictFacts.

Definition names (l : list (str * Q)) : list str := map fst l.
Definition without (name : str) (l : list (str * Q)) : list (str * Q) :=
  filter (fun e => negb (str_eqb (fst e) name)) l.

Lemma in_without name l e : In e (without name l) <-> In e l /\ fst e <> name.
Proof.
  unfold without. rewrite filter_In, negb_true_iff, str_eqb_neq. tauto.
Qed.

Lemma in_names_without name l n :
  In n (names (without name l)) <-> In n (names l) /\ n <> name.
Proof.
  unfold names. rewrite !in_map_iff. split.
  - intros [e [<- H]]. apply in_without in H. destruct H as [H1 H2].
    split; [now exists e | exact H2].
  - intros [[e [<- H]] Hne]. exists e. split; [reflexivity|]. now apply in_without.
Qed.

Lemma without_cons name n p l :
  without name ((n, p) :: l)
  = if str_eqb n name then without name l else (n, p) :: without name l.
Proof. unfold without. cbn. now destruct (str_eqb n name). Qed.

Lemma names_cons n p l : names ((n, p) :: l) = n :: names l.
Proof. reflexivity. Qed.

Lemma without_absent name l : ~ In name (names l) -> without name l = l.
Proof.
  induction l as [|[n p] l IH]; [reflexivity|].
  rewrite names_cons, without_cons. intros H.
  destruct (str_eqb n name) eqn:E.
  - apply str_eqb_eq in E. subst. cbn in H. tauto.
  - rewrite IH; [reflexivity | cbn in H; tauto].
Qed.

Lemma NoDup_names_without name l : NoDup (names l) -> NoDup (names (without name l)).
Proof.
  induction l as [|[n p] l IH]; [constructor|].
  rewrite names_cons, without_cons.
  intros H. inversion H as [|? ? Hn Hd]; subst.
  destruct (str_eqb n name); [now apply IH|].
  rewrite names_cons. constructor; [|now apply IH].
  intros Hin. apply in_names_without in Hin. tauto.
Qed.

(** Replacing an entry does not change the number of entries. *)
Lemma length_without name l :
  NoDup (names l) -> In name (names l) -> S (length (without name l)) = length l.
Proof.
  induction l as [|[n p] l IH]; [cbn; tauto|].
  rewrite names_cons, without_cons.
  intros H Hin. inversion H as [|? ? Hn Hd]; subst.
  destruct (str_eqb n name) eqn:E.
  - apply str_eqb_eq in E. subst n. rewrite without_absent; auto.
  - apply str_eqb_neq in E. destruct Hin as [Hin|Hin]; [congruence|].
    cbn [length]. now rewrite IH.
Qed.

(** The stable sort: a permutation, in descending order of priority. *)
Lemma insert_sorted_perm e l : Permutation (insert_sorted e l) (e :: l).
Proof.
  induction l as [|y l IH]; cbn; [reflexivity|].
  destruct (Qle_bool (snd y) (snd e)); [reflexivity|].
  rewrite IH. apply perm_swap.
Qed.

Lemma sort_desc_perm l : Permutation (sort_desc l) l.
Proof.
  induction l as [|x l IH]; cbn; [reflexivity|].
  rewrite insert_sorted_perm. now constructor.
Qed.

Definition descending (a b : str * Q) : Prop := (snd b <= snd a)%Q.

Lemma insert_sorted_sorted e l :
  StronglySorted descending l -> StronglySorted descending (insert_sorted e l).
Proof.
  induction l as [|y l IH]; cbn; intros H.
  - constructor; constructor.
  - inversion H as [|? ? Hs Hf]; subst.
    destruct (Qle_bool (snd y) (snd e)) eqn:E.
    + apply Qle_bool_iff in E. constructor; [exact H|].
      constructor; [exact E|].
      eapply Forall_impl; [|exact Hf]. intros z Hz. unfold descending in *.
      eapply Qle_trans; eassumption.
    + constructor; [now apply IH|].
      assert (Hlt : (snd e < snd y)%Q).
      { apply Qnot_le_lt. intros Hle. apply Qle_bool_iff in Hle. congruence. }
      eapply Permutation_Forall; [symmetry; apply insert_sorted_perm|].
      constructor; [|exact Hf]. unfold descending. now apply Qlt_le_weak.
Qed.

Lemma sort_desc_sorted l : StronglySorted descending (sort_desc l).
Proof.
  induction l as [|x l IH]; cbn; [constructor | now apply insert_sorted_sorted].
Qed.

Section Order.

Variable A : Type.

Definition ledger_t : Type := Dict.dict (A * Q * nat).

(** The time of the registration that a ledger records for a name. *)
Definition time_in (m : ledger_t) (n : str) : nat :=
  match Dict.get n m with
  | Some (_, _, time) => time
  | None => 0
  end.

(** Among equal priorities, the entry in front was registered later. *)
Definition tie (m : ledger_t) (e1 e2 : str * Q) : Prop :=
  (snd e1 == snd e2)%Q -> time_in m (fst e2) < time_in m (fst e1).

(** What holds of a registry after any sequence of operations: [m] is the
    ledger of the sequence and [clock] its length. *)
Record invariant (r : t A) (m : ledger_t) (clock : nat) : Prop := {
  inv_nodup : NoDup (names (_priority r));
  inv_data : forall n, In n (names (_priority r)) <-> Dict.get n (_data r) <> None;
  inv_entry : forall n p, In (n, p) (_priority r) ->
              exists item time,
                Dict.get n m = Some (item, p, time) /\ Dict.get n (_data r) = Some item;
  inv_ledger : forall n x, Dict.get n m = Some x -> In n (names (_priority r));
  inv_tie : ForallOrdPairs (tie m) (_priority r);
  inv_sorted : _is_sorted r = true -> StronglySorted descending (_priority r);
  inv_clock : forall n item p time, Dict.get n m = Some (item, p, time) -> time < clock
}.

Lemma fop_filter {B} (R : B -> B -> Prop) f l :
  ForallOrdPairs R l -> ForallOrdPairs R (filter f l).
Proof.
  induction 1 as [|a l Ha Hl IH]; cbn; [constructor|].
  destruct (f a); [|exact IH]. constructor; [|exact IH].
  apply Forall_forall. intros x Hx. apply filter_In in Hx.
  rewrite Forall_forall in Ha. now apply Ha.
Qed.

Lemma fop_impl_in {B} (R R' : B -> B -> Prop) l :
  (forall a b, In a l -> In b l -> R a b -> R' a b) ->
  ForallOrdPairs R l -> ForallOrdPairs R' l.
Proof.
  intros H Hf. induction Hf as [|a l Ha Hl IH]; [constructor|].
  constructor.
  - apply Forall_forall. intros x Hx. rewrite Forall_forall in Ha.
    apply H; [now left | now right | now apply Ha].
  - apply IH. intros x y Hx Hy. apply H; now right.
Qed.

(** The sort is stable. *)
Lemma tie_insert_sorted m x l :
  Forall (tie m x) l -> ForallOrdPairs (tie m) l ->
  ForallOrdPairs (tie m) (insert_sorted x l).
Proof.
  induction l as [|y l IH]; cbn; intros Hx Hl.
  - constructor; constructor.
  - destruct (Qle_bool (snd y) (snd x)) eqn:E.
    + now constructor.
    + inversion Hl as [|? ? Hy Hl']; subst. inversion Hx as [|? ? _ Hx']; subst.
      constructor; [|now apply IH].
      eapply Permutation_Forall; [symmetry; apply insert_sorted_perm|].
      constructor; [|exact Hy].
      intros Heq. exfalso.
      assert (Hle : (snd y <= snd x)%Q) by (rewrite Heq; apply Qle_refl).
      apply Qle_bool_iff in Hle. congruence.
Qed.

Lemma tie_sort_desc m l :
  ForallOrdPairs (tie m) l -> ForallOrdPairs (tie m) (sort_desc l).
Proof.
  induction 1 as [|x l Hx Hl IH]; cbn; [constructor|].
  apply tie_insert_sorted; [|exact IH].
  eapply Permutation_Forall; [symmetry; apply sort_desc_perm | exact Hx].
Qed.

Lemma names_perm l l' : Permutation l l' -> Permutation (names l) (names l').
Proof. apply Permutation_map. Qed.

Lemma invariant_empty : invariant (empty A) [] 0.
Proof.
  constructor; cbn; try tauto; try discriminate; try constructor.
Qed.

(** A read sorts and keeps what is registered. *)
Lemma invariant_sort r m clock :
  invariant r m clock -> invariant (_sort r) m (S clock).
Proof.
  intros [Hn Hd He Hl Ht Hs Hc]. unfold _sort.
  destruct (_is_sorted r) eqn:E.
  - constructor; auto. intros. eapply Nat.lt_trans; [eapply Hc; eauto | lia].
  - pose proof (sort_desc_perm (_priority r)) as P.
    constructor; cbn [_priority _data _is_sorted].
    + eapply Permutation_NoDup; [symmetry; apply names_perm; exact P | exact Hn].
    + intros n. rewrite <- Hd. split; apply Permutation_in; [|symmetry];
        apply names_perm; exact P.
    + intros n p Hin. apply He. eapply Permutation_in; [exact P | exact Hin].
    + intros n x Hx. eapply Permutation_in; [symmetry; apply names_perm; exact P|].
      eapply Hl; eauto.
    + now apply tie_sort_desc.
    + intros _. apply sort_desc_sorted.
    + intros. eapply Nat.lt_trans; [eapply Hc; eauto | lia].
Qed.

Lemma names_in l n : In n (names l) <-> exists p, In (n, p) l.
Proof.
  unfold names. rewrite in_map_iff. split.
  - intros [[n' p] [<- H]]. now exists p.
  - intros [p H]. now exists (n, p).
Qed.

(** Removing an entry. *)
Lemma invariant_remove r m clock name :
  invariant r m clock ->
  invariant (remove_entry r name) (Dict.remove name m) (S clock).
Proof.
  intros [Hn Hd He Hl Ht Hs Hc]. unfold remove_entry.
  fold (without name (_priority r)).
  constructor; cbn [_priority _data _is_sorted].
  - now apply NoDup_names_without.
  - intros n. rewrite in_names_without, Hd.
    destruct (str_eqb name n) eqn:E.
    + apply str_eqb_eq in E. subst n. rewrite get_remove_same. split; [tauto|congruence].
    + apply str_eqb_neq in E. rewrite get_remove_other by exact E.
      split; [tauto | intros H; split; [exact H | congruence]].
  - intros n p Hin. apply in_without in Hin. destruct Hin as [Hin Hne]. cbn in Hne.
    destruct (He n p Hin) as [item [time [H1 H2]]].
    exists item, time. rewrite !get_remove_other by congruence. tauto.
  - intros n x Hx.
    destruct (str_eqb name n) eqn:E.
    + apply str_eqb_eq in E. subst n. rewrite get_remove_same in Hx. discriminate.
    + apply str_eqb_neq in E. rewrite get_remove_other in Hx by exact E.
      apply in_names_without. split; [eapply Hl; eauto | congruence].
  - apply (fop_impl_in (tie m)); [|now apply fop_filter].
    intros a b Ha Hb Hab Heq.
    apply in_without in Ha, Hb. destruct Ha as [_ Ha], Hb as [_ Hb].
    unfold time_in. rewrite !get_remove_other by congruence. now apply Hab.
  - discriminate.
  - intros n item p time Hx.
    destruct (str_eqb name n) eqn:E.
    + apply str_eqb_eq in E. subst n. rewrite get_remove_same in Hx. discriminate.
    + apply str_eqb_neq in E. rewrite get_remove_other in Hx by exact E.
      eapply Nat.lt_trans; [eapply Hc; eauto | lia].
Qed.

Lemma invariant_later r m clock : invariant r m clock -> invariant r m (S clock).
Proof.
  intros [Hn Hd He Hl Ht Hs Hc]. constructor; auto.
  intros. eapply Nat.lt_trans; [eapply Hc; eauto | lia].
Qed.

Lemma absent_everywhere r m clock name :
  invariant r m clock -> contains r name = false ->
  Dict.get name (_data r) = None /\ ~ In name (names (_priority r)) /\
  Dict.get name m = None.
Proof.
  intros [Hn Hd He Hl Ht Hs Hc] Hc'. unfold contains, Dict.mem in Hc'.
  destruct (Dict.get name (_data r)) eqn:E; [discriminate|].
  assert (Hnot : ~ In name (names (_priority r))) by (rewrite Hd; congruence).
  repeat split; auto.
  destruct (Dict.get name m) eqn:Em; [|reflexivity].
  exfalso. apply Hnot. eapply Hl; eauto.
Qed.

(** [register] puts the new entry in front of the others. *)
Lemma register_eq r m clock item name p :
  invariant r m clock ->
  register r item name p
  = mk (Dict.set name item (Dict.remove name (_data r)))
       ((name, p) :: without name (_priority r)) false.
Proof.
  intros Hi. unfold register. destruct (contains r name) eqn:E; [reflexivity|].
  destruct (absent_everywhere _ _ _ _ Hi E) as [H1 [H2 _]].
  now rewrite remove_absent, without_absent.
Qed.

Lemma invariant_register r m clock item name p :
  invariant r m clock ->
  invariant (register r item name p) (Dict.set name (item, p, clock) m) (S clock).
Proof.
  intros Hi. rewrite (register_eq _ _ _ _ _ _ Hi).
  destruct Hi as [Hn Hd He Hl Ht Hs Hc].
  constructor; cbn [_priority _data _is_sorted].
  - rewrite names_cons. constructor; [|now apply NoDup_names_without].
    intros H. apply in_names_without in H. tauto.
  - intros n. rewrite names_cons. cbn [In]. rewrite in_names_without, Hd.
    destruct (str_eqb name n) eqn:E.
    + apply str_eqb_eq in E. subst n. rewrite get_set_same.
      split; [discriminate | auto].
    + apply str_eqb_neq in E.
      rewrite get_set_other, get_remove_other by exact E.
      split; [intros [H|H]; [congruence | tauto] | intros H; right; split; [exact H | congruence]].
  - intros n q [Hin|Hin].
    + injection Hin as <- <-. exists item, clock. now rewrite !get_set_same.
    + apply in_without in Hin. destruct Hin as [Hin Hne]. cbn in Hne.
      destruct (He n q Hin) as [item' [time' [H1 H2]]].
      exists item', time'.
      rewrite !get_set_other, get_remove_other by congruence. tauto.
  - intros n x Hx. rewrite names_cons.
    destruct (str_eqb name n) eqn:E.
    + apply str_eqb_eq in E. now left.
    + apply str_eqb_neq in E. rewrite get_set_other in Hx by exact E.
      right. apply in_names_without. split; [eapply Hl; eauto | congruence].
  - constructor.
    + apply Forall_forall. intros [n q] Hin _.
      apply in_without in Hin. destruct Hin as [Hin Hne]. cbn in Hne.
      unfold time_in. cbn [fst]. rewrite get_set_same, get_set_other by congruence.
      destruct (He n q Hin) as [item' [time' [H1 _]]]. rewrite H1. eapply Hc; eauto.
    + apply (fop_impl_in (tie m)); [|now apply fop_filter].
      intros a b Ha Hb Hab Heq.
      apply in_without in Ha, Hb. destruct Ha as [_ Ha], Hb as [_ Hb].
      unfold time_in. rewrite !get_set_other by congruence. now apply Hab.
  - discriminate.
  - intros n item' q time Hx.
    destruct (str_eqb name n) eqn:E.
    + apply str_eqb_eq in E. subst n. rewrite get_set_same in Hx.
      injection Hx as <- <- <-. lia.
    + apply str_eqb_neq in E. rewrite get_set_other in Hx by exact E.
      eapply Nat.lt_trans; [eapply Hc; eauto | lia].
Qed.

Definition ledger_state (ops : list (op A)) : ledger_t * nat :=
  fold_left ledger_step ops ([], 0).

(** The invariant holds after every sequence of operations. *)
Lemma run_invariant (ops : list (op A)) :
  invariant (run ops) (ledger ops) (snd (ledger_state ops)).
Proof.
  unfold run, ledger. fold (ledger_state ops). unfold ledger_state.
  induction ops as [|o ops IH] using rev_ind; [apply invariant_empty|].
  rewrite !fold_left_app. cbn [fold_left].
  destruct (fold_left ledger_step ops ([], 0)) as [m clock]. cbn [fst snd] in *.
  destruct o as [item name p|name strict|]; cbn [apply ledger_step fst snd].
  - now apply invariant_register.
  - unfold deregister. destruct (contains _ name) eqn:E.
    + now apply invariant_remove.
    + destruct (absent_everywhere _ _ _ _ IH E) as [_ [_ H3]].
      rewrite (remove_absent _ _ H3).
      destruct strict; now apply invariant_later.
  - now apply invariant_sort.
Qed.

Definition entry_key (e : str * A * Q * nat) : str * Q :=
  (entry_name e, entry_priority e).

(** The entry agrees with the ledger and with the items of the registry. *)
Definition recorded (r : t A) (m : ledger_t) (e : str * A * Q * nat) : Prop :=
  Dict.get (entry_name e) m = Some (entry_item e, entry_priority e, entry_time e) /\
  Dict.get (entry_name e) (_data r) = Some (entry_item e).

Lemma entries_exist (r : t A) (m : ledger_t) (l : list (str * Q)) :
  (forall n p, In (n, p) l ->
     exists item time,
       Dict.get n m = Some (item, p, time) /\ Dict.get n (_data r) = Some item) ->
  exists entries, l = map entry_key entries /\ Forall (recorded r m) entries.
Proof.
  induction l as [|[n p] l IH]; intros H.
  - exists []. split; [reflexivity | constructor].
  - destruct (H n p (or_introl eq_refl)) as [item [time [H1 H2]]].
    destruct IH as [es [E F]]; [intros; apply H; now right|].
    exists ((n, item, p, time) :: es). split; [cbn; now rewrite E|].
    constructor; [split; assumption | exact F].
Qed.

Lemma items_of_entries (r : t A) m entries :
  Forall (recorded r m) entries ->
  items_of (_data r) (map entry_key entries) = Ok (map entry_item entries).
Proof.
  induction 1 as [|e es [_ He] _ IH]; [reflexivity|].
  cbn [map items_of entry_key]. now rewrite He, IH.
Qed.

Lemma index_of_in name (l : list (str * Q)) :
  In name (names l) ->
  exists i, index_of name l = Some i /\ nth_error (names l) i = Some name.
Proof.
  induction l as [|[n p] l IH]; [intros []|].
  rewrite names_cons. cbn [index_of]. intros H.
  destruct (str_eqb n name) eqn:E.
  - apply str_eqb_eq in E. subst. now exists 0.
  - apply str_eqb_neq in E. destruct H as [H|H]; [congruence|].
    destruct (IH H) as [i [H1 H2]]. exists (S i). now rewrite H1.
Qed.

Lemma names_entries entries : names (map entry_key entries) = map entry_name entries.
Proof. unfold names. rewrite map_map. reflexivity. Qed.

Lemma sorted_entries (r : t A) m entries :
  Forall (recorded r m) entries ->
  StronglySorted descending (map entry_key entries) ->
  ForallOrdPairs (tie m) (map entry_key entries) ->
  StronglySorted before entries.
Proof.
  induction 1 as [|e es [He _] Hes IH]; intros Hs Ht; [constructor|].
  cbn [map] in Hs, Ht.
  inversion Hs as [|? ? Hs' Hd]; subst. inversion Ht as [|? ? Hte Ht']; subst.
  constructor; [now apply IH|].
  rewrite Forall_map in Hd, Hte.
  rewrite Forall_forall in *. intros e' Hin.
  specialize (Hd e' Hin). specialize (Hte e' Hin). destruct (Hes e' Hin) as [He' _].
  unfold descending, entry_key in Hd. cbn [snd] in Hd.
  apply Qle_lteq in Hd. destruct Hd as [Hd|Hd]; [now left|].
  right. split; [now symmetry|].
  unfold tie, entry_key, time_in in Hte. cbn [fst snd] in Hte.
  rewrite He, He' in Hte. apply Hte. now symmetry.
Qed.

Lemma contains_in (r : t A) m clock n :
  invariant r m clock -> (contains r n = true <-> In n (names (_priority r))).
Proof.
  intros Hi. rewrite (inv_data _ _ _ Hi). unfold contains, Dict.mem.
  destruct (Dict.get n (_data r)); split; congruence.
Qed.

(** C3. After any sequence of registrations, removals and reads, iteration
    yields the items that are registered, each name once, sorted by
    priority descending and, among equal priorities, the later
    registration first; for a registered name [get_index_for_name] is its
    position in that order; registering under a name that is registered
    replaces its item and leaves the number of entries as it was. *)
Theorem registry_iteration_order (ops : list (op A)) :
  let r := run ops in
  exists entries : list (str * A * Q * nat),
    iter r = (Ok (map entry_item entries), _sort r) /\
    _priority (_sort r) = map entry_key entries /\
    (forall n item p time,
       In (n, item, p, time) entries <->
       Dict.get n (ledger ops) = Some (item, p, time)) /\
    NoDup (map entry_name entries) /\
    StronglySorted before entries /\
    (forall n,
       contains r n = true ->
       exists i, fst (get_index_for_name r n) = Ok i /\
                 nth_error (map entry_name entries) i = Some n) /\
    (forall n item p,
       contains r n = true ->
       len (register r item n p) = len r /\
       Dict.get n (_data (register r item n p)) = Some item).
Proof.
  intros r. pose proof (run_invariant ops) as Hi. fold r in Hi.
  set (m := ledger ops) in *. set (clock := snd (ledger_state ops)) in *.
  pose proof (invariant_sort _ _ _ Hi) as Hs.
  assert (Hdata : _data (_sort r) = _data r)
    by (unfold _sort; now destruct (_is_sorted r)).
  assert (Hflag : _is_sorted (_sort r) = true)
    by (unfold _sort; now destruct (_is_sorted r) eqn:E).
  destruct (entries_exist (_sort r) m (_priority (_sort r)) (inv_entry _ _ _ Hs))
    as [entries [E F]].
  exists entries.
  assert (Hnames : names (_priority (_sort r)) = map entry_name entries)
    by (rewrite E; apply names_entries).
  split; [|split; [exact E|split; [|split; [|split; [|split]]]]].
  - unfold iter. rewrite E. now rewrite (items_of_entries _ _ _ F).
  - intros n item p time. split.
    + intros Hin. rewrite Forall_forall in F. now destruct (F _ Hin) as [H _].
    + intros Hg. pose proof (inv_ledger _ _ _ Hs _ _ Hg) as Hin.
      rewrite Hnames in Hin. apply in_map_iff in Hin. destruct Hin as [e [He Hin]].
      rewrite Forall_forall in F. destruct (F _ Hin) as [H _].
      rewrite He in H. rewrite Hg in H. injection H as H1 H2 H3.
      destruct e as [[[n' item'] p'] time']. cbn in *. now subst.
  - rewrite <- Hnames. apply (inv_nodup _ _ _ Hs).
  - apply (sorted_entries (_sort r) m); [exact F | |].
    + rewrite <- E. now apply (inv_sorted _ _ _ Hs).
    + rewrite <- E. apply (inv_tie _ _ _ Hs).
  - intros n Hc. unfold get_index_for_name. rewrite Hc. cbn [fst].
    assert (Hin : In n (names (_priority (_sort r)))).
    { apply (inv_data _ _ _ Hs). rewrite Hdata.
      apply (contains_in _ _ _ _ Hi) in Hc. now apply (inv_data _ _ _ Hi). }
    destruct (index_of_in _ _ Hin) as [i [H1 H2]].
    exists i. rewrite H1. split; [reflexivity|]. now rewrite <- Hnames.
  - intros n item p Hc. rewrite (register_eq _ _ _ _ _ _ Hi).
    unfold len. cbn [_priority _data length]. split.
    + apply length_without; [apply (inv_nodup _ _ _ Hi)|].
      now apply (contains_in _ _ _ _ Hi).
    + apply get_set_same.
Qed.

End Order.

(** The registry tests of [tests/test_apis.py], on the model. *)
Example testSortRegistry :
  fst (iter (run [Register (py "a") (py "a") 20; Register (py "b") (py "b") 21;
                  Register (py "c") (py "c") (41 # 2)]))
  = Ok [py "b"; py "c"; py "a"].
Proof. reflexivity. Qed.

Example testRegisterDupplicate :
  let r := run [Register (py "a") (py "a") 20; Register (py "b1") (py "b") 10;
                Read; Register (py "b2") (py "b") 30] in
  fst (iter r) = Ok [py "b2"; py "a"] /\ len r = 2.
Proof. split; reflexivity. Qed.

Example testGetIndexForName :
  let r := run [Register (py "a") (py "a") 20; Register (py "b") (py "b") 30] in
  fst (get_index_for_name r (py "a")) = Ok 1 /\
  fst (get_index_for_name r (py "b")) = Ok 0 /\
  fst (get_index_for_name r (py "c")) = Raise ValueError.
Proof. repeat split. Qed.

Example testDeregister :
  let r := run [Register (py "a") (py "a") 20; Register (py "b") (py "b") 30;
                Register (py "c") (py "c") 40; Deregister (py "b") true;
                Deregister (py "c") false; Deregister (py "d") false] in
  fst (iter r) = Ok [py "a"] /\ deregister r (py "e") true = Raise ValueError.
Proof. split; reflexivity. Qed.

(** Equal priorities: the later registration comes first. *)
Example ties_are_last_in_first_out :
  fst (iter (run [Register (py "a") (py "a") 20; Register (py "b") (py "b") 20;
                  Read; Register (py "c") (py "c") 20; Register (py "d") (py "d") 30]))
  = Ok [py "d"; py "c"; py "b"; py "a"].
Proof. reflexivity. Qed.

(** [testRegisterDupplicate]: the name [b] is registered, its index is
    that of its item in the iteration, and registering it anew replaces
    the item without growing the registry. *)
Lemma registry_iteration_order_witness :
  let r := run [Register (py "a") (py "a") 20; Register (py "b1") (py "b") 10] in
  contains r (py "b") = true /\
  (exists i, fst (get_index_for_name r (py "b")) = Ok i /\ i = 1) /\
  len (register r (py "b2") (py "b") 30) = len r /\
  Dict.get (py "b") (_data (register r (py "b2") (py "b") 30)) = Some (py "b2").
Proof.
  intros r.
  pose proof (registry_iteration_order str
                [Register (py "a") (py "a") 20; Register (py "b1") (py "b") 10]) as H.
  cbv zeta in H. fold r in H.
  destruct H as [entries [_ [_ [_ [_ [_ [Hi Hr]]]]]]].
  split; [reflexivity|]. split.
  - destruct (Hi (py "b") eq_refl) as [i [E _]]. exists i. split; [exact E|].
    assert (F : fst (get_index_for_name r (py "b")) = Ok 1) by reflexivity.
    rewrite F in E. now injection E.
  - apply Hr. reflexivity.
Defined.

End RegistryFacts.

(** ** The inline processor *)

Module Inline.
Import Etree.

(** What [handleMatch] returns for the matched span: nothing, a string, or
    an element. *)
Inductive produced :=
| PNone
| PText (s : str)
| PElement (e : Element).

(** Modelled from the spec: [markdown.inlinepatterns.InlineProcessor] is
    not among the sources.  A processor is a compiled pattern with
    [handleMatch] and the tag names of [ANCESTOR_EXCLUDES]; [handle data]
    is the first match of the pattern in [data] and what [handleMatch]
    returns for it: the replacement, the start and the end of the span. *)
Record InlineProcessor := mkIP {
  handle : str -> option (produced * nat * nat);
  ANCESTOR_EXCLUDES : list str
}.

(** The ancestor chain holds a tag that the processor excludes. *)
Definition excluded (p : InlineProcessor) (chain : list str) : bool :=
  existsb (fun tag => mem_str tag (ANCESTOR_EXCLUDES p)) chain.

(** A string of the output, or an element of it. *)
Inductive chunk :=
| CText (s : str)
| CElem (e : Element).

Definition chunks_of (r : produced) : list chunk :=
  match r with
  | PNone => []
  | PText s => [CText s]
  | PElement e => [CElem e]
  end.

Definition set_tail (e : Element) (x : option text_t) : Element :=
  let 'El t a txt c _ := e in El t a txt c x.

(** A string of the output as a text or tail. *)
Definition text_of_str (s : str) : option text_t := Some (plain s).

(** The chunks as a leading string and elements, each with the string
    that follows it as its tail. *)
Fixpoint assemble (cs : list chunk) : str * list Element :=
  match cs with
  | [] => ([], [])
  | CText s :: cs' => let '(t, els) := assemble cs' in (s ++ t, els)
  | CElem e :: cs' =>
      let '(t, els) := assemble cs' in ([], set_tail e (text_of_str t) :: els)
  end.

Section Engine.

(** The registry of inline processors, in the order of iteration: higher
    priority first. *)
Variable procs : list InlineProcessor.

(** Modelled from the spec: the earliest match across the registered
    patterns, ties going to the higher priority; a processor that the
    ancestor chain excludes is passed over. *)
Fixpoint earliest_from (l : list InlineProcessor) (chain : list str) (data : str)
  (best : option (produced * nat * nat)) : option (produced * nat * nat) :=
  match l with
  | [] => best
  | p :: l' =>
      let best' :=
        if excluded p chain then best
        else match handle p data, best with
             | Some (r, s, e), Some (_, s0, _) =>
                 if s <? s0 then Some (r, s, e) else best
             | Some m, None => Some m
             | None, _ => best
             end in
      earliest_from l' chain data best'
  end.

Definition earliest_match (chain : list str) (data : str) :=
  earliest_from procs chain data None.

(** Modelled from the spec: the matched span is replaced by what the
    processor returned, and the text before and after it is matched
    further, until no match remains.  A match consumes at least one
    character, so both texts are shorter than [data]; [fuel] counts the
    characters of [data]. *)
Fixpoint process_text (fuel : nat) (chain : list str) (data : str) : list chunk :=
  match fuel with
  | 0 => [CText data]
  | S fuel' =>
      match earliest_match chain data with
      | Some (r, s, e) =>
          if (s <? e) && (e <=? length data) then
            process_text fuel' chain (slice 0 s data)
            ++ chunks_of r
            ++ process_text fuel' chain (slice_from e data)
          else [CText data]
      | None => [CText data]
      end
  end.

Definition handle_inline (chain : list str) (data : str) : list chunk :=
  process_text (length data) chain data.

Definition is_atomic (x : option text_t) : bool :=
  match x with Some t => atomic t | None => false end.

(** Modelled from the spec: the inline tree processor.  It rewrites the
    text of the element and the tail of every child, skipping the strings
    flagged atomic; the elements that the processors return are spliced in
    and their own text is processed in turn.  The chain for a string is
    that of the element it stands in, the element included.  [depth] bounds
    the nesting of the tree and of the elements returned. *)
Fixpoint run_element (depth : nat) (chain : list str) (el : Element) : Element :=
  match depth with
  | 0 => el
  | S d =>
      let 'El tag attrib text children tail := el in
      let chain' := chain ++ [tag] in
      let '(text', front) :=
        match text with
        | Some t =>
            if atomic t then (text, [])
            else let '(s, els) := assemble (handle_inline chain' (body t)) in
                 (text_of_str s, els)
        | None => (None, [])
        end in
      let expand_child (k : Element) : list Element :=
        let k' := run_element d chain' k in
        match tail_of k with
        | Some t =>
            if atomic t then [k']
            else let '(s, els) := assemble (handle_inline chain' (body t)) in
                 set_tail k' (text_of_str s) :: map (run_element d chain') els
        | None => [k']
        end in
      El tag attrib text'
         (map (run_element d chain') front ++ flat_map expand_child children)
         tail
  end.

End Engine.

(** The processor of [TestAncestorExclusion] in [tests/test_apis.py]: the
    pattern is a plus sign, one or more characters that are not plus
    signs, and a plus sign; [handleMatch] returns a [strong] element
    holding group 2 and the span of the match. *)
Fixpoint plus_body (acc : str) (s : str) : option (str * nat) :=
  match s with
  | [] => None
  | c :: s' =>
      if Ascii.eqb c "+" then
        match acc with
        | [] => None
        | _ => Some (rev acc, length acc)
        end
      else plus_body (c :: acc) s'
  end.

(** The pattern at the start of [s]: group 2 and the length of the match. *)
Definition plus_here (s : str) : option (str * nat) :=
  match s with
  | c :: s' =>
      if Ascii.eqb c "+" then
        match plus_body [] s' with
        | Some (g, n) => Some (g, n + 2)
        | None => None
        end
      else None
  | [] => None
  end.

(** The first match in [s], from position [pos] on. *)
Fixpoint plus_search (pos : nat) (s : str) : option (str * nat * nat) :=
  match plus_here s with
  | Some (g, n) => Some (g, pos, pos + n)
  | None =>
      match s with
      | [] => None
      | _ :: s' => plus_search (S pos) s'
      end
  end.

Definition strong (x : str) : Element :=
  El (py "strong") [] (Some (plain x)) [] None.

Definition AncestorExample : InlineProcessor :=
  mkIP (fun data =>
          match plus_search 0 data with
          | Some (g, s, e) => Some (PElement (strong g), s, e)
          | None => None
          end)
       [py "a"].

(** Modelled from the spec: the serializer in its HTML mode, which is not
    among the sources, for elements with string tags.  Text and tails are
    escaped for [&], [<] and [>]; attribute values for these and the
    double quote; a void element has no end tag. *)
Fixpoint escape_cdata (s : str) : str :=
  match s with
  | [] => []
  | c :: s' =>
      (if Ascii.eqb c "&" then py "&amp;"
       else if Ascii.eqb c "<" then py "&lt;"
       else if Ascii.eqb c ">" then py "&gt;"
       else [c]) ++ escape_cdata s'
  end.

Definition dquote : ascii := "034"%char.

Fixpoint escape_attrib (s : str) : str :=
  match s with
  | [] => []
  | c :: s' =>
      (if Ascii.eqb c "&" then py "&amp;"
       else if Ascii.eqb c "<" then py "&lt;"
       else if Ascii.eqb c ">" then py "&gt;"
       else if Ascii.eqb c dquote then py "&quot;"
       else [c]) ++ escape_attrib s'
  end.

Definition serialize_text (x : option text_t) : str :=
  match x with
  | Some t => escape_cdata (body t)
  | None => []
  end.

Definition serialize_attrib (a : list (str * str)) : str :=
  flat_map (fun kv => py " " ++ fst kv ++ py "=" ++ [dquote]
                      ++ escape_attrib (snd kv) ++ [dquote]) a.

Definition void_elements : list str := [py "hr"; py "br"; py "img"; py "input"].

Fixpoint to_html_string (el : Element) : str :=
  let 'El tag attrib text children tail := el in
  py "<" ++ tag ++ serialize_attrib attrib ++ py ">"
  ++ (if mem_str tag void_elements then []
      else serialize_text text ++ flat_map to_html_string children
           ++ py "</" ++ tag ++ py ">")
  ++ serialize_text tail.

End Inline.

(** *** Atomic strings and ancestor exclusion *)

Module InlineFacts.
Import Etree Inline.

Lemma Element_induction (P : Element -> Prop) :
  (forall tag attrib text children tail,
     Forall P children -> P (El tag attrib text children tail)) ->
  forall e, P e.
Proof.
  intros H. fix IH 1. intros [tag attrib text children tail].
  apply H. induction children as [|k ks IHk]; constructor; [apply IH | exact IHk].
Qed.

(** [e'] keeps the atomic strings of [e]: the same element with the same
    atomic text and tail, its children kept in turn, and no element put
    in right after an atomic string.  [locked] tells that the string
    before the children at hand is atomic. *)
Inductive keeps : Element -> Element -> Prop :=
| keeps_el tag attrib text text' kids kids' tail tail' :
    (is_atomic text = true -> text' = text) ->
    (is_atomic tail = true -> tail' = tail) ->
    kids_keep (is_atomic text) kids kids' ->
    keeps (El tag attrib text kids tail) (El tag attrib text' kids' tail')
with kids_keep : bool -> list Element -> list Element -> Prop :=
| kk_nil locked : kids_keep locked [] []
| kk_new x kids kids' :
    kids_keep false kids kids' -> kids_keep false kids (x :: kids')
| kk_child locked k k' kids kids' :
    keeps k k' ->
    kids_keep (is_atomic (tail_of k)) kids kids' ->
    kids_keep locked (k :: kids) (k' :: kids').

(** Every string of the tree is atomic, or absent. *)
Definition skipped (x : option text_t) : bool :=
  match x with Some t => atomic t | None => true end.

Fixpoint all_atomic (e : Element) : bool :=
  let 'El _ _ text children tail := e in
  skipped text && skipped tail && forallb all_atomic children.

Lemma keeps_refl : forall e, keeps e e.
Proof.
  induction e as [tag attrib text children tail IH] using Element_induction.
  constructor; auto.
  generalize (is_atomic text) as locked.
  induction IH as [|k ks Hk _ IHks]; intros locked; constructor; auto.
Qed.

Lemma keeps_set_tail k k' x :
  keeps k k' -> is_atomic (tail_of k) = false -> keeps k (set_tail k' x).
Proof.
  intros H Ht. destruct H as [tag attrib text text' kids kids' tail tail' H1 H2 H3].
  cbn in *. constructor; auto. intros E. congruence.
Qed.

Lemma kids_keep_new front kids kids' :
  kids_keep false kids kids' -> kids_keep false kids (front ++ kids').
Proof. induction front; cbn; [auto | intros; constructor; auto]. Qed.

Section WithProcessors.

Variable procs : list InlineProcessor.

Lemma run_element_tail depth chain e :
  tail_of (run_element procs depth chain e) = tail_of e.
Proof.
  destruct depth; [reflexivity|]. destruct e as [tag attrib text kids tail].
  cbn [run_element].
  destruct text as [t|]; [destruct (atomic t)|]; try reflexivity.
  now destruct (assemble _).
Qed.

(** The tree processor keeps the atomic strings, at every depth. *)
Lemma run_element_keeps : forall depth chain e,
  keeps e (run_element procs depth chain e).
Proof.
  induction depth as [|d IH]; intros chain e; [apply keeps_refl|].
  destruct e as [tag attrib text kids tail]. cbn [run_element].
  set (chain' := chain ++ [tag]).
  set (expand := fun k : Element =>
                   match tail_of k with
                   | Some t =>
                       if atomic t then [run_element procs d chain' k]
                       else let '(s, els) := assemble (handle_inline procs chain' (body t)) in
                            set_tail (run_element procs d chain' k) (text_of_str s)
                            :: map (run_element procs d chain') els
                   | None => [run_element procs d chain' k]
                   end).
  assert (K : forall locked, kids_keep locked kids (flat_map expand kids)).
  { induction kids as [|k ks IHk]; intros locked; [constructor|].
    cbn [flat_map]. unfold expand at 1.
    destruct (tail_of k) as [t|] eqn:Et.
    - destruct (atomic t) eqn:Ea.
      + cbn [app]. constructor; [apply IH|]. rewrite Et. cbn. rewrite Ea. apply IHk.
      + destruct (assemble _) as [s els]. cbn [app].
        constructor.
        * apply keeps_set_tail; [apply IH|]. rewrite Et. exact Ea.
        * rewrite Et. cbn. rewrite Ea. apply kids_keep_new, IHk.
    - cbn [app]. constructor; [apply IH|]. rewrite Et. cbn. apply IHk. }
  destruct text as [t|].
  - destruct (atomic t) eqn:Ea.
    + constructor; [reflexivity | reflexivity |].
      cbn [map app is_atomic]. rewrite Ea. apply K.
    + destruct (assemble _) as [s els]. constructor; [| reflexivity |].
      * cbn. rewrite Ea. discriminate.
      * cbn [is_atomic]. rewrite Ea. apply kids_keep_new, K.
  - constructor; [reflexivity | reflexivity |]. cbn [map app is_atomic]. apply K.
Qed.

(** A tree whose strings are all atomic comes back as it is. *)
Lemma run_element_all_atomic : forall depth chain e,
  all_atomic e = true -> run_element procs depth chain e = e.
Proof.
  induction depth as [|d IH]; intros chain e H; [reflexivity|].
  destruct e as [tag attrib text kids tail]. cbn [all_atomic] in H.
  apply andb_true_iff in H. destruct H as [H Hk].
  apply andb_true_iff in H. destruct H as [Ht _].
  cbn [run_element].
  assert (K : flat_map
                (fun k : Element =>
                   match tail_of k with
                   | Some t =>
                       if atomic t then [run_element procs d (chain ++ [tag]) k]
                       else let '(s, els) :=
                              assemble (handle_inline procs (chain ++ [tag]) (body t)) in
                            set_tail (run_element procs d (chain ++ [tag]) k) (text_of_str s)
                            :: map (run_element procs d (chain ++ [tag])) els
                   | None => [run_element procs d (chain ++ [tag]) k]
                   end) kids = kids).
  { induction kids as [|k ks IHk]; [reflexivity|].
    cbn [forallb] in Hk. apply andb_true_iff in Hk. destruct Hk as [H1 H2].
    cbn [flat_map]. rewrite (IHk H2), (IH _ k H1).
    destruct k as [tg at_ tx ch tl]. cbn [all_atomic] in H1.
    apply andb_true_iff in H1. destruct H1 as [H1 _].
    apply andb_true_iff in H1. destruct H1 as [_ H1].
    cbn [tail_of]. destruct tl as [t|]; [|reflexivity].
    cbn in H1. now rewrite H1. }
  rewrite K. destruct text as [t|]; [|reflexivity].
  cbn in Ht. now rewrite Ht.
Qed.

End WithProcessors.

(** C2. The inline tree processor leaves every text and tail flagged
    atomic as it is, at every nesting depth, and puts no element in after
    it; a tree whose strings are all atomic comes back unchanged, and so
    does its serialization; the serializer treats an atomic string as the
    plain string, escaping it and nothing more. *)
Theorem atomic_strings_are_kept procs depth chain e :
  keeps e (run_element procs depth chain e) /\
  (if all_atomic e
   then run_element procs depth chain e = e /\
        to_html_string (run_element procs depth chain e) = to_html_string e
   else True) /\
  (forall s,
     serialize_text (Some (AtomicString s)) = escape_cdata s /\
     serialize_text (Some (AtomicString s)) = serialize_text (Some (plain s))) /\
  (forall tag s,
     mem_str tag void_elements = false ->
     to_html_string
       (run_element procs depth chain (El tag [] (Some (AtomicString s)) [] None))
     = py "<" ++ tag ++ py ">" ++ escape_cdata s ++ py "</" ++ tag ++ py ">").
Proof.
  split; [apply run_element_keeps|]. split; [|split].
  - destruct (all_atomic e) eqn:E; [|exact I].
    rewrite (run_element_all_atomic procs depth chain e E). auto.
  - intros s. split; reflexivity.
  - intros tag s Hv.
    rewrite (run_element_all_atomic procs depth chain
               (El tag [] (Some (AtomicString s)) [] None) eq_refl).
    cbn [to_html_string serialize_attrib flat_map serialize_text AtomicString body app].
    rewrite Hv. now rewrite !app_nil_r.
Qed.

(** [testNestedAtomicString]: nested spans whose texts and tails are
    atomic. *)
Definition nested_atomic : Element :=
  El (py "p") [] (Some (AtomicString (py "+some+ ")))
    [El (py "span") [] (Some (AtomicString (py "+text+ ")))
       [El (py "span") [] (Some (AtomicString (py "+here+"))) []
          (Some (AtomicString (py " +to+")))]
       (Some (AtomicString (py " +test+")))] None.

Lemma atomic_strings_are_kept_witness :
  to_html_string (run_element [AncestorExample] 5 [] nested_atomic)
  = py "<p>+some+ <span>+text+ <span>+here+</span> +to+</span> +test+</p>" /\
  (mem_str (py "p") void_elements = false /\
   to_html_string
     (run_element [AncestorExample] 5 []
        (El (py "p") [] (Some (AtomicString (py "some +text+"))) [] None))
   = py "<p>some +text+</p>").
Proof.
  destruct (atomic_strings_are_kept [AncestorExample] 5 [] nested_atomic)
    as [_ [H [_ V]]].
  split; [|split; [reflexivity|]].
  - change (all_atomic nested_atomic) with true in H. cbv beta iota in H.
    destruct H as [_ H]. rewrite H. reflexivity.
  - exact (V (py "p") (py "some +text+") eq_refl).
Defined.

















End InlineFacts.

(** ** Lists and slices *)

Module ListFacts.

Lemma skipn_cons_nth {A} (row : list A) pos c s :
  skipn pos row = c :: s ->
  nth_error row pos = Some c /\ skipn (S pos) row = s /\ S pos <= length row.
Proof.
  revert row. induction pos as [|pos IH]; intros [|x row] H; cbn in H; try discriminate.
  - injection H as -> ->. cbn. repeat split. lia.
  - destruct (IH row H) as [H1 [H2 H3]]. cbn [length]. repeat split; auto. lia.
Qed.

Lemma firstn_skipn_cons {A} (row : list A) p c :
  nth_error row p = Some c -> skipn p row = c :: skipn (S p) row.
Proof.
  revert row. induction p as [|p IH]; intros [|x row] H; cbn in H; try discriminate.
  - now injection H as ->.
  - cbn [skipn]. now apply IH.
Qed.

Lemma filter_keep {A} (f : A -> bool) l :
  (forall x, In x l -> f x = true) -> filter f l = l.
Proof.
  induction l as [|x l IH]; intros H; [reflexivity|].
  cbn. rewrite (H x (or_introl eq_refl)). f_equal. apply IH. intros y Hy. apply H. now right.
Qed.

Lemma filter_drop {A} (f : A -> bool) l :
  (forall x, In x l -> f x = false) -> filter f l = [].
Proof.
  induction l as [|x l IH]; intros H; [reflexivity|].
  cbn. rewrite (H x (or_introl eq_refl)). apply IH. intros y Hy. apply H. now right.
Qed.

(** [l[:s] + l[s:e] + l[e:]] is [l]. *)
Lemma slice_split {A} (l : list A) s e :
  s <= e -> firstn s l ++ slice s e l ++ skipn e l = l.
Proof.
  intros H. unfold slice.
  replace (skipn e l) with (skipn (e - s) (skipn s l))
    by (rewrite skipn_skipn; f_equal; lia).
  rewrite (firstn_skipn (e - s) (skipn s l)). apply firstn_skipn.
Qed.

(** A slice that ends within the first [k] elements is a slice of
    them. *)
Lemma slice_firstn {A} (l : list A) s e k :
  e <= k -> slice s e (firstn k l) = slice s e l.
Proof.
  intros H. unfold slice. rewrite skipn_firstn_comm, firstn_firstn.
  f_equal. lia.
Qed.

End ListFacts.

(** *** How [_split] cuts a row *)

Module TablesSplitFacts.
Import Etree Tables ListFacts.

(** [sep.join(l)] *)
Fixpoint join_with (sep : str) (l : list str) : str :=
  match l with
  | [] => []
  | [x] => x
  | x :: l' => x ++ sep ++ join_with sep l'
  end.

Lemma join_with_cons sep x (l : list str) :
  l <> [] -> join_with sep (x :: l) = x ++ sep ++ join_with sep l.
Proof. destruct l; [contradiction | reflexivity]. Qed.

(** The positions [pipes] are increasing, not below [lo], and [row] has
    a pipe at each. *)
Fixpoint pipes_at (row : str) (lo : nat) (pipes : list nat) : Prop :=
  match pipes with
  | [] => True
  | p :: ps => lo <= p /\ nth_error row p = Some pipe /\ pipes_at row (S p) ps
  end.

Lemma pipes_at_weaken row pipes : forall lo lo',
  lo' <= lo -> pipes_at row lo pipes -> pipes_at row lo' pipes.
Proof.
  destruct pipes as [|p ps]; intros lo lo' H; cbn; [auto|].
  intros [H1 H2]. split; [lia | exact H2].
Qed.

Lemma pipes_at_filter row f pipes : forall lo,
  pipes_at row lo pipes -> pipes_at row lo (filter f pipes).
Proof.
  induction pipes as [|p ps IH]; intros lo; cbn [filter pipes_at]; [auto|].
  intros [H1 [H2 H3]]. destruct (f p).
  - cbn [pipes_at]. auto.
  - apply (pipes_at_weaken row _ (S p)); [lia | auto].
Qed.

Lemma collect_pipes p m ms :
  snd (collect ((p, m) :: ms))
  = match m with MPipe => p :: snd (collect ms) | _ => snd (collect ms) end.
Proof. cbn [collect]. destruct (collect ms) as [tics pipes]. now destruct m. Qed.

Lemma collect_tics p m ms :
  fst (collect ((p, m) :: ms))
  = match m with
    | MEscTics n => mkTic n p (p + S n - 1) 1 :: fst (collect ms)
    | MTics n => mkTic n p (p + n - 1) 0 :: fst (collect ms)
    | _ => fst (collect ms)
    end.
Proof. cbn [collect]. destruct (collect ms) as [tics pipes]. now destruct m. Qed.

Lemma code_pipes_here_pipe c s n :
  code_pipes_here (c :: s) = Some (MPipe, n) -> c = pipe.
Proof.
  cbn [code_pipes_here].
  destruct (Ascii.eqb c backslash).
  - destruct s as [|d s]; [discriminate|].
    destruct (Ascii.eqb d backslash); [discriminate|].
    destruct (Ascii.eqb d backtick); [discriminate|].
    destruct (Ascii.eqb d pipe); discriminate.
  - destruct (Ascii.eqb c backtick); [discriminate|].
    destruct (Ascii.eqb c pipe) eqn:E; [|discriminate].
    intros _. now apply Ascii.eqb_eq.
Qed.

(** The pipes that [finditer] records are pipes of the row, from left to
    right. *)
Lemma finditer_pipes row : forall s skip pos,
  skipn pos row = s ->
  pipes_at row pos (snd (collect (finditer skip pos s))).
Proof.
  induction s as [|c s IH]; intros skip pos H; [exact I|].
  destruct (skipn_cons_nth _ _ _ _ H) as [Hc [Hs _]].
  cbn [finditer]. destruct skip as [|k].
  - destruct (code_pipes_here (c :: s)) as [[m len]|] eqn:E.
    + rewrite collect_pipes.
      destruct m; try (apply (pipes_at_weaken row _ (S pos)); [lia | now apply IH]).
      cbn [pipes_at]. apply code_pipes_here_pipe in E. subst c.
      repeat split; [lia | exact Hc | now apply IH].
    + apply (pipes_at_weaken row _ (S pos)); [lia | now apply IH].
  - apply (pipes_at_weaken row _ (S pos)); [lia | now apply IH].
Qed.

Lemma cut_nonempty row pipes : forall pos, cut row pos pipes <> [].
Proof. destruct pipes; intros pos; cbn; discriminate. Qed.

(** Joining the cells that [cut] gives with pipes spells the row from
    [pos] on. *)
Lemma cut_join row pipes : forall pos,
  pipes_at row pos pipes ->
  join_with [pipe] (cut row pos pipes) = skipn pos row.
Proof.
  induction pipes as [|p ps IH]; intros pos H; [reflexivity|].
  destruct H as [H1 [H2 H3]].
  cbn [cut]. rewrite join_with_cons by apply cut_nonempty.
  rewrite (IH (S p) H3). unfold slice.
  replace (skipn pos row) with (firstn (p - pos) (skipn pos row) ++ skipn (p - pos) (skipn pos row))
    at 2 by apply firstn_skipn.
  f_equal. rewrite skipn_skipn. replace (p - pos + pos) with p by lia.
  cbn [app]. symmetry. now apply firstn_skipn_cons.
Qed.

(** X1. The cells of a row, joined by pipes, spell the row: [_split] drops
    nothing but the pipes it cuts at, and a row always has a cell. *)
Theorem split_join_round_trip row :
  join_with [pipe] (_split row) = row /\ _split row <> [].
Proof.
  unfold _split.
  pose proof (finditer_pipes row row 0 0 eq_refl) as H.
  destruct (collect (finditer 0 0 row)) as [tics pipes]. cbn [snd] in H.
  split; [|apply cut_nonempty].
  unfold good_pipes. rewrite cut_join; [reflexivity|].
  now apply pipes_at_filter.
Qed.

(** Neither a backslash nor a backtick in [s]. *)
Definition no_code (s : str) : bool :=
  forallb (fun c => negb (Ascii.eqb c backslash) && negb (Ascii.eqb c backtick)) s.

(** The positions of the pipes of [s], which starts at [pos]. *)
Fixpoint pipe_positions (pos : nat) (s : str) : list nat :=
  match s with
  | [] => []
  | c :: s' =>
      if Ascii.eqb c pipe then pos :: pipe_positions (S pos) s'
      else pipe_positions (S pos) s'
  end.

(** [l1] and [l2] with the last cell of [l1] and the first of [l2] made
    one. *)
Definition glue (l1 l2 : list str) : list str :=
  removelast l1 ++ (last l1 [] ++ hd [] l2) :: tl l2.

Lemma pipe_positions_bounds s : forall pos p,
  In p (pipe_positions pos s) -> pos <= p < pos + length s.
Proof.
  induction s as [|c s IH]; intros pos p H; [contradiction|].
  cbn [pipe_positions] in H. cbn [length].
  destruct (Ascii.eqb c pipe).
  - destruct H as [<-|H]; [lia|]. apply IH in H. lia.
  - apply IH in H. lia.
Qed.

Lemma collect_app l1 l2 :
  collect (l1 ++ l2)
  = (fst (collect l1) ++ fst (collect l2), snd (collect l1) ++ snd (collect l2)).
Proof.
  induction l1 as [|[p m] l1 IH]; cbn [app].
  - cbn. now destruct (collect l2).
  - cbn [collect]. rewrite IH. destruct (collect l1) as [t1 p1].
    cbn [fst snd]. now destruct m.
Qed.

Lemma collect_pipe_matches l :
  collect (map (fun p => (p, MPipe)) l) = ([], l).
Proof. induction l as [|p l IH]; [reflexivity|]. cbn [map collect]. now rewrite IH. Qed.

(** Where there is no backslash and no backtick, [finditer] finds the
    pipes and nothing else. *)
Lemma finditer_no_code x y : forall pos,
  no_code x = true ->
  finditer 0 pos (x ++ y)
  = map (fun p => (p, MPipe)) (pipe_positions pos x) ++ finditer 0 (pos + length x) y.
Proof.
  induction x as [|c x IH]; intros pos H.
  - cbn. now rewrite Nat.add_0_r.
  - cbn [no_code forallb] in H. apply andb_true_iff in H. destruct H as [Hc Hx].
    apply andb_true_iff in Hc. destruct Hc as [H1 H2].
    apply negb_true_iff in H1, H2.
    cbn [app finditer code_pipes_here pipe_positions length]. rewrite H1, H2.
    replace (pos + S (length x)) with (S pos + length x) by lia.
    destruct (Ascii.eqb c pipe); cbn [Nat.sub map app]; now rewrite (IH (S pos) Hx).
Qed.

Lemma good_pipes_all pipes : good_pipes pipes [] = pipes.
Proof.
  unfold good_pipes. induction pipes as [|p l IH]; [reflexivity|].
  cbn [filter]. cbn [throw_out negb]. f_equal. exact IH.
Qed.

Lemma slice_cons (row : str) pos p c :
  nth_error row pos = Some c -> S pos <= p ->
  slice pos p row = c :: slice (S pos) p row.
Proof.
  intros H Hp. unfold slice. rewrite (firstn_skipn_cons row pos c H).
  replace (p - pos) with (S (p - S pos)) by lia. reflexivity.
Qed.

Lemma cut_step (row : str) pos c ps :
  nth_error row pos = Some c ->
  (forall p, hd_error ps = Some p -> S pos <= p) ->
  cut row pos ps
  = match cut row (S pos) ps with
    | w :: ws => (c :: w) :: ws
    | [] => []
    end.
Proof.
  intros H Hp. destruct ps as [|p ps]; cbn [cut].
  - unfold slice_from. now rewrite (firstn_skipn_cons row pos c H).
  - now rewrite (slice_cons row pos p c H (Hp p eq_refl)).
Qed.

Lemma split_on_nonempty c s : split_on c s <> [].
Proof.
  destruct s as [|x s]; cbn; [discriminate|].
  destruct (Ascii.eqb x c); [discriminate|]. destruct (split_on c s); discriminate.
Qed.

Lemma glue_cons_cell w (l1 l2 : list str) :
  l1 <> [] -> glue (w :: l1) l2 = w :: glue l1 l2.
Proof. unfold glue. destruct l1; [contradiction | reflexivity]. Qed.

Lemma glue_cons_char c w (l1 l2 : list str) :
  glue ((c :: w) :: l1) l2
  = match glue (w :: l1) l2 with
    | v :: vs => (c :: v) :: vs
    | [] => []
    end.
Proof. unfold glue. destruct l1; reflexivity. Qed.

(** Cutting [x ++ y] at the pipes of the part [s] of [x] that starts at
    [pos] and at positions [qs] of [y]. *)
Lemma cut_glue x y qs : forall s pos,
  skipn pos x = s -> pos <= length x ->
  (forall p, hd_error qs = Some p -> length x <= p) ->
  cut (x ++ y) pos (pipe_positions pos s ++ qs)
  = glue (split_on pipe s) (cut (x ++ y) (length x) qs).
Proof.
  induction s as [|c s IH]; intros pos Hs Hle Hq.
  - assert (pos = length x).
    { apply (f_equal (@length _)) in Hs. rewrite length_skipn in Hs. cbn in Hs. lia. }
    subst pos. cbn [pipe_positions app split_on]. unfold glue. cbn.
    destruct (cut (x ++ y) (length x) qs) eqn:E; [now apply cut_nonempty in E|].
    reflexivity.
  - destruct (skipn_cons_nth _ _ _ _ Hs) as [Hc [Hs' _]].
    assert (Hlt : pos < length x).
    { apply (f_equal (@length _)) in Hs. rewrite length_skipn in Hs. cbn in Hs. lia. }
    assert (Hc' : nth_error (x ++ y) pos = Some c) by (rewrite nth_error_app1; assumption).
    cbn [pipe_positions split_on]. destruct (Ascii.eqb c pipe) eqn:E.
    + cbn [app cut]. rewrite (IH (S pos) Hs' Hlt Hq).
      unfold slice. rewrite Nat.sub_diag. cbn [firstn].
      symmetry. apply glue_cons_cell, split_on_nonempty.
    + rewrite cut_step with (c := c); [|exact Hc'|].
      * rewrite (IH (S pos) Hs' Hlt Hq).
        destruct (split_on pipe s) as [|w ws] eqn:Ew; [now apply split_on_nonempty in Ew|].
        now rewrite glue_cons_char.
      * intros p Hp. destruct (pipe_positions (S pos) s) as [|p' ps'] eqn:Ep.
        -- cbn [app] in Hp. specialize (Hq p Hp). lia.
        -- cbn in Hp. injection Hp as <-.
           assert (In p' (pipe_positions (S pos) s)) by (rewrite Ep; now left).
           apply pipe_positions_bounds in H. lia.
Qed.

Lemma glue_nil_r (l : list str) : l <> [] -> glue l [[]] = l.
Proof.
  intros H. unfold glue. cbn. rewrite app_nil_r.
  symmetry. now apply app_removelast_last.
Qed.

Lemma cut_all (row : str) s pos :
  skipn pos row = s -> pos <= length row ->
  cut row pos (pipe_positions pos s) = split_on pipe s.
Proof.
  intros Hs Hle.
  pose proof (cut_glue row [] [] s pos Hs Hle) as G.
  rewrite !app_nil_r in G. rewrite G by discriminate.
  cbn [cut]. unfold slice_from. rewrite skipn_all.
  apply glue_nil_r, split_on_nonempty.
Qed.

(** X2. A row without backslashes and backticks is cut at every pipe, as
    [row.split('|')] cuts it; a row without a pipe is one cell. *)
Theorem split_without_code row :
  no_code row = true ->
  _split row = split_on pipe row /\
  (mem_char pipe row = false -> _split row = [row]).
Proof.
  intros H.
  assert (E : _split row = split_on pipe row).
  { unfold _split.
    pose proof (finditer_no_code row [] 0 H) as F. rewrite app_nil_r in F.
    rewrite F. cbn [finditer]. rewrite app_nil_r, collect_pipe_matches.
    cbn [pair_tics]. rewrite good_pipes_all.
    apply cut_all; [reflexivity | lia]. }
  split; [exact E|]. intros Hp. rewrite E. clear E H.
  induction row as [|c row IH]; [reflexivity|].
  unfold mem_char in *. cbn [existsb] in Hp. apply orb_false_iff in Hp.
  destruct Hp as [H1 H2]. cbn [split_on]. rewrite Ascii.eqb_sym, H1.
  now rewrite (IH H2).
Qed.

Lemma split_without_code_witness :
  no_code (py "a|b c||d") = true /\
  _split (py "a|b c||d") = [py "a"; py "b c"; []; py "d"].
Proof.
  split; [reflexivity|].
  rewrite (proj1 (split_without_code (py "a|b c||d") eq_refl)). reflexivity.
Defined.

Lemma count_tics_no_code s : no_code s = true -> count_tics s = 0.
Proof.
  destruct s as [|c s]; [reflexivity|]. cbn [no_code forallb count_tics].
  intros H. apply andb_true_iff in H. destruct H as [H _].
  apply andb_true_iff in H. destruct H as [_ H]. apply negb_true_iff in H.
  now rewrite H.
Qed.

Lemma finditer_tick pos s :
  count_tics s = 0 ->
  finditer 0 pos (backtick :: s) = (pos, MTics 1) :: finditer 0 (S pos) s.
Proof.
  intros H. cbn [finditer code_pipes_here count_tics].
  change (Ascii.eqb backtick backslash) with false.
  change (Ascii.eqb backtick backtick) with true. cbv iota. now rewrite H.
Qed.

Lemma cut_first (row : str) pos pos' ps :
  pos <= pos' ->
  (forall p, hd_error ps = Some p -> pos' <= p) ->
  cut row pos ps
  = match cut row pos' ps with
    | w :: ws => (slice pos pos' row ++ w) :: ws
    | [] => []
    end.
Proof.
  intros Hle Hp. unfold slice. destruct ps as [|p ps]; cbn [cut].
  - unfold slice_from. f_equal.
    replace pos' with ((pos' - pos) + pos) at 2 by lia.
    rewrite <- skipn_skipn. symmetry. apply firstn_skipn.
  - f_equal. specialize (Hp p eq_refl). unfold slice.
    replace (p - pos) with ((pos' - pos) + (p - pos')) by lia.
    rewrite HtmlParserFacts.firstn_add, skipn_skipn.
    now replace (pos' - pos + pos) with pos' by lia.
Qed.

(** X3. A code span, between two backticks, keeps its pipes: the row is
    cut at the pipes before and after the span only, and the span
    continues the cell before it and is continued by the one after it. *)
Theorem code_span_keeps_pipes a code b :
  no_code a = true -> no_code code = true -> no_code b = true -> code <> [] ->
  _split (a ++ [backtick] ++ code ++ [backtick] ++ b)
  = glue (split_on pipe a)
         (glue [[backtick] ++ code ++ [backtick]] (split_on pipe b)).
Proof.
  intros Ha Hc Hb Hn. cbn [app].
  set (row := a ++ backtick :: code ++ backtick :: b).
  set (P := S (length a) + length code).
  assert (F : finditer 0 0 row
              = map (fun p => (p, MPipe)) (pipe_positions 0 a)
                ++ (length a, MTics 1)
                   :: map (fun p => (p, MPipe)) (pipe_positions (S (length a)) code)
                   ++ (P, MTics 1)
                      :: map (fun p => (p, MPipe)) (pipe_positions (S P) b)).
  { unfold row. rewrite (finditer_no_code a _ 0 Ha). cbn [Nat.add]. f_equal.
    rewrite finditer_tick.
    2:{ destruct code as [|c code]; [contradiction|].
        cbn [app count_tics]. cbn [no_code forallb] in Hc.
        apply andb_true_iff in Hc. destruct Hc as [Hc _].
        apply andb_true_iff in Hc. destruct Hc as [_ Hc].
        apply negb_true_iff in Hc. now rewrite Hc. }
    f_equal. rewrite (finditer_no_code code _ (S (length a)) Hc). f_equal. fold P.
    rewrite finditer_tick by now apply count_tics_no_code.
    f_equal. rewrite <- (app_nil_r b) at 1. rewrite (finditer_no_code b [] (S P) Hb).
    cbn [finditer]. apply app_nil_r. }
  unfold _split. rewrite F.
  rewrite (surjective_pairing (collect _)).
  rewrite collect_app, collect_pipe_matches. cbn [fst snd app].
  rewrite collect_tics, collect_pipes.
  rewrite collect_app, collect_pipe_matches. cbn [fst snd app].
  rewrite collect_tics, collect_pipes, collect_pipe_matches. cbn [fst snd].
  cbn [pair_tics tic_len tic_esc tic_start tic_end Nat.sub Nat.eqb tic_index nth].
  replace (P + 1 - 1) with P by lia.
  assert (G : good_pipes (pipe_positions 0 a ++ pipe_positions (S (length a)) code
                          ++ pipe_positions (S P) b) [(length a, P)]
              = pipe_positions 0 a ++ pipe_positions (S P) b).
  { unfold good_pipes. rewrite !filter_app.
    rewrite filter_keep, filter_drop, filter_keep; [reflexivity| | |].
    - intros p Hp. apply pipe_positions_bounds in Hp. cbn [throw_out].
      replace (p <? length a) with false by (symmetry; apply Nat.ltb_ge; lia).
      replace (length a <=? p) with true by (symmetry; apply Nat.leb_le; lia).
      replace (p <=? P) with false by (symmetry; apply Nat.leb_gt; lia).
      reflexivity.
    - intros p Hp. apply pipe_positions_bounds in Hp. cbn [throw_out].
      replace (p <? length a) with false by (symmetry; apply Nat.ltb_ge; lia).
      replace (length a <=? p) with true by (symmetry; apply Nat.leb_le; lia).
      replace (p <=? P) with true by (symmetry; apply Nat.leb_le; unfold P; lia).
      reflexivity.
    - intros p Hp. apply pipe_positions_bounds in Hp. cbn [throw_out].
      replace (p <? length a) with true by (symmetry; apply Nat.ltb_lt; lia).
      reflexivity. }
  rewrite G. clear G F.
  assert (Hq : forall p, hd_error (pipe_positions (S P) b) = Some p -> S P <= p).
  { intros p Hp. destruct (pipe_positions (S P) b) as [|q qs] eqn:E; [discriminate|].
    cbn in Hp. injection Hp as <-.
    assert (In q (pipe_positions (S P) b)) by (rewrite E; now left).
    apply pipe_positions_bounds in H. lia. }
  unfold row at 1.
  rewrite (cut_glue a _ _ a 0 eq_refl (Nat.le_0_l _))
    by (intros p Hp; apply Hq in Hp; unfold P in Hp; lia).

  fold row. f_equal.
  assert (Hrow : row = (a ++ backtick :: code ++ [backtick]) ++ b).
  { unfold row. rewrite <- app_assoc. cbn [app]. now rewrite <- app_assoc. }
  assert (HP : length (a ++ backtick :: code ++ [backtick]) = S P).
  { rewrite length_app. cbn [length]. rewrite length_app. cbn. unfold P. lia. }
  rewrite (cut_first row (length a) (S P)) by (unfold P; lia || exact Hq).
  rewrite cut_all.
  2:{ rewrite Hrow, <- HP, skipn_app, skipn_all, Nat.sub_diag. reflexivity. }
  2:{ rewrite Hrow, length_app, HP. lia. }
  destruct (split_on pipe b) as [|w ws] eqn:E; [now apply split_on_nonempty in E|].
  unfold glue. cbn [removelast last hd tl app]. f_equal. f_equal.
  unfold slice, row. rewrite skipn_app, skipn_all, Nat.sub_diag. cbn [skipn app].
  replace (S P - length a) with (length (backtick :: code ++ [backtick]))
    by (cbn [length]; rewrite length_app; cbn [length]; unfold P; lia).
  change (backtick :: code ++ backtick :: b)
    with (backtick :: (code ++ backtick :: b)).
  replace (backtick :: (code ++ backtick :: b))
    with ((backtick :: code ++ [backtick]) ++ b)
    by (cbn [app]; now rewrite <- app_assoc).
  rewrite firstn_app, firstn_all, Nat.sub_diag. cbn [firstn]. now rewrite app_nil_r.
Qed.

(** X4. A pipe after a backslash is no delimiter: the row is cut at the
    other pipes, and the escaped pipe stays, with its backslash, in its
    cell. *)
Theorem escaped_pipe_is_kept a b :
  no_code a = true -> no_code b = true ->
  _split (a ++ [backslash; pipe] ++ b)
  = glue (split_on pipe a) (glue [[backslash; pipe]] (split_on pipe b)).
Proof.
  intros Ha Hb. cbn [app].
  set (row := a ++ backslash :: pipe :: b).
  assert (F : finditer 0 0 row
              = map (fun p => (p, MPipe)) (pipe_positions 0 a)
                ++ (length a, MEscPipe)
                   :: map (fun p => (p, MPipe)) (pipe_positions (S (S (length a))) b)).
  { unfold row. rewrite (finditer_no_code a _ 0 Ha). cbn [Nat.add]. f_equal.
    cbn [finditer code_pipes_here Nat.sub].
    change (Ascii.eqb backslash backslash) with true.
    change (Ascii.eqb pipe backslash) with false.
    change (Ascii.eqb pipe backtick) with false.
    change (Ascii.eqb pipe pipe) with true. cbv iota. cbn [Nat.sub]. f_equal.
    rewrite <- (app_nil_r b) at 1.
    rewrite (finditer_no_code b [] (S (S (length a))) Hb).
    cbn [finditer]. apply app_nil_r. }
  unfold _split. rewrite F.
  rewrite (surjective_pairing (collect _)).
  rewrite collect_app, collect_pipe_matches. cbn [fst snd app].
  rewrite collect_tics, collect_pipes, collect_pipe_matches. cbn [fst snd].
  cbn [pair_tics]. rewrite good_pipes_all. clear F.
  assert (Hq : forall p, hd_error (pipe_positions (S (S (length a))) b) = Some p ->
                         S (S (length a)) <= p).
  { intros p Hp. destruct (pipe_positions (S (S (length a))) b) as [|q qs] eqn:E;
      [discriminate|].
    cbn in Hp. injection Hp as <-.
    assert (In q (pipe_positions (S (S (length a))) b)) by (rewrite E; now left).
    apply pipe_positions_bounds in H. lia. }
  unfold row at 1.
  rewrite (cut_glue a _ _ a 0 eq_refl (Nat.le_0_l _))
    by (intros p Hp; apply Hq in Hp; lia).
  fold row. f_equal.
  assert (Hrow : row = (a ++ [backslash; pipe]) ++ b)
    by (unfold row; now rewrite <- app_assoc).
  assert (HP : length (a ++ [backslash; pipe]) = S (S (length a)))
    by (rewrite length_app; cbn; lia).
  rewrite (cut_first row (length a) (S (S (length a)))) by (lia || exact Hq).
  rewrite cut_all.
  2:{ rewrite Hrow, <- HP, skipn_app, skipn_all, Nat.sub_diag. reflexivity. }
  2:{ rewrite Hrow, length_app, HP. lia. }
  destruct (split_on pipe b) as [|w ws] eqn:E; [now apply split_on_nonempty in E|].
  unfold glue. cbn [removelast last hd tl app]. f_equal. f_equal.
  unfold slice, row. rewrite skipn_app, skipn_all, Nat.sub_diag. cbn [skipn app].
  replace (S (S (length a)) - length a) with 2 by lia. reflexivity.
Qed.

Lemma escaped_pipe_is_kept_witness :
  _split (py "a|b \| c|d") = [py "a"; py "b \| c"; py "d"].
Proof.
  exact (escaped_pipe_is_kept (py "a|b ") (py " c|d") eq_refl eq_refl).
Defined.

Lemma code_span_keeps_pipes_witness :
  _split (py "a|b `x|y` c|d")
  = [py "a"; py "b `x|y` c"; py "d"].
Proof.
  exact (code_span_keeps_pipes (py "a|b ") (py "x|y") (py " c|d")
           eq_refl eq_refl eq_refl ltac:(discriminate)).
Defined.

Lemma str_eqb_app_pipe_nl (s : str) : str_eqb (s ++ [pipe]) [nl] = false.
Proof.
  destruct s as [|c s]; [reflexivity|]. cbn [app str_eqb].
  destruct s; cbn; now rewrite andb_false_r.
Qed.

Lemma end_border_search_last body : forall pos,
  mem_char backslash body = false ->
  end_border_search false pos (body ++ [pipe]) = Some (pos + length body).
Proof.
  induction body as [|c body IH]; intros pos H.
  - cbn. now rewrite Nat.add_0_r.
  - unfold mem_char in H. cbn [existsb] in H. apply orb_false_iff in H.
    destruct H as [Hc Hb]. rewrite Ascii.eqb_sym in Hc.
    cbn [app end_border_search negb andb].
    assert (E : end_border_here (c :: body ++ [pipe]) = false).
    { destruct (body ++ [pipe]) as [|d r] eqn:Eb; [now destruct body|].
      cbn [end_border_here]. rewrite Hc. cbn [andb].
      rewrite <- Eb, str_eqb_app_pipe_nl. apply andb_false_r. }
    rewrite E, Hc. rewrite (IH (S pos) Hb). cbn [length]. f_equal. lia.
Qed.

Lemma end_border_sub_last body :
  mem_char backslash body = false -> RE_END_BORDER_sub (body ++ [pipe]) = body.
Proof.
  intros H. unfold RE_END_BORDER_sub, RE_END_BORDER_search.
  rewrite (end_border_search_last body 0 H). cbn [Nat.add].
  rewrite firstn_app, firstn_all, Nat.sub_diag. cbn [firstn].
  unfold endswith. rewrite rev_app_distr. cbn. now rewrite !app_nil_r.
Qed.

(** X5. Once the header has shown a border pipe on either side,
    [_split_row] takes the pipe that opens a row and the one that closes
    it away before it cuts the row, also from a row that has only one of
    them. *)
Theorem split_row_strips_border self body :
  border self <> 0%N ->
  mem_char backslash body = false ->
  _split_row self ([pipe] ++ body ++ [pipe]) = _split body /\
  (startswith [pipe] body = false ->
   _split_row self (body ++ [pipe]) = _split body).
Proof.
  intros Hb H. unfold _split_row.
  apply N.eqb_neq in Hb. rewrite Hb. cbn [negb]. split.
  - cbn [app startswith]. change (Ascii.eqb pipe pipe) with true. cbn [andb].
    unfold slice_from. cbn [skipn]. now rewrite end_border_sub_last.
  - intros Hs. destruct body as [|c body]; [reflexivity|].
    change (startswith [pipe] ((c :: body) ++ [pipe])) with (startswith [pipe] (c :: body)).
    rewrite Hs. now rewrite end_border_sub_last.
Qed.

(** The row [|a|b|] under a header with both borders. *)
Lemma split_row_strips_border_witness :
  _split_row (mkTP 3%N [] false) (py "|a|b|") = [py "a"; py "b"].
Proof.
  exact (proj1 (split_row_strips_border (mkTP 3%N [] false) (py "a|b")
                  ltac:(discriminate) eq_refl)).
Defined.

Lemma split_on_single (block : str) :
  mem_char nl block = false -> split_on nl block = [block].
Proof.
  induction block as [|c block IH]; intros H; [reflexivity|].
  unfold mem_char in *. cbn [existsb] in H. apply orb_false_iff in H.
  destruct H as [H1 H2]. cbn [split_on]. rewrite Ascii.eqb_sym, H1.
  now rewrite (IH H2).
Qed.

(** X6. [test] needs two lines: a block of one line is no table, and the
    processor stays as it was. Whenever [test] says no, the separator row
    kept for [run] is the one kept before; when it says yes, the cells
    kept hold nothing but pipes, colons, dashes and spaces. *)
Theorem test_rejects_and_keeps self parent block :
  (mem_char nl block = false -> test self parent block = (self, false)) /\
  (snd (test self parent block) = false ->
   separator (fst (test self parent block)) = separator self) /\
  (snd (test self parent block) = true ->
   separator_chars (separator (fst (test self parent block))) = true) /\
  use_align_attribute (fst (test self parent block)) = use_align_attribute self.
Proof.
  split; [|split; [|split]].
  - intros H. unfold test. rewrite (split_on_single block H). reflexivity.
  - unfold test. cbv zeta.
    destruct (1 <? _); [|reflexivity].
    destruct (if _ && _ && _ then _ else _); [|reflexivity].
    destruct (_ && separator_chars _); [discriminate | reflexivity].
  - unfold test. cbv zeta.
    destruct (1 <? _); [|discriminate].
    destruct (if _ && _ && _ then _ else _); [|discriminate].
    destruct (length _ =? length _); cbn [andb]; [|discriminate].
    destruct (separator_chars _) eqn:E; [|discriminate].
    intros _. exact E.
  - unfold test. cbv zeta.
    destruct (1 <? _); [|reflexivity].
    destruct (if _ && _ && _ then _ else _); [|reflexivity].
    destruct (_ && separator_chars _); reflexivity.
Qed.

(** One line alone, and the table of [|a|b|], [|-|-|], [|1|2|]. *)
Lemma test_rejects_and_keeps_witness :
  test (init false) (new (py "div")) (py "|a|b|") = (init false, false) /\
  separator (fst (test (mkTP 0%N [py "-"] false) (new (py "div")) (py "a
b"))) = [py "-"] /\
  separator_chars
    (separator (fst (test (init false) (new (py "div")) BlockRun.table_block))) = true.
Proof.
  split; [|split].
  - exact (proj1 (test_rejects_and_keeps (init false) (new (py "div")) (py "|a|b|")) eq_refl).
  - exact (proj1 (proj2 (test_rejects_and_keeps (mkTP 0%N [py "-"] false) (new (py "div"))
                           (py "a
b"))) eq_refl).
  - exact (proj1 (proj2 (proj2 (test_rejects_and_keeps (init false) (new (py "div"))
                                  BlockRun.table_block))) eq_refl).
Defined.

End TablesSplitFacts.

(** *** What [AbbrBlockprocessor.run] stores *)

Module AbbrFacts.
Import Etree Abbr.

(** X7. A successful [run] leaves the abbreviation defined. With
    [use_last_abbr] the title just read replaces an earlier one; without
    it the first title stays. No other abbreviation changes. *)
Theorem run_defines_abbreviation self parent block blocks m :
  RE_search block = Some m ->
  let abbr := strip (m_abbr m) in
  let title := strip (m_title m) in
  exists self' blocks',
    run self parent (block :: blocks) = Ok (self', blocks', Some true) /\
    use_last_abbr self' = use_last_abbr self /\
    Dict.get abbr (abbrs self')
    = Some (match Dict.get abbr (abbrs self) with
            | Some old => if use_last_abbr self then title else old
            | None => title
            end) /\
    (forall k, k <> abbr -> Dict.get k (abbrs self') = Dict.get k (abbrs self)).
Proof.
  intros Hm abbr title. unfold run. rewrite Hm. fold abbr title.
  eexists _, _. split; [reflexivity|].
  unfold Dict.mem.
  destruct (use_last_abbr self) eqn:Eu; cbn [orb].
  - cbn [use_last_abbr abbrs]. split; [reflexivity|]. split.
    + rewrite RegistryFacts.get_set_same. now destruct (Dict.get abbr (abbrs self)).
    + intros k Hk. apply RegistryFacts.get_set_other. congruence.
  - destruct (Dict.get abbr (abbrs self)) as [old|] eqn:Eg; cbn [negb].
    + rewrite Eu. split; [reflexivity|]. split; [exact Eg | reflexivity].
    + cbn [use_last_abbr abbrs]. split; [reflexivity|]. split.
      * apply RegistryFacts.get_set_same.
      * intros k Hk. apply RegistryFacts.get_set_other. congruence.
Qed.

Lemma run_defines_abbreviation_witness :
  exists self' blocks',
    run (mkABP [(py "HTML", py "old")] false) (new (py "div"))
      [py "*[HTML]: Hyper Text Markup Language"]
    = Ok (self', blocks', Some true) /\
    Dict.get (py "HTML") (abbrs self') = Some (py "old").
Proof.
  destruct (run_defines_abbreviation (mkABP [(py "HTML", py "old")] false)
              (new (py "div")) (py "*[HTML]: Hyper Text Markup Language") []
              (mkMatch 0 35 (py "HTML") (py "Hyper Text Markup Language")) eq_refl)
    as [self' [blocks' [H1 [_ [H2 _]]]]].
  exists self', blocks'. split; [exact H1 | exact H2].
Defined.

Lemma lstrip_lstrip (p q : ascii -> bool) (s : str) :
  (forall c, q c = true -> p c = true) ->
  lstrip_by p (lstrip_by q s) = lstrip_by p s.
Proof.
  intros H. induction s as [|c s IH]; [reflexivity|].
  cbn [lstrip_by]. destruct (q c) eqn:E.
  - now rewrite (H c E).
  - reflexivity.
Qed.

Lemma is_blank_space c : is_blank c = true -> is_space c = true.
Proof.
  unfold is_blank. intros H. apply Ascii.eqb_eq in H. now subst c.
Qed.

Lemma count_blanks_lstrip (s : str) :
  skipn (count_blanks s) s = lstrip_by is_blank s.
Proof.
  induction s as [|c s IH]; [reflexivity|].
  cbn [count_blanks lstrip_by]. destruct (is_blank c); [exact IH | reflexivity].
Qed.

Lemma count_blanks_length (s : str) : count_blanks s <= length s.
Proof.
  induction s as [|c s IH]; [reflexivity|].
  cbn [count_blanks]. destruct (is_blank c); cbn; lia.
Qed.

Lemma lstrip_blank_head (s : str) : count_blanks (lstrip_by is_blank s) = 0.
Proof.
  induction s as [|c s IH]; [reflexivity|].
  cbn [lstrip_by]. destruct (is_blank c) eqn:E; [exact IH|].
  cbn [count_blanks]. now rewrite E.
Qed.

Lemma line_prefix_no_nl (s : str) : mem_char nl s = false -> line_prefix s = s.
Proof.
  induction s as [|c s IH]; intros H; [reflexivity|].
  unfold mem_char in *. cbn [existsb] in H. apply orb_false_iff in H.
  destruct H as [H1 H2]. cbn [line_prefix]. unfold is_nl.
  rewrite Ascii.eqb_sym, H1. now rewrite (IH H2).
Qed.

Lemma mem_char_lstrip c p (s : str) :
  mem_char c s = false -> mem_char c (lstrip_by p s) = false.
Proof.
  induction s as [|x s IH]; intros H; [reflexivity|].
  cbn [lstrip_by]. destruct (p x); [|exact H].
  unfold mem_char in *. cbn [existsb] in H. apply orb_false_iff in H. now apply IH.
Qed.

(** What follows the colon when the title has no newline and nothing
    comes after it. *)
Lemma after_colon_line title :
  mem_char nl title = false ->
  after_colon title = (lstrip_by is_blank title, length title).
Proof.
  intros H. unfold after_colon. cbv zeta.
  rewrite !(count_blanks_lstrip title).
  set (t := lstrip_by is_blank title).
  assert (Ht : mem_char nl t = false) by now apply mem_char_lstrip.
  assert (E2 : match t with c :: _ => if is_nl c then 1 else 0 | [] => 0 end = 0).
  { destruct t as [|c t']; [reflexivity|].
    unfold mem_char in Ht. cbn [existsb] in Ht. apply orb_false_iff in Ht.
    unfold is_nl. rewrite Ascii.eqb_sym. now rewrite (proj1 Ht). }
  assert (Hz : count_blanks t = 0) by apply lstrip_blank_head.
  rewrite E2. cbn [skipn]. rewrite !Hz. cbn [skipn].
  rewrite (line_prefix_no_nl t Ht). f_equal.
  pose proof (count_blanks_length title) as Hl.
  pose proof (count_blanks_lstrip title) as Hs. fold t in Hs.
  apply (f_equal (@length _)) in Hs. rewrite length_skipn in Hs. lia.
Qed.

(** No closing bracket and no backslash in [s]. *)
Definition name_ok (s : str) : bool :=
  forallb (fun c => negb (Ascii.eqb c "]") && negb (Ascii.eqb c backslash)) s.

Lemma lazy_abbr_name abbr rest t n : forall acc,
  name_ok abbr = true ->
  after_bracket rest = Some (t, n) ->
  lazy_abbr acc (abbr ++ "]"%char :: rest)
  = Some (rev acc ++ abbr, t, length acc + length abbr + 1 + n).
Proof.
  induction abbr as [|c abbr IH]; intros acc H Hr.
  - cbn [app lazy_abbr]. rewrite Ascii.eqb_refl, Hr.
    cbn [length]. rewrite app_nil_r, Nat.add_0_r. reflexivity.
  - cbn [name_ok forallb] in H. apply andb_true_iff in H. destruct H as [Hc Ha].
    apply andb_true_iff in Hc. destruct Hc as [H1 H2]. apply negb_true_iff in H1, H2.
    cbn [app lazy_abbr]. rewrite H1, H2. rewrite (IH (c :: acc) Ha Hr).
    cbn [rev length]. rewrite <- app_assoc. cbn [app].
    now replace (S (length acc) + length abbr) with (length acc + S (length abbr)) by lia.
Qed.

(** X8. A block that is one definition, [*[name]:] and a title on the same
    line, is consumed whole: [run] stores the stripped title under the
    stripped name, says [True] and pushes nothing back. *)
Theorem run_reads_definition self parent name title blocks :
  name_ok name = true ->
  mem_char nl title = false ->
  let abbr := strip name in
  run self parent ((py "*[" ++ name ++ py "]:" ++ title) :: blocks)
  = Ok (if use_last_abbr self || negb (Dict.mem abbr (abbrs self))
        then mkABP (Dict.set abbr (strip title) (abbrs self)) (use_last_abbr self)
        else self,
        blocks, Some true).
Proof.
  intros Hn Ht abbr.
  set (block := py "*[" ++ name ++ py "]:" ++ title).
  assert (Hm : RE_search block
               = Some (mkMatch 0 (length block) name (lstrip_by is_blank title))).
  { unfold RE_search, block. cbn [py list_ascii_of_string app search_from match_here].
    change (Ascii.eqb "*" "*" && Ascii.eqb "[" "[") with true. cbv iota.
    rewrite (lazy_abbr_name name (":"%char :: title) (lstrip_by is_blank title)
               (1 + length title) [] Hn).
    2:{ cbn [after_bracket]. rewrite Ascii.eqb_refl. now rewrite after_colon_line. }
    cbn [rev app length]. f_equal. f_equal.
    rewrite !length_app. cbn [length]. rewrite ?length_app. cbn [length]. lia. }
  unfold run. rewrite Hm. cbn [m_start m_end m_abbr m_title].
  unfold slice_from, slice. rewrite skipn_all. cbn [skipn firstn Nat.sub].
  change (truthy (strip [])) with false. cbv iota.
  fold abbr.
  assert (E : strip (lstrip_by is_blank title) = strip title).
  { unfold strip, strip_by.
    now rewrite (lstrip_lstrip is_space is_blank title is_blank_space). }
  now rewrite E.
Qed.

Lemma run_reads_definition_witness :
  run (mkABP [] true) (new (py "div")) [py "*[HTML]:  Hyper Text "; py "next"]
  = Ok (mkABP [(py "HTML", py "Hyper Text")] true, [py "next"], Some true).
Proof.
  exact (run_reads_definition (mkABP [] true) (new (py "div")) (py "HTML")
           (py "  Hyper Text ") [py "next"] eq_refl eq_refl).
Defined.

Lemma search_from_none s : forall bol pos,
  Tokenizer.find_sub (py "*[") s = None -> search_from bol pos s = None.
Proof.
  induction s as [|c s IH]; intros bol pos H.
  - cbn. now destruct bol.
  - cbn [Tokenizer.find_sub] in H.
    destruct (startswith (py "*[") (c :: s)) eqn:E; [discriminate|].
    assert (Hs : Tokenizer.find_sub (py "*[") s = None)
      by (destruct (Tokenizer.find_sub (py "*[") s); [discriminate | reflexivity]).
    cbn [search_from].
    assert (M : match_here pos (c :: s) = None).
    { unfold match_here. destruct s as [|d s']; [reflexivity|].
      cbn [startswith py list_ascii_of_string] in E.
      rewrite (Ascii.eqb_sym c), (Ascii.eqb_sym d).
      destruct (Ascii.eqb "*" c); [|reflexivity].
      destruct (Ascii.eqb "[" d); [discriminate E | reflexivity]. }
    rewrite M. destruct bol; now apply IH.
Qed.

(** X9. A block in which no asterisk is followed by an opening bracket
    holds no definition: [run] says [False] and gives the block back at
    the head of the queue, the abbreviations being as they were. *)
Theorem run_declines_without_marker self parent block blocks :
  Tokenizer.find_sub (py "*[") block = None ->
  run self parent (block :: blocks) = Ok (self, block :: blocks, Some false).
Proof.
  intros H. unfold run, RE_search. now rewrite (search_from_none block true 0 H).
Qed.

Lemma run_declines_without_marker_witness :
  run (mkABP [] true) (new (py "div")) [py "a * [b]: c"]
  = Ok (mkABP [] true, [py "a * [b]: c"], Some false).
Proof.
  exact (run_declines_without_marker (mkABP [] true) (new (py "div"))
           (py "a * [b]: c") [] eq_refl).
Defined.

End AbbrFacts.

(** ** markdown/extensions/abbr.py: [AbbrTreeprocessor] *)

Module AbbrTree.
Import Etree.

(** The characters that [\w] matches in a [str] pattern, among the code
    points below 256: the letters, the digits and the underscore of
    ASCII, and the letters and numeric characters of Latin-1. *)
Definition is_word (c : ascii) : bool :=
  let n := nat_of_ascii c in
  let between a b := (a <=? n) && (n <=? b) in
  between 48 57 || between 65 90 || (n =? 95) || between 97 122
  || (n =? 170) || between 178 179 || (n =? 181) || between 185 186
  || between 188 190 || between 192 214 || between 216 246 || between 248 255.

(** [\b] at the start of [s]: the character before is a word character
    ([prev]) and the next one is not, or the other way round; the ends of
    the string count as no word character. *)
Definition boundary (prev : bool) (s : str) : bool :=
  xorb prev (match s with c :: _ => is_word c | [] => false end).

(** Whether the character before the end of a match of [key] is a word
    character. *)
Definition prev_after (prev : bool) (key : str) : bool :=
  fold_left (fun _ c => is_word c) key prev.

(** One alternative of the pattern, between the two [\b], at the start
    of [s]: [key] was passed through [re.escape] and matches itself. *)
Definition key_here (prev : bool) (s : str) (key : str) : bool :=
  boundary prev s && startswith key s
  && boundary (prev_after prev key) (skipn (length key) s).

(** The alternatives are tried in the order of the pattern. *)
Definition match_at (keys : list str) (prev : bool) (s : str) : option str :=
  find (key_here prev s) keys.

(** [self.RE.finditer(text)]: the spans and the texts of the matches from
    left to right.  [s] is the text from [pos] on and [prev] tells whether
    the character before it is a word character.  [skip] characters of
    the match found last are still to be passed; after an empty match the
    search goes on one character further. *)
Fixpoint finditer (keys : list str) (prev : bool) (skip pos : nat) (s : str)
  : list (nat * nat * str) :=
  match s with
  | [] =>
      match skip with
      | 0 => match match_at keys prev [] with
             | Some key => [(pos, pos + length key, key)]
             | None => []
             end
      | S _ => []
      end
  | c :: s' =>
      match skip with
      | S k => finditer keys (is_word c) k (S pos) s'
      | 0 =>
          match match_at keys prev s with
          | Some key =>
              (pos, pos + length key, key)
              :: finditer keys (is_word c) (length key - 1) (S pos) s'
          | None => finditer keys (is_word c) 0 (S pos) s'
          end
      end
  end.

(** [abbr_list.sort(key=len, reverse=True)]: the sort is stable, keys of
    one length stay in the order of the dictionary. *)
Fixpoint insert_by_len (k : str) (l : list str) : list str :=
  match l with
  | [] => [k]
  | x :: l' => if length x <=? length k then k :: l else x :: insert_by_len k l'
  end.

Definition sort_by_len (l : list str) : list str := fold_right insert_by_len [] l.

(** The [abbr] element of a match: the title as its attribute, the text
    matched as an atomic string, and what follows the match as its tail. *)
Definition abbr_element (title group tail : str) : Element :=
  El (py "abbr") [(py "title", title)] (Some (AtomicString group)) []
     (Some (plain tail)).

(** The loop over the matches, taken from the last to the first, of a
    text or a tail: [text] is the string as cut so far, [changed] tells
    whether it was cut, [acc] holds the elements to insert.  In a text
    ([check]) a match whose title is empty is passed over; in a tail it
    is not.  [self.abbrs[m.group(0)]] raises [KeyError] for a missing
    key. *)
Fixpoint wrap_loop (abbrs : Dict.dict str) (check : bool)
  (ms : list (nat * nat * str)) (text : str) (changed : bool) (acc : list Element)
  : result (str * bool * list Element) :=
  match ms with
  | [] => Ok (text, changed, acc)
  | (start, stop, group) :: ms' =>
      match Dict.get group abbrs with
      | None => Raise KeyError
      | Some title =>
          if negb check || truthy title then
            wrap_loop abbrs check ms' (slice 0 start text) true
              (abbr_element title group (slice_from stop text) :: acc)
          else wrap_loop abbrs check ms' text changed acc
      end
  end.

(** The string of a text or tail that is not empty: the string left and
    the new elements.  A string that was not cut is the object it was, so
    it keeps its [AtomicString] flag; a slice is a plain string. *)
Definition wrap (keys : list str) (abbrs : Dict.dict str) (check : bool) (x : text_t)
  : result (option text_t * list Element) :=
  match wrap_loop abbrs check (rev (finditer keys false 0 0 (body x))) (body x) false [] with
  | Raise e => Raise e
  | Ok (text, changed, acc) => Ok (Some (if changed then plain text else x), acc)
  end.

Definition wrap_opt (keys : list str) (abbrs : Dict.dict str) (check : bool)
  (x : option text_t) : result (option text_t * list Element) :=
  match x with
  | Some t => if truthy (body t) then wrap keys abbrs check t else Ok (x, [])
  | None => Ok (x, [])
  end.

(** [iter_element(el, parent)] with [self.RE] compiled from [keys]: the
    element after the call and the elements inserted in the parent, right
    after it.  The children are visited from the last to the first, so
    that the elements a child inserts after itself are not visited. *)
Fixpoint iter_element (keys : list str) (abbrs : Dict.dict str) (el : Element)
  (has_parent : bool) : result (Element * list Element) :=
  let 'El tag attrib text children tail := el in
  let children' :=
    fold_right
      (fun child rest =>
         match rest with
         | Raise e => Raise e
         | Ok rest =>
             match iter_element keys abbrs child true with
             | Raise e => Raise e
             | Ok (child', inserted) => Ok (child' :: inserted ++ rest)
             end
         end)
      (Ok []) children in
  match children' with
  | Raise e => Raise e
  | Ok children' =>
      match wrap_opt keys abbrs true text with
      | Raise e => Raise e
      | Ok (text', front) =>
          if has_parent then
            match wrap_opt keys abbrs false tail with
            | Raise e => Raise e
            | Ok (tail', inserted) =>
                Ok (El tag attrib text' (front ++ children') tail', inserted)
            end
          else Ok (El tag attrib text' (front ++ children') tail, [])
      end
  end.

(** [run(root)]: the tree after the call; the method itself returns
    [None] and changes the tree in place. *)
Definition run (abbrs : Dict.dict str) (root : Element) : result Element :=
  match abbrs with
  | [] => Ok root       (* No abbreviations defined. *)
  | _ =>
      let abbr_list := sort_by_len (map fst abbrs) in
      match iter_element abbr_list abbrs root false with
      | Raise e => Raise e
      | Ok (root', _) => Ok root'
      end
  end.

End AbbrTree.

(** *** The tree processor keeps the text of the document *)

Module AbbrTreeFacts.
Import Etree AbbrTree ListFacts.

Definition str_of (x : option text_t) : str :=
  match x with Some t => body t | None => [] end.

(** [''.join(el.itertext())]: the text of the element and of the elements
    in it, with their tails, in the order of the document. *)
Fixpoint text_content (e : Element) : str :=
  let 'El _ _ text children _ := e in
  str_of text ++ flat_map (fun c => text_content c ++ str_of (tail_of c)) children.

(** The text of a run of siblings, tails included. *)
Definition content (l : list Element) : str :=
  flat_map (fun c => text_content c ++ str_of (tail_of c)) l.

(** An [abbr] element as the processor makes it: the title is that of
    the abbreviation in the atomic text; it has no child. *)
Definition is_abbr (abbrs : Dict.dict str) (check : bool) (a : Element) : Prop :=
  exists key title tl,
    a = abbr_element title key tl /\
    Dict.get key abbrs = Some title /\
    (check = true -> title <> []).

(** The matches lie in [text] from [lo] on, one after the other, and
    each holds the characters of its span. *)
Fixpoint ordered (text : str) (lo : nat) (ms : list (nat * nat * str)) : Prop :=
  match ms with
  | [] => True
  | (s, e, g) :: ms' =>
      lo <= s /\ s <= e /\ e <= length text /\ g = slice s e text /\
      ordered text e ms'
  end.

Lemma ordered_weaken text ms : forall lo lo',
  lo' <= lo -> ordered text lo ms -> ordered text lo' ms.
Proof.
  destruct ms as [|[[s e] g] ms]; intros lo lo' H; cbn; [auto|].
  intros [H1 H2]. split; [lia | exact H2].
Qed.

Lemma startswith_slice (key s : str) :
  startswith key s = true -> length key <= length s /\ firstn (length key) s = key.
Proof.
  intros H. destruct (TokenizerFacts.startswith_app key s H) as [r ->].
  rewrite length_app, firstn_app, firstn_all, Nat.sub_diag. cbn [firstn].
  rewrite app_nil_r. split; [lia | reflexivity].
Qed.

Lemma match_at_some keys prev s key :
  match_at keys prev s = Some key ->
  In key keys /\ key_here prev s key = true.
Proof. unfold match_at. apply find_some. Qed.

Lemma key_here_span text pos prev s key :
  skipn pos text = s -> pos <= length text ->
  key_here prev s key = true ->
  pos + length key <= length text /\ key = slice pos (pos + length key) text.
Proof.
  intros Hs Hle H. unfold key_here in H.
  apply andb_true_iff in H. destruct H as [H _].
  apply andb_true_iff in H. destruct H as [_ H].
  destruct (startswith_slice key s H) as [H1 H2].
  assert (Hl : length s = length text - pos) by (rewrite <- Hs; apply length_skipn).
  split; [lia|]. unfold slice. rewrite Hs.
  now replace (pos + length key - pos) with (length key) by lia.
Qed.

(** The matches of [finditer] come one after the other, each within the
    text and holding one of the keys. *)
Lemma finditer_ordered keys text : forall s prev skip pos,
  skipn pos text = s -> pos <= length text ->
  ordered text (pos + skip) (finditer keys prev skip pos s) /\
  Forall (fun m => In (snd m) keys) (finditer keys prev skip pos s).
Proof.
  induction s as [|c s IH]; intros prev skip pos Hs Hle.
  - cbn [finditer]. destruct skip as [|k]; [|split; [exact I | constructor]].
    destruct (match_at keys prev []) as [key|] eqn:E; [|split; [exact I | constructor]].
    apply match_at_some in E. destruct E as [Hin Hk].
    destruct (key_here_span text pos prev [] key Hs Hle Hk) as [H1 H2].
    split; [|constructor; [exact Hin | constructor]].
    cbn [ordered]. repeat split; try lia. exact H2.
  - destruct (skipn_cons_nth text pos c s Hs) as [_ [Hs' Hlt]].
    cbn [finditer]. destruct skip as [|k].
    + destruct (match_at keys prev (c :: s)) as [key|] eqn:E.
      * apply match_at_some in E. destruct E as [Hin Hk].
        destruct (key_here_span text pos prev (c :: s) key Hs Hle Hk) as [H1 H2].
        destruct (IH (is_word c) (length key - 1) (S pos) Hs' Hlt) as [I1 I2].
        split; [|constructor; [exact Hin | exact I2]].
        cbn [ordered]. repeat split; try lia; [exact H2|].
        apply (ordered_weaken text _ (S pos + (length key - 1))); [lia | exact I1].
      * destruct (IH (is_word c) 0 (S pos) Hs' Hlt) as [I1 I2].
        split; [|exact I2].
        apply (ordered_weaken text _ (S pos + 0)); [lia | exact I1].
    + destruct (IH (is_word c) k (S pos) Hs' Hlt) as [I1 I2].
      split; [|exact I2].
      now replace (pos + S k) with (S pos + k) by lia.
Qed.

Lemma wrap_loop_app abbrs check l m : forall text ch acc,
  wrap_loop abbrs check (l ++ [m]) text ch acc
  = match wrap_loop abbrs check l text ch acc with
    | Raise e => Raise e
    | Ok (t, c, a) => wrap_loop abbrs check [m] t c a
    end.
Proof.
  induction l as [|[[s e] g] l IH]; intros text ch acc.
  - reflexivity.
  - cbn [app wrap_loop]. destruct (Dict.get g abbrs) as [title|]; [|reflexivity].
    destruct (negb check || truthy title); apply IH.
Qed.

Lemma content_app a b : content (a ++ b) = content a ++ content b.
Proof. apply flat_map_app. Qed.

Lemma content_abbr title key tl rest :
  content (abbr_element title key tl :: rest) = key ++ tl ++ content rest.
Proof. cbn. now rewrite app_nil_r, <- app_assoc. Qed.

(** The loop over the matches of a string, from the last to the first:
    it does not fail, what it cuts off the string is in the new elements,
    and these are [abbr] elements of defined abbreviations. *)
Lemma wrap_loop_rev abbrs check text0 ch acc : forall ms lo,
  ordered text0 lo ms -> lo <= length text0 ->
  Forall (fun m => Dict.get (snd m) abbrs <> None) ms ->
  exists k ch' new,
    wrap_loop abbrs check (rev ms) text0 ch acc = Ok (firstn k text0, ch', new ++ acc) /\
    lo <= k <= length text0 /\
    firstn k text0 ++ content new = text0 /\
    Forall (is_abbr abbrs check) new /\
    ((new = [] /\ ch' = ch /\ firstn k text0 = text0) \/ (ch' = true /\ new <> [])).
Proof.
  induction ms as [|[[s e] g] ms IH]; intros lo Ho Hlo Hk.
  - exists (length text0), ch, []. cbn. rewrite firstn_all, app_nil_r.
    repeat split; auto.
  - destruct Ho as [H1 [H2 [H3 [H4 H5]]]].
    apply Forall_cons_iff in Hk. destruct Hk as [Hg Hk']. cbn [snd] in Hg.
    destruct (IH e H5 H3 Hk') as [k [ch1 [new1 [E [Hb [Hc [Ha Hch]]]]]]].
    cbn [rev]. rewrite wrap_loop_app, E. cbn [wrap_loop].
    destruct (Dict.get g abbrs) as [title|] eqn:Eg; [|contradiction].
    destruct (negb check || truthy title) eqn:Ew.
    + exists s, true, (abbr_element title g (slice_from e (firstn k text0)) :: new1).
      split.
      { unfold slice. rewrite Nat.sub_0_r. cbn [skipn]. rewrite firstn_firstn.
        now replace (Nat.min s k) with s by lia. }
      split; [lia|]. split; [|split; [|right; split; [reflexivity | discriminate]]].
      * transitivity (firstn k text0 ++ content new1); [|exact Hc].
        rewrite content_abbr, !app_assoc. f_equal. rewrite <- app_assoc.
        rewrite H4. rewrite <- (slice_firstn text0 s e k) by lia.
        replace (firstn s text0) with (firstn s (firstn k text0))
          by (rewrite firstn_firstn; f_equal; lia).
        apply slice_split. lia.
      * constructor; [|exact Ha]. exists g, title, (slice_from e (firstn k text0)).
        repeat split; auto. intros ->. cbn [negb orb] in Ew. now destruct title.
    + exists k, ch1, new1. repeat split; auto; lia.
Qed.

Lemma get_in (d : Dict.dict str) k : In k (map fst d) -> Dict.get k d <> None.
Proof.
  induction d as [|[k' v] d IH]; cbn; [tauto|].
  intros [<-|H]; [now rewrite str_eqb_refl|].
  destruct (str_eqb k k'); [discriminate | now apply IH].
Qed.

Lemma wrap_opt_ok keys abbrs check x :
  (forall k, In k keys -> Dict.get k abbrs <> None) ->
  exists x' new,
    wrap_opt keys abbrs check x = Ok (x', new) /\
    str_of x' ++ content new = str_of x /\
    Forall (is_abbr abbrs check) new /\
    ((new = [] /\ x' = x) \/ (new <> [] /\ exists t, x' = Some (plain t))).
Proof.
  intros Hk. destruct x as [t|]; cbn [wrap_opt].
  2:{ exists None, []. repeat split; auto. }
  destruct (truthy (body t)).
  2:{ exists (Some t), []. cbn. rewrite app_nil_r. repeat split; auto. }
  unfold wrap.
  destruct (finditer_ordered keys (body t) (body t) false 0 0 eq_refl (Nat.le_0_l _))
    as [Ho Hin].
  destruct (wrap_loop_rev abbrs check (body t) false []
              (finditer keys false 0 0 (body t)) 0 Ho (Nat.le_0_l _))
    as [k [ch' [new [E [_ [Hc [Ha Hch]]]]]]].
  { eapply Forall_impl; [|exact Hin]. intros m Hm. now apply Hk. }
  rewrite E, app_nil_r.
  exists (Some (if ch' then plain (firstn k (body t)) else t)), new.
  split; [reflexivity|]. split; [|split; [exact Ha|]].
  - destruct Hch as [[-> [-> Hf]] | [-> _]]; cbn [str_of body plain]; [|exact Hc].
    cbn. now rewrite app_nil_r.
  - destruct Hch as [[-> [-> Hf]] | [-> Hn]]; [left; auto | right; eauto].
Qed.

Lemma text_content_eq tag attrib text children tail :
  text_content (El tag attrib text children tail) = str_of text ++ content children.
Proof. reflexivity. Qed.

Lemma iter_element_eq keys abbrs tag attrib text children tail has_parent :
  iter_element keys abbrs (El tag attrib text children tail) has_parent
  = match fold_right
            (fun child rest =>
               match rest with
               | Raise e => Raise e
               | Ok rest =>
                   match iter_element keys abbrs child true with
                   | Raise e => Raise e
                   | Ok (child', inserted) => Ok (child' :: inserted ++ rest)
                   end
               end)
            (Ok []) children with
    | Raise e => Raise e
    | Ok children' =>
        match wrap_opt keys abbrs true text with
        | Raise e => Raise e
        | Ok (text', front) =>
            if has_parent then
              match wrap_opt keys abbrs false tail with
              | Raise e => Raise e
              | Ok (tail', inserted) =>
                  Ok (El tag attrib text' (front ++ children') tail', inserted)
              end
            else Ok (El tag attrib text' (front ++ children') tail, [])
        end
    end.
Proof. reflexivity. Qed.

Section Conservation.

Variable keys : list str.
Variable abbrs : Dict.dict str.
Hypothesis keys_defined : forall k, In k keys -> Dict.get k abbrs <> None.

(** What [iter_element] leaves: the element with its tag and attributes,
    and the text of the element, its tail and the elements inserted after
    it spelling what the element and its tail spelled. *)
Definition kept (el : Element) (has_parent : bool) (el' : Element)
  (inserted : list Element) : Prop :=
  tag_of el' = tag_of el /\ attrib_of el' = attrib_of el /\
  text_content el' ++ str_of (tail_of el') ++ content inserted
  = text_content el ++ str_of (tail_of el) /\
  Forall (is_abbr abbrs false) inserted /\
  (has_parent = false -> inserted = [] /\ tail_of el' = tail_of el).

Lemma iter_element_kept : forall el has_parent,
  exists el' inserted,
    iter_element keys abbrs el has_parent = Ok (el', inserted) /\
    kept el has_parent el' inserted.
Proof.
  induction el as [tag attrib text children tail IH] using InlineFacts.Element_induction.
  intros has_parent. rewrite iter_element_eq.
  assert (K : exists children',
             fold_right
               (fun child rest =>
                  match rest with
                  | Raise e => Raise e
                  | Ok rest =>
                      match iter_element keys abbrs child true with
                      | Raise e => Raise e
                      | Ok (child', inserted) => Ok (child' :: inserted ++ rest)
                      end
                  end)
               (Ok []) children = Ok children' /\
             content children' = content children).
  { induction IH as [|c cs Hc _ IHcs]; [now exists []|].
    destruct IHcs as [rest [E1 E2]]. destruct (Hc true) as [c' [ins [E3 [_ [_ [E4 _]]]]]].
    exists (c' :: ins ++ rest). cbn [fold_right]. rewrite E1, E3.
    split; [reflexivity|].
    change (content (c' :: ins ++ rest))
      with ((text_content c' ++ str_of (tail_of c')) ++ content (ins ++ rest)).
    change (content (c :: cs))
      with ((text_content c ++ str_of (tail_of c)) ++ content cs).
    rewrite content_app, E2, <- E4, <- !app_assoc. reflexivity. }
  destruct K as [children' [-> Ec]].
  destruct (wrap_opt_ok keys abbrs true text keys_defined) as [text' [front [-> [Et _]]]].
  destruct has_parent.
  - destruct (wrap_opt_ok keys abbrs false tail keys_defined)
      as [tail' [ins [-> [El_ [Ha _]]]]].
    eexists _, _. split; [reflexivity|]. unfold kept.
    cbn [tag_of attrib_of tail_of]. rewrite !text_content_eq, content_app, Ec.
    split; [reflexivity|]. split; [reflexivity|]. split; [|split; [exact Ha | discriminate]].
    rewrite <- Et, <- El_, <- !app_assoc. reflexivity.
  - eexists _, _. split; [reflexivity|]. unfold kept.
    cbn [tag_of attrib_of tail_of]. rewrite !text_content_eq, content_app, Ec.
    split; [reflexivity|]. split; [reflexivity|]. split; [|split; [constructor | auto]].
    rewrite <- Et, <- !app_assoc. cbn [content flat_map]. now rewrite app_nil_r.
Qed.

End Conservation.

Lemma in_insert_by_len k x l : In x (insert_by_len k l) -> x = k \/ In x l.
Proof.
  induction l as [|y l IH]; cbn; [intros [<-|[]]; auto|].
  destruct (length y <=? length k); cbn.
  - intros [<-|[<-|H]]; auto.
  - intros [<-|H]; auto. destruct (IH H); auto.
Qed.

Lemma in_sort_by_len x l : In x (sort_by_len l) -> In x l.
Proof.
  induction l as [|k l IH]; cbn; [auto|].
  intros H. apply in_insert_by_len in H. destruct H as [->|H]; auto.
Qed.

(** X10. [run] does not fail, whatever the abbreviations and the tree:
    every text that the pattern matches is a key of the dictionary. The
    root keeps its tag, its attributes and its tail, and the text of the
    tree read in document order is the text it was. *)
Theorem run_keeps_text abbrs root :
  exists root',
    run abbrs root = Ok root' /\
    tag_of root' = tag_of root /\
    attrib_of root' = attrib_of root /\
    tail_of root' = tail_of root /\
    text_content root' = text_content root.
Proof.
  unfold run. destruct abbrs as [|kv abbrs]; [now exists root|].
  set (d := kv :: abbrs).
  destruct (iter_element_kept (sort_by_len (map fst d)) d
              (fun k H => get_in d k (in_sort_by_len k _ H)) root false)
    as [root' [ins [-> [H1 [H2 [H3 [_ H4]]]]]]].
  destruct (H4 eq_refl) as [-> Ht].
  exists root'. repeat split; auto.
  apply (app_inv_tail (str_of (tail_of root))).
  rewrite <- H3, Ht. cbn [content flat_map]. now rewrite app_nil_r.
Qed.

(** X11. On an element without children [iter_element] puts in nothing but
    [abbr] elements: each has the matched text as an atomic string and the
    title that the dictionary gives for it, not empty for those made from
    the text; what is left of the text and of the tail, followed by the
    new elements and their tails, spells the string it was; a string in
    which nothing is wrapped stays the object it was. *)
Theorem iter_element_inserts_abbr keys abbrs tag attrib text tail has_parent :
  (forall k, In k keys -> Dict.get k abbrs <> None) ->
  exists text' front tail' inserted,
    iter_element keys abbrs (El tag attrib text [] tail) has_parent
    = Ok (El tag attrib text' front tail', inserted) /\
    Forall (is_abbr abbrs true) front /\
    Forall (is_abbr abbrs false) inserted /\
    str_of text' ++ content front = str_of text /\
    str_of tail' ++ content inserted = str_of tail /\
    (front = [] -> text' = text) /\
    (inserted = [] -> tail' = tail) /\
    (has_parent = false -> inserted = []).
Proof.
  intros Hk. rewrite iter_element_eq. cbn [fold_right].
  destruct (wrap_opt_ok keys abbrs true text Hk) as [text' [front [-> [Et [Ha Hf]]]]].
  assert (Hf' : front = [] -> text' = text).
  { intros E. destruct Hf as [[_ H]|[H _]]; [exact H | contradiction]. }
  destruct has_parent.
  - destruct (wrap_opt_ok keys abbrs false tail Hk) as [tail' [ins [-> [El_ [Hb Hi]]]]].
    exists text', front, tail', ins. rewrite app_nil_r.
    repeat (split; [solve [auto]|]). split; [|discriminate].
    intros E. destruct Hi as [[_ H]|[H _]]; [exact H | contradiction].
  - exists text', front, tail, []. rewrite app_nil_r.
    repeat (split; [solve [auto]|]). cbn. rewrite app_nil_r. auto.
Qed.

(** The paragraph [The HTML spec] with [HTML] defined. *)
Lemma iter_element_inserts_abbr_witness :
  exists text' front tail' inserted,
    iter_element [py "HTML"] [(py "HTML", py "Hyper Text Markup Language")]
      (El (py "p") [] (Some (plain (py "The HTML spec"))) [] None) false
    = Ok (El (py "p") [] text' front tail', inserted) /\
    text' = Some (plain (py "The ")) /\
    front = [abbr_element (py "Hyper Text Markup Language") (py "HTML") (py " spec")].
Proof.
  destruct (iter_element_inserts_abbr [py "HTML"]
              [(py "HTML", py "Hyper Text Markup Language")]
              (py "p") [] (Some (plain (py "The HTML spec"))) None false)
    as [text' [front [tail' [ins [E _]]]]].
  { intros k [<-|[]]. discriminate. }
  exists text', front, tail', ins. split; [exact E|].
  vm_compute in E. injection E as <- <- _ _. split; reflexivity.
Defined.

(** Whether the character before position [i] of [text] is a word
    character. *)
Definition prev_at (text : str) (i : nat) : bool :=
  match i with
  | 0 => false
  | S j => match nth_error text j with Some c => is_word c | None => false end
  end.

(** Every match of [finditer] is the first key, in the order of the
    pattern, that matches at its position. *)
Lemma finditer_first keys text : forall s prev skip pos,
  skipn pos text = s -> prev = prev_at text pos ->
  Forall (fun m => match_at keys (prev_at text (fst (fst m))) (skipn (fst (fst m)) text)
                   = Some (snd m))
         (finditer keys prev skip pos s).
Proof.
  induction s as [|c s IH]; intros prev skip pos Hs Hp.
  - cbn [finditer]. destruct skip; [|constructor].
    destruct (match_at keys prev []) as [key|] eqn:E; constructor; [|constructor].
    cbn [fst snd]. now rewrite Hs, <- Hp.
  - destruct (skipn_cons_nth text pos c s Hs) as [Hc [Hs' _]].
    assert (Hp' : is_word c = prev_at text (S pos)) by (cbn; now rewrite Hc).
    cbn [finditer]. destruct skip as [|k]; [|now apply IH].
    destruct (match_at keys prev (c :: s)) as [key|] eqn:E; [|now apply IH].
    constructor; [|now apply IH]. cbn [fst snd]. now rewrite Hs, <- Hp.
Qed.

Definition longer (a b : str) : Prop := length b <= length a.

Lemma insert_by_len_sorted k l :
  StronglySorted longer l -> StronglySorted longer (insert_by_len k l).
Proof.
  induction 1 as [|x l Hs IH Hx]; cbn [insert_by_len].
  - constructor; constructor.
  - destruct (length x <=? length k) eqn:E.
    + apply Nat.leb_le in E. constructor; [now constructor|].
      constructor; [exact E|]. eapply Forall_impl; [|exact Hx].
      unfold longer. intros y Hy. lia.
    + apply Nat.leb_gt in E. constructor; [exact IH|].
      apply Forall_forall. intros y Hy. apply in_insert_by_len in Hy.
      destruct Hy as [->|Hy]; [unfold longer; lia|].
      rewrite Forall_forall in Hx. now apply Hx.
Qed.

Lemma sort_by_len_sorted l : StronglySorted longer (sort_by_len l).
Proof.
  induction l as [|k l IH]; [constructor|]. cbn. now apply insert_by_len_sorted.
Qed.

Lemma in_insert_by_len_iff k x l : In x (insert_by_len k l) <-> x = k \/ In x l.
Proof.
  split; [apply in_insert_by_len|].
  induction l as [|y l IH]; cbn; [intros [->|[]]; auto|].
  destruct (length y <=? length k); cbn.
  - intros [->|[->|H]]; auto.
  - intros [->|[->|H]]; auto.
Qed.

Lemma sort_by_len_in x l : In x l -> In x (sort_by_len l).
Proof.
  induction l as [|k l IH]; cbn; [auto|].
  intros [->|H]; apply in_insert_by_len_iff; auto.
Qed.

Lemma find_sorted_first (f : str -> bool) l x :
  StronglySorted longer l -> find f l = Some x ->
  forall y, In y l -> f y = true -> length y <= length x.
Proof.
  induction 1 as [|z l Hs IH Hz]; cbn [find]; [discriminate|].
  destruct (f z) eqn:E.
  - intros H y Hy Hf. injection H as <-. destruct Hy as [->|Hy]; [lia|].
    rewrite Forall_forall in Hz. now apply Hz.
  - intros H y Hy Hf. destruct Hy as [->|Hy]; [congruence|]. now apply IH.
Qed.

(** X12. [run] sorts the abbreviations by length before it compiles the
    pattern, so that where several abbreviations match at one position the
    text wrapped is a longest one of them. *)
Theorem longest_abbreviation_first (abbrs : Dict.dict str) text s e g k :
  In (s, e, g) (finditer (sort_by_len (map fst abbrs)) false 0 0 text) ->
  In k (map fst abbrs) ->
  key_here (prev_at text s) (skipn s text) k = true ->
  In g (map fst abbrs) /\ e = s + length g /\ g = slice s e text /\
  length k <= length g.
Proof.
  intros Hin Hk Hm.
  pose proof (finditer_first (sort_by_len (map fst abbrs)) text text false 0 0
                eq_refl eq_refl) as F.
  rewrite Forall_forall in F. specialize (F _ Hin). cbn [fst snd] in F.
  destruct (match_at_some _ _ _ _ F) as [Hg Hg'].
  assert (Hle : s <= length text).
  { destruct (finditer_ordered (sort_by_len (map fst abbrs)) text text false 0 0
                eq_refl (Nat.le_0_l _)) as [Ho _].
    clear -Ho Hin. revert Ho Hin. generalize (0 + 0).
    induction (finditer _ _ _ _ _) as [|[[s' e'] g'] ms IH]; intros lo Ho Hi; [contradiction|].
    destruct Ho as [H1 [H2 [H3 [H4 H5]]]]. destruct Hi as [Hi|Hi].
    - injection Hi as -> -> ->. lia.
    - now apply (IH e'). }
  destruct (key_here_span text s _ _ g eq_refl Hle Hg') as [H1 H2].
  assert (He : e = s + length g).
  { destruct (finditer_ordered (sort_by_len (map fst abbrs)) text text false 0 0
                eq_refl (Nat.le_0_l _)) as [Ho _].
    clear -Ho Hin. revert Ho Hin. generalize (0 + 0).
    induction (finditer _ _ _ _ _) as [|[[s' e'] g'] ms IH]; intros lo Ho Hi; [contradiction|].
    destruct Ho as [H1 [H2 [H3 [H4 H5]]]]. destruct Hi as [Hi|Hi].
    - injection Hi as -> -> ->. subst g. unfold slice. rewrite length_firstn, length_skipn. lia.
    - now apply (IH e'). }
  split; [now apply in_sort_by_len|]. split; [exact He|]. split; [now rewrite He|].
  apply (find_sorted_first (key_here (prev_at text s) (skipn s text))
           (sort_by_len (map fst abbrs)) g (sort_by_len_sorted _) F k);
    [now apply sort_by_len_in | exact Hm].
Qed.

(** [W3C] and [W3C spec] both match at position 4 of [The W3C spec]. *)
Definition two_abbrs : Dict.dict str :=
  [(py "W3C", py "World Wide Web Consortium"); (py "W3C spec", py "A specification")].

Lemma longest_abbreviation_first_witness :
  In (4, 12, py "W3C spec")
     (finditer (sort_by_len (map fst two_abbrs)) false 0 0 (py "The W3C spec")) /\
  key_here (prev_at (py "The W3C spec") 4) (skipn 4 (py "The W3C spec")) (py "W3C") = true /\
  length (py "W3C") <= length (py "W3C spec").
Proof.
  assert (H : In (4, 12, py "W3C spec")
                (finditer (sort_by_len (map fst two_abbrs)) false 0 0 (py "The W3C spec")))
    by (vm_compute; auto).
  split; [exact H|]. split; [reflexivity|].
  exact (proj2 (proj2 (proj2
    (longest_abbreviation_first two_abbrs (py "The W3C spec") 4 12 (py "W3C spec")
       (py "W3C") H (or_introl eq_refl) eq_refl)))).
Defined.

End AbbrTreeFacts.

(** ** markdown/extensions/wikilinks.py *)

Module WikiLinks.
Import Etree.

(** The length of the run of spaces at the start of [s]. *)
Fixpoint spaces (s : str) : nat :=
  match s with
  | c :: s' => if is_blank c then S (spaces s') else 0
  | [] => 0
  end.

(** [re.sub] of the pattern of [build_url] by an underscore: spaces and
    an underscore, or an underscore and spaces, or spaces, the spaces one
    or more and taken greedily.  At a space the first alternative matches
    when an underscore ends the run of spaces, the third otherwise; at an
    underscore the second matches when a space follows.  [skip] characters
    of the match found last are still to be passed. *)
Fixpoint clean_from (skip : nat) (s : str) : str :=
  match s with
  | [] => []
  | c :: s' =>
      match skip with
      | S k => clean_from k s'
      | 0 =>
          if is_blank c then
            let n := spaces s' in
            "_"%char :: clean_from (if startswith (py "_") (skipn n s') then S n else n) s'
          else if Ascii.eqb c "_" && negb (spaces s' =? 0) then
            "_"%char :: clean_from (spaces s') s'
          else c :: clean_from 0 s'
      end
  end.

(** [build_url(label, base, end)] *)
Definition build_url (label base end_ : str) : str :=
  let clean_label := clean_from 0 label in
  base ++ clean_label ++ end_.

(** The configuration of the extension, as [getConfigs] returns it. *)
Record Config := mkConfig {
  cfg_base_url : str;
  cfg_end_url : str;
  cfg_html_class : str;
  cfg_build_url : str -> str -> str -> str
}.

(** [WikiLinkExtension.__init__]: the defaults. *)
Definition default_config : Config :=
  mkConfig (py "/") (py "/") (py "wikilink") build_url.

(** The processor: its configuration and the [Meta] of the [Markdown]
    instance, a dictionary of lists of lines that the meta-data extension
    sets; [None] when the instance has no such attribute. *)
Record WikiLinksInlineProcessor := mkWL {
  config : Config;
  Meta : option (Dict.dict (list str))
}.

(** [self.md.Meta[key][0]] when [key in self.md.Meta], [default] if not. *)
Definition meta_or (meta : Dict.dict (list str)) (key : str) (default : str)
  : result str :=
  match Dict.get key meta with
  | Some (x :: _) => Ok x
  | Some [] => Raise IndexError
  | None => Ok default
  end.

(** [_getMeta()] *)
Definition _getMeta (self : WikiLinksInlineProcessor) : result (str * str * str) :=
  let base_url := cfg_base_url (config self) in
  let end_url := cfg_end_url (config self) in
  let html_class := cfg_html_class (config self) in
  match Meta self with
  | Some meta =>
      match meta_or meta (py "wiki_base_url") base_url with
      | Raise e => Raise e
      | Ok base_url =>
          match meta_or meta (py "wiki_end_url") end_url with
          | Raise e => Raise e
          | Ok end_url =>
              match meta_or meta (py "wiki_html_class") html_class with
              | Raise e => Raise e
              | Ok html_class => Ok (base_url, end_url, html_class)
              end
          end
      end
  | None => Ok (base_url, end_url, html_class)
  end.

(** [handleMatch(m, data)] for a match whose group 1 is [group1] and whose
    span is [start] to [stop]. *)
Definition handleMatch (self : WikiLinksInlineProcessor) (group1 : str)
  (start stop : nat) : result (Inline.produced * nat * nat) :=
  if truthy (strip group1) then
    match _getMeta self with
    | Raise e => Raise e
    | Ok (base_url, end_url, html_class) =>
        let label := strip group1 in
        let url := cfg_build_url (config self) label base_url end_url in
        let a := new (py "a") in
        let a := set_text a (Some (plain label)) in
        let a := set a (py "href") url in
        let a := if truthy html_class then set a (py "class") html_class else a in
        Ok (Inline.PElement a, start, stop)
    end
  else Ok (Inline.PText [], start, stop).

End WikiLinks.

Module WikiLinksFacts.
Import Etree WikiLinks.

Lemma clean_from_no_space : forall s skip, mem_char space (clean_from skip s) = false.
Proof.
  induction s as [|c s IH]; intros skip; [reflexivity|].
  cbn [clean_from]. destruct skip as [|k]; [|apply IH].
  unfold is_blank. destruct (Ascii.eqb c space) eqn:E.
  - cbn. apply IH.
  - destruct (Ascii.eqb c "_" && negb (spaces s =? 0)).
    + cbn. apply IH.
    + unfold mem_char. cbn [existsb]. rewrite Ascii.eqb_sym, E. apply IH.
Qed.


Lemma clean_from_id : forall s,
  mem_char space s = false -> clean_from 0 s = s.
Proof.
  induction s as [|c s IH]; intros H; [reflexivity|].
  unfold mem_char in *. cbn [existsb] in H.
  apply orb_false_iff in H. destruct H as [Hc Hs].
  cbn [clean_from]. unfold is_blank. rewrite Ascii.eqb_sym, Hc.
  assert (Hz : spaces s = 0).
  { destruct s as [|d s]; [reflexivity|]. cbn [existsb] in Hs.
    apply orb_false_iff in Hs.
    cbn [spaces]. unfold is_blank. rewrite Ascii.eqb_sym. now rewrite (proj1 Hs). }
  rewrite Hz. cbn. rewrite andb_false_r. f_equal. now apply IH.
Qed.

Lemma build_url_has_no_space_aux label base end_ :
  exists clean,
    build_url label base end_ = base ++ clean ++ end_ /\
    mem_char space clean = false.
Proof.
  exists (clean_from 0 label). split; [reflexivity | apply clean_from_no_space].
Qed.


(** X22. A label without spaces is kept as it is, so cleaning a second
    time changes nothing. *)
Theorem build_url_keeps_clean_label label base end_ :
  (mem_char space label = false ->
   build_url label base end_ = base ++ label ++ end_) /\
  build_url (clean_from 0 label) base end_ = build_url label base end_.
Proof.
  unfold build_url. split.
  - intros H. now rewrite clean_from_id.
  - rewrite (clean_from_id (clean_from 0 label)); [reflexivity|].
    apply clean_from_no_space.
Qed.

Lemma build_url_keeps_clean_label_witness :
  mem_char space (py "Wiki_Link-1") = false /\
  build_url (py "Wiki_Link-1") (py "/") (py "/") = py "/Wiki_Link-1/".
Proof.
  split; [reflexivity|].
  exact (proj1 (build_url_keeps_clean_label (py "Wiki_Link-1") (py "/") (py "/")) eq_refl).
Defined.

(** The keys of [Meta] that [_getMeta] reads. *)
Definition meta_keys : list str :=
  [py "wiki_base_url"; py "wiki_end_url"; py "wiki_html_class"].

Lemma meta_or_cases meta key default :
  (exists x, meta_or meta key default = Ok x /\
             (Dict.get key meta = None -> x = default) /\
             (forall l, Dict.get key meta = Some l -> hd_error l = Some x)) \/
  (meta_or meta key default = Raise IndexError /\ Dict.get key meta = Some []).
Proof.
  unfold meta_or. destruct (Dict.get key meta) as [[|x l]|].
  - right. auto.
  - left. exists x. repeat split; [discriminate|]. intros l' H. now injection H as <-.
  - left. exists default. repeat split. discriminate.
Qed.

(** X23. [handleMatch] gives the empty string for a label of whitespace
    and a link otherwise, with the span of the match in both cases. The
    text of the link is the stripped label; its [href] is built from the
    label with the base and the end that [Meta] gives, the configuration
    where [Meta] has no such key; a [class] follows when the class is not
    empty. The only failure is the [IndexError] of a key that [Meta] maps
    to an empty list. With [build_url] as configured by default the label
    holds no space inside the [href]. *)
Theorem handleMatch_link self group1 start stop :
  (strip group1 = [] ->
   handleMatch self group1 start stop = Ok (Inline.PText [], start, stop)) /\
  (strip group1 <> [] ->
   (exists base end_ cls,
      _getMeta self = Ok (base, end_, cls) /\
      handleMatch self group1 start stop
      = Ok (Inline.PElement
              (El (py "a")
                 ((py "href", cfg_build_url (config self) (strip group1) base end_)
                  :: (if truthy cls then [(py "class", cls)] else []))
                 (Some (plain (strip group1))) [] None), start, stop) /\
      (Meta self = None ->
       base = cfg_base_url (config self) /\ end_ = cfg_end_url (config self) /\
       cls = cfg_html_class (config self)) /\
      (cfg_build_url (config self) = build_url ->
       exists clean,
         cfg_build_url (config self) (strip group1) base end_ = base ++ clean ++ end_ /\
         mem_char space clean = false)) \/
   (handleMatch self group1 start stop = Raise IndexError /\
    exists meta key,
      Meta self = Some meta /\ In key meta_keys /\ Dict.get key meta = Some [])).
Proof.
  unfold handleMatch. split.
  - intros H. now rewrite H.
  - intros H. destruct (strip group1) as [|c label] eqn:E; [contradiction|].
    cbn [truthy]. unfold _getMeta.
    assert (B : forall base end_,
              cfg_build_url (config self) = build_url ->
              exists clean,
                cfg_build_url (config self) (c :: label) base end_
                = base ++ clean ++ end_ /\ mem_char space clean = false).
    { intros base end_ Hb. rewrite Hb.
      destruct (build_url_has_no_space_aux (c :: label) base end_) as [cl [H1 H2]].
      now exists cl. }
    destruct (Meta self) as [meta|].
    + destruct (meta_or_cases meta (py "wiki_base_url") (cfg_base_url (config self)))
        as [[b [-> _]]|[-> Hk]].
      2:{ right. split; [reflexivity|]. exists meta, (py "wiki_base_url").
          repeat split; [cbn; tauto | exact Hk]. }
      destruct (meta_or_cases meta (py "wiki_end_url") (cfg_end_url (config self)))
        as [[e [-> _]]|[-> Hk]].
      2:{ right. split; [reflexivity|]. exists meta, (py "wiki_end_url").
          repeat split; [cbn; tauto | exact Hk]. }
      destruct (meta_or_cases meta (py "wiki_html_class") (cfg_html_class (config self)))
        as [[k [-> _]]|[-> Hk]].
      2:{ right. split; [reflexivity|]. exists meta, (py "wiki_html_class").
          repeat split; [cbn; tauto | exact Hk]. }
      left. exists b, e, k. split; [reflexivity|]. split; [|split].
      * destruct k; reflexivity.
      * discriminate.
      * apply B.
    + left. eexists _, _, _. split; [reflexivity|]. split; [|split].
      * destruct (cfg_html_class (config self)); reflexivity.
      * auto.
      * apply B.
Qed.

(** The label [ Wiki  Link ] with the default configuration. *)
Lemma handleMatch_link_witness :
  strip (py " Wiki  Link ") <> [] /\
  handleMatch (mkWL default_config None) (py " Wiki  Link ") 0 15
  = Ok (Inline.PElement
          (El (py "a") [(py "href", py "/Wiki_Link/"); (py "class", py "wikilink")]
             (Some (plain (py "Wiki  Link"))) [] None), 0, 15).
Proof.
  assert (N : strip (py " Wiki  Link ") <> []) by (vm_compute; discriminate).
  split; [exact N|].
  destruct (proj2 (handleMatch_link (mkWL default_config None) (py " Wiki  Link ") 0 15) N)
    as [[base [end_ [cls [G [H _]]]]]|[H _]].
  - vm_compute in G. injection G as <- <- <-. rewrite H. reflexivity.
  - vm_compute in H. discriminate H.
Defined.

End WikiLinksFacts.

(** *** The extractor over a whole document *)

Module ExtractorFacts.
Import HtmlParser HtmlParserFacts ListFacts.

Ltac split_ifs :=
  repeat match goal with
         | |- context [if ?c then _ else _] => destruct c
         | |- context [match ?c with Some _ => _ | None => _ end] => destruct c
         end.

Lemma handle_empty_tag_position s data b :
  let s' := handle_empty_tag s data b in
  rawdata s' = rawdata s /\ lineno s' = lineno s /\ offset s' = offset s /\
  pos s' = pos s /\ empty_tags s' = empty_tags s.
Proof.
  unfold handle_empty_tag, cleandoc_append_stored, cleandoc_append, cache_append.
  cbv zeta. destruct (inraw s || intail s); [cbn; auto 6|].
  destruct (at_line_start s && b); [|cbn; auto 6].
  destruct (blank_line_re_match _);
    destruct (negb _ && endswith _ _); cbn; auto 6.
Qed.

Lemma handle_data_position s data :
  let s' := handle_data s data in
  rawdata s' = rawdata s /\ lineno s' = lineno s /\ offset s' = offset s /\
  pos s' = pos s /\ empty_tags s' = empty_tags s.
Proof.
  unfold handle_data. cbv zeta.
  destruct (intail s && mem_char nl data); cbn;
    destruct (inraw s); cbn; auto 6.
Qed.

Lemma handle_starttag_position blk s tag :
  let s' := handle_starttag blk s tag in
  rawdata s' = rawdata s /\ lineno s' = lineno s /\ offset s' = offset s /\
  pos s' = pos s /\ empty_tags s' = empty_tags s.
Proof.
  unfold handle_starttag. cbv zeta.
  destruct (mem_str tag (empty_tags s)); [apply handle_empty_tag_position|].
  destruct (mem_str tag CDATA_CONTENT_ELEMENTS);
    destruct (blk tag && _); cbn; destruct (inraw s); cbn; repeat split; reflexivity.
Qed.

Lemma handle_endtag_position s tag :
  let s' := handle_endtag s tag in
  rawdata s' = rawdata s /\ lineno s' = lineno s /\ offset s' = offset s /\
  pos s' = pos s /\ empty_tags s' = empty_tags s.
Proof.
  unfold handle_endtag, cleandoc_append_stored. cbv zeta.
  destruct (inraw s); [|cbn; auto 6].
  cbn [cache_append set_cache set_stack stack].
  destruct (length _ =? 0); [|cbn; auto 6].
  destruct (blank_line_re_match _); cbn; auto 6.
Qed.

(** No handler moves the parser: the position in the source is that of
    [updatepos] alone. *)
Lemma dispatch_position blk s t :
  let s' := dispatch blk s t in
  rawdata s' = rawdata s /\ lineno s' = lineno s /\ offset s' = offset s /\
  pos s' = pos s /\ empty_tags s' = empty_tags s.
Proof.
  destruct t as [tag e text|tag text|text|name text|name text|data text|data text
                |data text|data text]; cbn [dispatch].
  - unfold parse_starttag. destruct e.
    + destruct (mem_str tag CDATA_CONTENT_ELEMENTS);
        match goal with
        | |- context [handle_starttag blk ?x tag] =>
            destruct (handle_starttag_position blk x tag) as [H1 [H2 [H3 [H4 H5]]]]
        end; cbv zeta; rewrite H1, H2, H3, H4, H5; cbn; auto 6.
    + unfold handle_startendtag.
      match goal with
      | |- context [handle_empty_tag ?x ?d ?b] =>
          destruct (handle_empty_tag_position x d b) as [H1 [H2 [H3 [H4 H5]]]]
      end; cbv zeta; rewrite H1, H2, H3, H4, H5; cbn; auto 6.
    + match goal with
      | |- context [handle_data ?x ?d] =>
          destruct (handle_data_position x d) as [H1 [H2 [H3 [H4 H5]]]]
      end; cbv zeta; rewrite H1, H2, H3, H4, H5; cbn; auto 6.
  - destruct (handle_endtag_position s tag) as [H1 [H2 [H3 [H4 H5]]]].
    cbv zeta. unfold clear_cdata_mode. cbn. auto 6.
  - apply handle_data_position.
  - apply handle_empty_tag_position.
  - apply handle_empty_tag_position.
  - apply handle_empty_tag_position.
  - apply handle_empty_tag_position.
  - apply handle_empty_tag_position.
  - apply handle_empty_tag_position.
Qed.

Lemma source_snoc l t : source (l ++ [t]) = source l ++ token_text t.
Proof. unfold source, join. rewrite map_app, concat_app. cbn. now rewrite app_nil_r. Qed.

(** The state after the tokens [before] of a document. *)
Lemma feed_pos_ok blk stash after : forall before,
  let s := fold_left (step blk) before (init stash (source (before ++ after))) in
  pos_ok s /\ pos s = length (source before) /\
  rawdata s = source (before ++ after) /\ empty_tags s = [py "hr"].
Proof.
  intros before. cbv zeta.
  assert (G : forall doc, length (source before) <= length doc ->
              firstn (length (source before)) doc = source before ->
              let s := fold_left (step blk) before (init stash doc) in
              pos_ok s /\ pos s = length (source before) /\ rawdata s = doc /\
              empty_tags s = [py "hr"]).
  { clear after. induction before as [|t before IH] using rev_ind; intros doc Hl Hf.
    - cbn. unfold pos_ok. cbn. repeat split; lia.
    - rewrite source_snoc, length_app in Hl.
      rewrite fold_left_app. cbn [fold_left].
      destruct (IH doc) as [Hok [Hp [Hr He]]]; [lia | |].
      { rewrite source_snoc in Hf.
        assert (E : firstn (length (source before)) (source before ++ token_text t)
                    = source before)
          by (rewrite firstn_app, firstn_all, Nat.sub_diag; cbn [firstn]; apply app_nil_r).
        rewrite <- Hf in E. rewrite firstn_firstn in E.
        now replace (Nat.min (length (source before))
                       (length (source before ++ token_text t)))
          with (length (source before)) in E by (rewrite length_app; lia). }
      set (s := fold_left (step blk) before (init stash doc)) in *.
      unfold step.
      destruct (dispatch_position blk s t) as [D1 [D2 [D3 [D4 D5]]]].
      set (d := dispatch blk s t) in *.
      assert (Hd : pos_ok d) by (unfold pos_ok; rewrite D1, D2, D3, D4; exact Hok).
      rewrite <- D4.
      assert (Hn : pos d + length (token_text t) <= length (rawdata d))
        by (rewrite D1, D4, Hr, Hp; exact Hl).
      pose proof (pos_ok_updatepos d (length (token_text t)) Hd Hn) as Hu.
      destruct (updatepos_fields d (pos d + length (token_text t)))
        as [U1 [U2 [U3 _]]].
      split; [exact Hu|]. rewrite U1, U2, U3, D1, D4, D5, Hp, Hr, He.
      rewrite source_snoc, length_app. auto. }
  apply G.
  - rewrite HtmlParserFacts.source_app, length_app. lia.
  - rewrite HtmlParserFacts.source_app, firstn_app, firstn_all, Nat.sub_diag.
    cbn [firstn]. apply app_nil_r.
Qed.












Lemma pop_until_last tag above rest :
  mem_str tag above = false ->
  pop_until tag (above ++ tag :: rest) = rest.
Proof.
  induction above as [|j above IH]; cbn.
  - now rewrite str_eqb_refl.
  - intros H. apply orb_false_iff in H. destruct H as [Hj H].
    rewrite RegistryFacts.str_eqb_sym, Hj. now apply IH.
Qed.

Lemma mem_str_rev x l : mem_str x (rev l) = mem_str x l.
Proof.
  unfold mem_str. induction l as [|y l IH]; [reflexivity|].
  cbn [rev existsb]. rewrite existsb_app, IH. cbn. rewrite orb_false_r. apply orb_comm.
Qed.

(** X15. Inside raw content an end tag closes the element of its name that
    was opened last, and with it the elements opened after it and left
    open; while an element stays open below it the region goes on, and the
    tag is only added to the cache. An end tag that matches no open
    element closes nothing. *)
Theorem endtag_closes_nearest s tag :
  inraw s = true ->
  let s' := handle_endtag s tag in
  (forall below above,
     stack s = below ++ tag :: above -> mem_str tag above = false -> below <> [] ->
     stack s' = below /\ inraw s' = true /\
     _cache s' = _cache s ++ [get_endtag_text s tag] /\
     cleandoc s' = cleandoc s /\ htmlStash s' = htmlStash s /\ intail s' = intail s) /\
  (mem_str tag (stack s) = false -> stack s <> [] ->
     stack s' = stack s /\ inraw s' = true /\
     _cache s' = _cache s ++ [get_endtag_text s tag] /\
     cleandoc s' = cleandoc s /\ htmlStash s' = htmlStash s /\ intail s' = intail s).
Proof.
  intros Hr. cbv zeta. unfold handle_endtag. rewrite Hr.
  cbn [cache_append set_cache set_stack stack]. split.
  - intros below above Hs Ha Hb.
    assert (Hp : pop_tag tag (stack s) = below).
    { unfold pop_tag. rewrite Hs, HtmlParserFacts.mem_str_app. cbn [mem_str existsb].
      rewrite str_eqb_refl, orb_true_r. cbn [orb].
      rewrite rev_app_distr. cbn [rev]. rewrite <- app_assoc. cbn [app].
      rewrite pop_until_last by now rewrite mem_str_rev.
      apply rev_involutive. }
    rewrite Hp.
    destruct (length below =? 0) eqn:E.
    + apply Nat.eqb_eq, length_zero_iff_nil in E. contradiction.
    + cbn. rewrite Hr. auto 7.
  - intros Hm Hn. unfold pop_tag. rewrite Hm.
    destruct (length (stack s) =? 0) eqn:E.
    + apply Nat.eqb_eq, length_zero_iff_nil in E. contradiction.
    + cbn. rewrite Hr. auto 7.
Qed.

(** In [<div><p><b>x</p>] the end tag of [p] closes [b] as well. *)
Lemma endtag_closes_nearest_witness :
  let s := fold_left (step block_level_sample)
             [TStartTag (py "div") EndGt (py "<div>"); TStartTag (py "p") EndGt (py "<p>");
              TStartTag (py "b") EndGt (py "<b>"); TData (py "x")]
             (init HtmlStash.empty (py "<div><p><b>x</p>")) in
  stack s = [py "div"; py "p"; py "b"] /\
  stack (handle_endtag s (py "p")) = [py "div"] /\
  inraw (handle_endtag s (py "p")) = true.
Proof.
  cbv zeta. split; [reflexivity|].
  destruct (endtag_closes_nearest
              (fold_left (step block_level_sample)
                 [TStartTag (py "div") EndGt (py "<div>");
                  TStartTag (py "p") EndGt (py "<p>");
                  TStartTag (py "b") EndGt (py "<b>"); TData (py "x")]
                 (init HtmlStash.empty (py "<div><p><b>x</p>")))
              (py "p") eq_refl) as [H _].
  destruct (H [py "div"] [py "b"] eq_refl eq_refl ltac:(discriminate)) as [H1 [H2 _]].
  split; assumption.
Defined.

Lemma fold_left_snoc {A B} (f : A -> B -> A) l x a :
  fold_left f (l ++ [x]) a = f (fold_left f l a) x.
Proof. now rewrite fold_left_app. Qed.

Lemma step_fields blk s t :
  inraw (step blk s t) = inraw (dispatch blk s t) /\
  intail (step blk s t) = intail (dispatch blk s t) /\
  stack (step blk s t) = stack (dispatch blk s t) /\
  _cache (step blk s t) = _cache (dispatch blk s t) /\
  cleandoc (step blk s t) = cleandoc (dispatch blk s t) /\
  htmlStash (step blk s t) = htmlStash (dispatch blk s t).
Proof.
  unfold step.
  destruct (updatepos_fields (dispatch blk s t) (pos s + length (token_text t)))
    as [_ [_ [_ [U4 [U5 [U6 [U7 [U8 U9]]]]]]]].
  auto 7.
Qed.

Lemma feed_open_block blk stash tag text : forall ds after,
  blk tag = true -> mem_str tag [py "hr"] = false ->
  let doc := TStartTag tag EndGt text :: map TData ds in
  let s := fold_left (step blk) doc (init stash (source (doc ++ after))) in
  inraw s = true /\ intail s = false /\ stack s = [tag] /\
  htmlStash s = stash /\ cleandoc s = [[nl]] /\
  join (_cache s) = source doc /\ _cache s <> [].
Proof.
  induction ds as [|d ds IH] using rev_ind; intros after Hb He; cbv zeta.
  - cbn [map fold_left].
    match goal with
    | |- context [step blk ?x ?t] =>
        destruct (step_fields blk x t) as [U4 [U5 [U6 [U7 [U8 U9]]]]]
    end.
    rewrite U4, U5, U6, U7, U8, U9. clear U4 U5 U6 U7 U8 U9.
    cbn [dispatch parse_starttag]. unfold handle_starttag.
    destruct (mem_str tag CDATA_CONTENT_ELEMENTS);
      cbn [set_cdata_mode set_cdata set_starttag_text empty_tags init intail inraw];
      rewrite He, Hb; cbn; unfold source, join; cbn; rewrite app_nil_r;
      repeat split; auto; discriminate.
  - rewrite map_app. cbn [map].
    replace ((TStartTag tag EndGt text :: map TData ds ++ [TData d]) ++ after)
      with ((TStartTag tag EndGt text :: map TData ds) ++ TData d :: after)
      by (cbn [app]; now rewrite <- app_assoc).
    change (TStartTag tag EndGt text :: map TData ds ++ [TData d])
      with ((TStartTag tag EndGt text :: map TData ds) ++ [TData d]).
    rewrite fold_left_snoc.
    destruct (IH (TData d :: after) Hb He) as [Hr [Ht [Hs [Hh [Hc [Hj Hn]]]]]].
    cbv zeta in Hr, Ht, Hs, Hh, Hc, Hj, Hn.
    set (s := fold_left (step blk) (TStartTag tag EndGt text :: map TData ds) _) in *.
    destruct (step_fields blk s (TData d)) as [U4 [U5 [U6 [U7 [U8 U9]]]]].
    rewrite U4, U5, U6, U7, U8, U9. clear U4 U5 U6 U7 U8 U9.
    cbn [dispatch]. rewrite handle_data_inside by assumption.
    unfold cache_append. cbn [set_cache inraw intail stack htmlStash cleandoc _cache].
    repeat (split; [assumption|]). split.
    + rewrite join_app, Hj. rewrite (source_snoc (TStartTag tag EndGt text :: map TData ds)).
      unfold join. cbn. now rewrite app_nil_r.
    + intros H. apply app_eq_nil in H. destruct H as [_ H]. discriminate H.
Qed.

(** X16. A block-level tag that is never closed takes the rest of the
    document with it: at [close] the start tag and all the text after it
    are stashed as one fragment, and the clean document holds a newline
    and the placeholder of the fragment. *)
Theorem unclosed_block_is_stashed blk stash tag text ds :
  blk tag = true -> mem_str tag [py "hr"] = false ->
  let doc := TStartTag tag EndGt text :: map TData ds in
  let s := close (feed blk stash doc) in
  HtmlStash.rawHtmlBlocks (htmlStash s)
  = HtmlStash.rawHtmlBlocks stash ++ [source doc] /\
  cleandoc s = [[nl]; HtmlStash.get_placeholder (HtmlStash.html_counter stash)] /\
  _cache s = [].
Proof.
  intros Hb He. cbv zeta. unfold feed.
  pose proof (feed_open_block blk stash tag text ds [] Hb He) as F.
  pose proof (feed_pos_ok blk stash [] (TStartTag tag EndGt text :: map TData ds)) as P.
  cbv zeta in F, P. rewrite app_nil_r in F, P.
  destruct F as [Hr [Ht [Hs [Hh [Hc [Hj Hn]]]]]]. destruct P as [_ [Hp [Hd _]]].
  set (doc := TStartTag tag EndGt text :: map TData ds) in *.
  set (s := fold_left (step blk) doc (init stash (source doc))) in *.
  unfold close. rewrite Hd, Hp, skipn_all. cbn [length Nat.eqb negb].
  destruct (length (_cache s) =? 0) eqn:E.
  - apply Nat.eqb_eq, length_zero_iff_nil in E. contradiction.
  - cbn [negb]. unfold cleandoc_append_stored, HtmlStash.store, cleandoc_append.
    cbn [set_cache set_cleandoc set_stash htmlStash cleandoc _cache
         HtmlStash.rawHtmlBlocks HtmlStash.html_counter].
    rewrite Hh, Hc, Hj. auto.
Qed.

(** [<div>] and the text [a *b*], without an end tag. *)
Lemma unclosed_block_is_stashed_witness :
  let s := close (feed block_level_sample HtmlStash.empty
                    [TStartTag (py "div") EndGt (py "<div>"); TData (py "a *b*")]) in
  HtmlStash.rawHtmlBlocks (htmlStash s) = [py "<div>a *b*"] /\
  cleandoc s = [[nl]; HtmlStash.get_placeholder 0].
Proof.
  cbv zeta.
  destruct (unclosed_block_is_stashed block_level_sample HtmlStash.empty
              (py "div") (py "<div>") [py "a *b*"] eq_refl eq_refl) as [H1 [H2 _]].
  split; [exact H1 | exact H2].
Defined.

End ExtractorFacts.

(** *** Arguments, extensions and the configuration file *)

Module CliFacts.
Import Cli.

Section WithConfig.

Variable config : Type.
Variable empty_config : config.
Variable load_config : str -> option str -> option config.

(** An argument that is no option: it does not begin with a dash. *)
Definition positional (arg : str) : bool := negb (startswith (py "-") arg).

Lemma process_args_positional : forall rargs fuel largs v,
  forallb positional rargs = true -> length rargs <= fuel ->
  process_args fuel rargs largs v = Done (v, largs ++ rargs).
Proof.
  induction rargs as [|arg rargs IH]; intros fuel largs v Hp Hf.
  - destruct fuel; cbn; now rewrite app_nil_r.
  - destruct fuel as [|fuel]; [cbn in Hf; lia|].
    cbn [forallb] in Hp. apply andb_true_iff in Hp. destruct Hp as [Ha Hr].
    unfold positional in Ha. apply negb_true_iff in Ha.
    cbn [process_args].
    assert (E1 : str_eqb arg (py "--") = false).
    { destruct (str_eqb arg (py "--")) eqn:E; [|reflexivity].
      apply str_eqb_eq in E. subst arg. vm_compute in Ha. discriminate Ha. }
    assert (E2 : startswith (py "--") arg = false).
    { destruct arg as [|a arg]; [reflexivity|].
      cbn [startswith py list_ascii_of_string] in Ha |- *.
      rewrite andb_true_r in Ha. now rewrite Ha. }
    rewrite E1, E2, Ha. cbn [andb].
    rewrite IH by (auto; cbn in Hf; lia). now rewrite <- app_assoc.
Qed.

(** X17. Arguments without options: the first is the input file and the
    others are dropped; every option has its default. *)
Theorem positional_arguments args :
  forallb positional args = true ->
  parse_options config empty_config load_config args
  = Done (mkOpts config (hd_error args) None [] empty_config None (py "xhtml") true, CRITICAL).
Proof.
  intros H. unfold parse_options, parse_args.
  rewrite process_args_positional by auto. cbn. now destruct args.
Qed.

(** The values after [n] uses of [-x]. *)
Definition with_extensions (v : Values) (es : list str) : Values :=
  match es with
  | [] => v
  | _ => mkValues (filename v) (encoding v) (output_format v) (lazy_ol v)
           (Some (match extensions v with Some l => l | None => [] end ++ es))
           (configfile v) (verbose v)
  end.

Lemma process_args_x fuel e rest largs v :
  process_args (S fuel) (py "-x" :: e :: rest) largs v
  = process_args fuel rest largs
      (mkValues (filename v) (encoding v) (output_format v) (lazy_ol v)
         (Some (match extensions v with Some l => l | None => [] end ++ [e]))
         (configfile v) (verbose v)).
Proof. reflexivity. Qed.

Lemma process_args_extensions : forall es fuel largs v,
  2 * length es <= fuel ->
  process_args fuel (flat_map (fun e => [py "-x"; e]) es) largs v
  = Done (with_extensions v es, largs).
Proof.
  induction es as [|e es IH]; intros fuel largs v Hf.
  - destruct fuel; cbn; now rewrite ?app_nil_r.
  - destruct fuel as [|fuel]; [cbn in Hf; lia|].
    cbn [flat_map app]. rewrite process_args_x.
    rewrite IH by (cbn in Hf; lia).
    destruct es as [|e' es]; [reflexivity|].
    cbn [with_extensions extensions filename encoding output_format lazy_ol configfile verbose].
    now rewrite <- app_assoc.
Qed.

(** X18. Every [-x] adds its extension: the extensions come out in the
    order of the command line, and nothing else changes. *)
Theorem extensions_accumulate es :
  parse_options config empty_config load_config (flat_map (fun e => [py "-x"; e]) es)
  = Done (mkOpts config None None es empty_config None (py "xhtml") true, CRITICAL).
Proof.
  unfold parse_options, parse_args.
  rewrite process_args_extensions.
  2:{ rewrite (flat_map_constant_length (c := 2)) by reflexivity. lia. }
  destruct es as [|e es]; reflexivity.
Qed.

(** X19. [-c] names the configuration file: it is read with the encoding
    that [-e] gives, wherever [-e] stands, and a file that cannot be read
    or parsed ends [parse_options] with the exception. An empty file name
    is no file: nothing is read. *)
Theorem configuration_file file enc :
  file <> [] ->
  let loaded :=
    match load_config file (Some enc) with
    | Some cfg => Done (mkOpts config None None [] cfg (Some enc) (py "xhtml") true, CRITICAL)
    | None => ConfigError
    end in
  parse_options config empty_config load_config [py "-e"; enc; py "-c"; file] = loaded /\
  parse_options config empty_config load_config [py "-c"; file; py "-e"; enc] = loaded /\
  parse_options config empty_config load_config [py "--extension_configs=" ++ file; py "--encoding=" ++ enc] = loaded /\
  parse_options config empty_config load_config [py "-c"; []] = Done (default_options config empty_config, CRITICAL).
Proof.
  intros Hf. destruct file as [|c file]; [contradiction|]. cbv zeta.
  split; [|split; [|split]].
  - cbn. now destruct (load_config (c :: file) (Some enc)).
  - cbn. now destruct (load_config (c :: file) (Some enc)).
  - cbn. now destruct (load_config (c :: file) (Some enc)).
  - reflexivity.
Qed.

(** X20. An option that is not declared, or one that lacks its value, ends
    [parse_options] with exit status 2, whatever follows; [--help], [-h]
    and [--version] end it with status 0. *)
Theorem bad_option_exits args :
  (forall c rest,
     short_opt c = None -> c <> "-"%char ->
     parse_options config empty_config load_config ((py "-" ++ c :: rest) :: args)
     = SystemExit 2) /\
  (forall o,
     In o [py "-f"; py "-e"; py "-o"; py "-x"; py "-c"] ->
     parse_options config empty_config load_config [o] = SystemExit 2) /\
  (forall o,
     In o [py "--help"; py "-h"; py "--version"] ->
     parse_options config empty_config load_config (o :: args) = SystemExit 0).
Proof.
  split; [|split].
  - intros c rest Hc Hd. unfold parse_options, parse_args.
    cbn [length process_args py list_ascii_of_string app].
    apply Ascii.eqb_neq in Hd.
    cbn [str_eqb startswith]. change (Ascii.eqb "-" "-") with true.
    rewrite Hd, (Ascii.eqb_sym "-" c), Hd. cbn [andb length Nat.ltb Nat.leb].
    unfold slice_from. cbn [skipn process_short_opts]. now rewrite Hc.
  - intros o [<-|[<-|[<-|[<-|[<-|[]]]]]]; reflexivity.
  - intros o [<-|[<-|[<-|[]]]]; reflexivity.
Qed.

End WithConfig.

(** A loader that finds every file empty. *)
Definition no_file (name : str) (enc : option str) : option unit := Some tt.

Lemma positional_arguments_witness :
  parse_options unit tt no_file [py "in.md"; py "more.md"]
  = Done (mkOpts unit (Some (py "in.md")) None [] tt None (py "xhtml") true, CRITICAL).
Proof. exact (positional_arguments unit tt no_file [py "in.md"; py "more.md"] eq_refl). Defined.

Lemma configuration_file_witness :
  parse_options unit tt no_file [py "-c"; py "conf.yml"; py "-e"; py "utf-8"]
  = Done (mkOpts unit None None [] tt (Some (py "utf-8")) (py "xhtml") true, CRITICAL).
Proof.
  exact (proj1 (proj2 (configuration_file unit tt no_file (py "conf.yml") (py "utf-8")
                         ltac:(discriminate)))).
Defined.

Lemma bad_option_exits_witness :
  parse_options unit tt no_file [py "-z"; py "in.md"] = SystemExit 2 /\
  parse_options unit tt no_file [py "-o"] = SystemExit 2 /\
  parse_options unit tt no_file [py "--help"; py "in.md"] = SystemExit 0.
Proof.
  destruct (bad_option_exits unit tt no_file [py "in.md"]) as [H1 [H2 H3]].
  split; [|split].
  - exact (H1 "z"%char [] eq_refl ltac:(discriminate)).
  - apply H2. cbn. tauto.
  - apply H3. cbn. tauto.
Defined.

End CliFacts.
